(** * GPy parameterization core: observers, index operations, parameter trees

    A shallow embedding of [GPy/core/parameterization/parameter_core.py] and
    [GPy/core/parameterization/parameterized.py].

    Python objects live in an explicit object store keyed by identity; methods
    become functions that take the store and return the outcome (a value or a
    raised exception) together with the store as the call left it.  Numbers
    that the source keeps in Python ints ([size], offsets, slice bounds,
    indices) are [Z]; numpy float vectors are lists over an abstract carrier;
    names are strings. *)

From Stdlib Require Import ZArith List Bool Lia Sorted.
From Stdlib Require Strings.String Strings.Ascii.
From stdpp Require Import base option list gmap.
Import ListNotations.
Import String.StringSyntax Ascii.AsciiSyntax.
Open Scope Z_scope.
Delimit Scope string_scope with string.
Delimit Scope char_scope with char.

(** ** Priorities and callables of the observer registry *)

(** A priority is a Python number; the source uses integers ([0], [-100]) and
    [-np.inf]. *)
Inductive priority : Type :=
| NegInf
| Fin (z : Z).

(** [prio_ltb a b] is Python's [a < b]. *)
Definition prio_ltb (a b : priority) : bool :=
  match a, b with
  | NegInf, NegInf => false
  | NegInf, Fin _ => true
  | Fin _, NegInf => false
  | Fin x, Fin y => x <? y
  end.

(** [prio_leb a b] is Python's [a <= b]. *)
Definition prio_leb (a b : priority) : bool := negb (prio_ltb b a).

Definition prio_eqb (a b : priority) : bool :=
  match a, b with
  | NegInf, NegInf => true
  | Fin x, Fin y => x =? y
  | _, _ => false
  end.

(** The callables the source registers are bound methods of a node; anything
    else a client registers is an external callable known by a tag. *)
Inductive callable : Type :=
| PassThrough (o : nat)        (* o._pass_through_notify_observers *)
| ParametersChanged (o : nat)  (* o._parameters_changed_notification *)
| External (k : nat).

Definition callable_eqb (a b : callable) : bool :=
  match a, b with
  | PassThrough x, PassThrough y => Nat.eqb x y
  | ParametersChanged x, ParametersChanged y => Nat.eqb x y
  | External x, External y => Nat.eqb x y
  | _, _ => false
  end.

(** One subscription: the tuple [(p, obs, clble)]. *)
Definition entry : Type := priority * nat * callable.

Definition prio (e : entry) : priority := fst (fst e).
Definition observer_of (e : entry) : nat := snd (fst e).
Definition callble_of (e : entry) : callable := snd e.

Definition entry_eqb (a b : entry) : bool :=
  prio_eqb (prio a) (prio b) && Nat.eqb (observer_of a) (observer_of b)
  && callable_eqb (callble_of a) (callble_of b).

(** ** class Observable *)

Module Observable.

(** The loop of [_insert_sorted]: [ins] counts the entries passed before
    the first one with [p > pr]. *)
Fixpoint insert_index (p : priority) (l : list entry) : nat :=
  match l with
  | [] => O
  | e :: l' => if prio_ltb (prio e) p then O else S (insert_index p l')
  end.

(** [self._observer_callables_.insert(ins, (p, o, c))] *)
Definition _insert_sorted (l : list entry) (p : priority) (o : nat) (c : callable)
  : list entry :=
  let ins := insert_index p l in
  firstn ins l ++ (p, o, c) :: skipn ins l.

Definition add_observer (l : list entry) (observer : nat) (callble : callable)
           (priority : priority) : list entry :=
  _insert_sorted l priority observer callble.

(** [list.remove(r)]: drops the first element equal to [r]. *)
Fixpoint list_remove (r : entry) (l : list entry) : list entry :=
  match l with
  | [] => []
  | x :: l' => if entry_eqb x r then l' else x :: list_remove r l'
  end.

Definition remove_observer (l : list entry) (observer : nat)
           (callble : option callable) : list entry :=
  let to_remove :=
    List.filter
      (fun e =>
         match callble with
         | Some c => Nat.eqb (observer_of e) observer && callable_eqb c (callble_of e)
         | None => Nat.eqb (observer_of e) observer
         end) l in
  fold_left (fun acc r => list_remove r acc) to_remove l.

(** The [for] loop of [_notify_observers] with its [break]. *)
Fixpoint scan (min_priority : priority) (l : list entry) : list entry :=
  match l with
  | [] => []
  | e :: l' => if prio_leb (prio e) min_priority then [] else e :: scan min_priority l'
  end.

(** [_notify_observers]: the calls [callble(which)] it makes, in the order
    it makes them.  [self] stands in for an omitted [which]. *)
Definition _notify_observers (self : nat) (l : list entry) (which : option nat)
           (min_priority : option priority) : list (callable * nat) :=
  let which := match which with Some w => w | None => self end in
  match min_priority with
  | None => map (fun e => (callble_of e, which)) l
  | Some m => map (fun e => (callble_of e, which)) (scan m l)
  end.

(** Calls a client can make on the registry. *)
Inductive op : Type :=
| Add (observer : nat) (callble : callable) (p : priority)
| Remove (observer : nat) (callble : option callable).

Definition step (l : list entry) (o : op) : list entry :=
  match o with
  | Add ob c p => add_observer l ob c p
  | Remove ob c => remove_observer l ob c
  end.

(** The registry after a sequence of calls on a fresh [Observable]. *)
Definition run (ops : list op) : list entry := fold_left step ops [].

(** Entries come in descending priority. *)
Definition descending (l : list entry) : Prop :=
  StronglySorted (fun a b => prio_leb (prio b) (prio a) = true) l.

(** What the spec says of ties: everything ahead of the new entry has a
    strictly greater priority. *)
Definition new_entry_before_equals (l : list entry) (p : priority) (o : nat)
           (c : callable) : Prop :=
  exists before after,
    l = before ++ after /\
    _insert_sorted l p o c = before ++ (p, o, c) :: after /\
    Forall (fun e => prio_ltb p (prio e) = true) before.

End Observable.

(** Whether [remove_observer(observer, callble)] selects the entry [e]: the
    test of its first loop. *)
Definition selected (observer : nat) (callble : option callable) (e : entry) : bool :=
  match callble with
  | Some c => Nat.eqb (observer_of e) observer && callable_eqb c (callble_of e)
  | None => Nat.eqb (observer_of e) observer
  end.

(** ** Outcomes of a call *)

(** What a Python call can end in besides a value.  [OutOfFuel] is not a
    Python exception: it stands for a call that did not come back within the
    step budget of the model (a recursion past the interpreter's limit, or a
    [while] loop that does not end).  [NoSuchObject] marks a lookup of an
    identity the object store does not hold, which Python references cannot
    produce.  [Unmodelled] ends a run at a call into [param.py], which is not
    among the modelled files. *)
Inductive exn : Type :=
| HierarchyError
| RuntimeError
| IndexError
| TypeError
| ValueError
| NotImplementedError
| AttributeError
| OutOfFuel
| NoSuchObject
| Unmodelled.

Inductive outcome (A : Type) : Type :=
| Ok (a : A)
| Raise (e : exn).
Arguments Ok {A} a.
Arguments Raise {A} e.

Definition obind {A B : Type} (o : outcome A) (k : A -> outcome B) : outcome B :=
  match o with
  | Ok a => k a
  | Raise e => Raise e
  end.

Notation "'let*' x ':=' c 'in' k" := (obind c (fun x => k))
  (at level 10, x name, c at level 100, k at level 200).

(** [[g(x) for x in l]] where [g] may raise. *)
Fixpoint omap {A B : Type} (g : A -> outcome B) (l : list A) : outcome (list B) :=
  match l with
  | [] => Ok []
  | x :: l' => let* y := g x in let* ys := omap g l' in Ok (y :: ys)
  end.

(** The outcome is not [HierarchyError]. *)
Definition calm {A : Type} (o : outcome A) : Prop := o <> Raise HierarchyError.

(** ** numpy and Python list primitives *)

Section Arrays.
Context {A : Type}.

Definition len (a : list A) : Z := Z.of_nat (length a).

(** Position addressed by the integer [i] in a sequence of length [n];
    negative integers count from the end. *)
Definition position (n i : Z) : option nat :=
  if (0 <=? i) && (i <? n) then Some (Z.to_nat i)
  else if (i <? 0) && (0 <=? i + n) then Some (Z.to_nat (i + n))
  else None.

(** [a[i]] *)
Definition item (a : list A) (i : Z) : outcome A :=
  match position (len a) i with
  | Some k => match a !! k with Some x => Ok x | None => Raise IndexError end
  | None => Raise IndexError
  end.

(** [a[ind]] for an integer index array. *)
Definition take_at (a : list A) (ind : list Z) : outcome (list A) :=
  omap (item a) ind.

(** [a[i] = x] *)
Definition set_item (a : list A) (i : Z) (x : A) : outcome (list A) :=
  match position (len a) i with
  | Some k => Ok (<[k := x]> a)
  | None => Raise IndexError
  end.

(** [np.put(a, ind, v)] with [v] as long as [ind]. *)
Fixpoint put (a : list A) (ind : list Z) (v : list A) : outcome (list A) :=
  match ind, v with
  | i :: ind', x :: v' => let* a' := set_item a i x in put a' ind' v'
  | _, _ => Ok a
  end.

(** [a[ind] = x] for a scalar [x]. *)
Fixpoint fill_at (a : list A) (ind : list Z) (x : A) : outcome (list A) :=
  match ind with
  | [] => Ok a
  | i :: ind' => let* a' := set_item a i x in fill_at a' ind' x
  end.

(** [a[mask]] for a boolean array of the length of [a]. *)
Fixpoint select (a : list A) (mask : list bool) : list A :=
  match a, mask with
  | x :: a', b :: mask' => if b then x :: select a' mask' else select a' mask'
  | _, _ => []
  end.

Definition mask_get (a : list A) (mask : list bool) : outcome (list A) :=
  if Nat.eqb (length a) (length mask) then Ok (select a mask) else Raise IndexError.

(** Writes the values [v], in order, at the positions where [mask] holds. *)
Fixpoint scatter (a : list A) (mask : list bool) (v : list A) : list A :=
  match a, mask with
  | x :: a', b :: mask' =>
      if b then
        match v with
        | y :: v' => y :: scatter a' mask' v'
        | [] => x :: scatter a' mask' []
        end
      else x :: scatter a' mask' v
  | _, _ => a
  end.

Definition count_true (mask : list bool) : nat :=
  length (List.filter (fun b => b) mask).

(** [a[mask] = v]: [v] has one value per selected position, or is a single
    value that numpy broadcasts. *)
Definition mask_set (a : list A) (mask : list bool) (v : list A) : outcome (list A) :=
  if negb (Nat.eqb (length a) (length mask)) then Raise IndexError
  else if Nat.eqb (length v) (count_true mask) then Ok (scatter a mask v)
  else match v with
       | [y] => Ok (scatter a mask (repeat y (count_true mask)))
       | _ => Raise ValueError
       end.

(** Bound of a slice, clamped the way Python clamps it. *)
Definition clamp (n i : Z) : nat :=
  if i <? 0 then Z.to_nat (Z.max 0 (i + n)) else Z.to_nat (Z.min i n).

(** [a[start:stop]] *)
Definition slice (a : list A) (start stop : Z) : list A :=
  let lo := clamp (len a) start in
  let hi := clamp (len a) stop in
  firstn (hi - lo) (skipn lo a).

(** [a[:stop]] with [stop] possibly [None]. *)
Definition prefix (a : list A) (stop : option Z) : list A :=
  match stop with
  | None => a
  | Some k => firstn (clamp (len a) k) a
  end.

(** [a.insert(i, x)] *)
Definition list_insert (a : list A) (i : Z) (x : A) : list A :=
  let k := clamp (len a) i in
  firstn k a ++ x :: skipn k a.

(** [del a[k]] for an index that [enumerate] produced. *)
Definition list_del (a : list A) (k : nat) : outcome (list A) :=
  if (k <? length a)%nat then Ok (firstn k a ++ skipn (S k) a) else Raise IndexError.

End Arrays.

Definition zsum (l : list Z) : Z := fold_right Z.add 0 l.

Definition mem_nat (x : nat) (l : list nat) : bool := existsb (Nat.eqb x) l.
Definition mem_z (x : Z) (l : list Z) : bool := existsb (Z.eqb x) l.

(** [np.ones(n, dtype=bool)] *)
Definition ones (n : Z) : outcome (list bool) :=
  if n <? 0 then Raise ValueError else Ok (repeat true (Z.to_nat n)).

(** [numpy.r_[:n]] *)
Definition arange (n : Z) : list Z := map Z.of_nat (seq 0 (Z.to_nat n)).

(** [np.all(mask)] *)
Definition all_true (mask : list bool) : bool := forallb (fun b => b) mask.

(** Sorted insertion without repetition, the step of [np.union1d]. *)
Fixpoint insert_z (x : Z) (l : list Z) : list Z :=
  match l with
  | [] => [x]
  | y :: l' => if x <? y then x :: l else if x =? y then l else y :: insert_z x l'
  end.

Definition union1d (a b : list Z) : list Z :=
  fold_right insert_z (fold_right insert_z [] a) b.

(** ** Transformations *)

(** A value transform as the core consumes it: the object's identity and its
    elementwise maps.  The concrete transforms live in [transformations.py],
    outside the modelled files, so they enter as data. *)
(** ** Names *)

(** [s.replace(old, new)] for an [old] of one character. *)
Fixpoint replace (old : Ascii.ascii) (new : String.string) (s : String.string)
  : String.string :=
  match s with
  | String.EmptyString => String.EmptyString
  | String.String c s' =>
      if Ascii.eqb c old then String.append new (replace old new s')
      else String.String c (replace old new s')
  end.
Arguments replace old%_char new%_string s%_string.

Definition adjust_name_for_printing (name : option String.string) : String.string :=
  match name with
  | Some name =>
      replace "/" ""
        (replace "*" ""
           (replace "!" ""
              (replace "+" ""
                 (replace "-" "" (replace "." "_" (replace " " "_" name))))))
  | None => ""%string
  end.

(** [l.index(x)], for an [x] that is in [l]. *)
Fixpoint index_of (x : String.string) (l : list String.string) : option nat :=
  match l with
  | [] => None
  | y :: l' => if String.eqb y x then Some O else option_map S (index_of x l')
  end.

Module Transformation.
Record t (V : Type) : Type := make {
  id : nat;
  f : V -> V;
  finv : V -> V;
  gradfactor : V -> V;
  initialize : list V -> list V
}.
Arguments make {V}.
Arguments id {V}.
Arguments f {V}.
Arguments finv {V}.
Arguments gradfactor {V}.
Arguments initialize {V}.
End Transformation.

(** Arithmetic of the gradient entries. *)
Class Numeric (V : Type) : Type := {
  vadd : V -> V -> V;
  vmul : V -> V -> V
}.

(** ** Index operations *)

Section Model.
Context {V : Type} {num : Numeric V}.

(** What an index-operations structure records indices under: the fixed
    sentinel, a transform object, or a prior object (known by identity). *)
Inductive property : Type :=
| __fixed__
| Constraint (c : Transformation.t V)
| Prior (q : nat).

Definition property_eqb (a b : property) : bool :=
  match a, b with
  | __fixed__, __fixed__ => true
  | Constraint x, Constraint y => Nat.eqb (Transformation.id x) (Transformation.id y)
  | Prior x, Prior y => Nat.eqb x y
  | _, _ => false
  end.

(** [isinstance(transform, Transformation)] *)
Definition is_transformation (p : property) : bool :=
  match p with
  | Constraint _ => true
  | _ => false
  end.

(** The content of a store: each property with its index set, in the order
    [iteritems] yields them. *)
Definition props : Type := list (property * list Z).

(** Modelled from the spec: [index_operations.py] is not among the modelled
    files.  [ParameterIndexOperations] is the spec's index-operations store
    (a mapping from property to a set of integer offsets) and
    [ParameterIndexOperationsView] its view (a facade over a base store plus
    [(offset, size)]).  The operations below follow section 4.2 of the spec
    and the calls the modelled files make on them. *)
Inductive index_ops : Type :=
| ParameterIndexOperations (content : props)
| ParameterIndexOperationsView (base : nat) (offset size : Z).

Definition drop_empty (s : props) : props :=
  List.filter (fun e => match snd e with [] => false | _ => true end) s.

(** Modelled from the spec: [store[prop]], empty when nothing is recorded. *)
Definition store_getitem (s : props) (p : property) : list Z :=
  match List.find (fun e => property_eqb (fst e) p) s with
  | Some e => snd e
  | None => []
  end.

Definition has_property (s : props) (p : property) : bool :=
  existsb (fun e => property_eqb (fst e) p) s.

(** Modelled from the spec: "strip indices from whatever transform they
    currently belong to". *)
Definition strip (ind : list Z) (s : props) : props :=
  drop_empty
    (map (fun e => if is_transformation (fst e)
                   then (fst e, List.filter (fun i => negb (mem_z i ind)) (snd e))
                   else e) s).

(** Modelled from the spec: [add(property, indices)]: for a value transform
    first strip the indices from the transforms that hold them, then record
    the new mapping. *)
Definition store_add (s : props) (p : property) (ind : list Z) : props :=
  let s1 := if is_transformation p then strip ind s else s in
  drop_empty
    (if has_property s1 p
     then map (fun e => if property_eqb (fst e) p
                        then (fst e, union1d (snd e) ind) else e) s1
     else s1 ++ [(p, union1d [] ind)]).

(** Modelled from the spec: [remove(property, indices)] as the modelled
    files call it: takes the indices out of the property's set and returns
    the ones that were there. *)
Definition store_remove (s : props) (p : property) (ind : list Z) : props * list Z :=
  (drop_empty
     (map (fun e => if property_eqb (fst e) p
                    then (fst e, List.filter (fun i => negb (mem_z i ind)) (snd e))
                    else e) s),
   List.filter (fun i => mem_z i ind) (store_getitem s p)).

(** Modelled from the spec: "every recorded index >= start is
    decremented/incremented by amount". *)
Definition store_shift_left (s : props) (start amount : Z) : props :=
  map (fun e => (fst e, map (fun i => if start <=? i then i - amount else i) (snd e))) s.

Definition store_shift_right (s : props) (start amount : Z) : props :=
  map (fun e => (fst e, map (fun i => if start <=? i then i + amount else i) (snd e))) s.

(** Modelled from the spec: "total count of distinct indices covered by any
    property". *)
Definition store_size (s : props) : Z :=
  len (fold_right (fun e acc => union1d acc (snd e)) [] s).

(** Modelled from the spec: what a view shows of its base: the indices
    inside [[offset, offset + size)], renumbered from zero. *)
Definition window (offset size : Z) (s : props) : props :=
  drop_empty
    (map (fun e =>
            (fst e,
             map (fun i => i - offset)
                 (List.filter (fun i => (offset <=? i) && (i <? offset + size)) (snd e))))
         s).

Definition iheap : Type := gmap nat index_ops.

(** [o.iteritems()] *)
Fixpoint iteritems (k : nat) (o : nat) (h : iheap) : outcome props :=
  match k with
  | O => Raise OutOfFuel
  | S k' =>
      match h !! o with
      | None => Raise NoSuchObject
      | Some (ParameterIndexOperations s) => Ok s
      | Some (ParameterIndexOperationsView b off sz) =>
          let* s := iteritems k' b h in Ok (window off sz s)
      end
  end.

(** [o[prop]] *)
Definition getitem (k : nat) (o : nat) (p : property) (h : iheap) : outcome (list Z) :=
  let* s := iteritems k o h in Ok (store_getitem s p).

(** [o.properties()] *)
Definition properties (k : nat) (o : nat) (h : iheap) : outcome (list property) :=
  let* s := iteritems k o h in Ok (map fst s).

(** [o.size] *)
Definition ops_size (k : nat) (o : nat) (h : iheap) : outcome Z :=
  let* s := iteritems k o h in Ok (store_size s).

(** [o.add(prop, ind)]; a view forwards to its base with the indices moved
    by its offset. *)
Fixpoint add (k : nat) (o : nat) (p : property) (ind : list Z) (h : iheap)
  : outcome iheap :=
  match k with
  | O => Raise OutOfFuel
  | S k' =>
      match h !! o with
      | None => Raise NoSuchObject
      | Some (ParameterIndexOperations s) =>
          Ok (<[o := ParameterIndexOperations (store_add s p ind)]> h)
      | Some (ParameterIndexOperationsView b off sz) =>
          add k' b p (map (fun i => i + off) ind) h
      end
  end.

(** [o.remove(prop, ind)]; a view forwards to its base and hands back the
    removed indices in its own numbering, clamped to its window. *)
Fixpoint remove (k : nat) (o : nat) (p : property) (ind : list Z) (h : iheap)
  : outcome (iheap * list Z) :=
  match k with
  | O => Raise OutOfFuel
  | S k' =>
      match h !! o with
      | None => Raise NoSuchObject
      | Some (ParameterIndexOperations s) =>
          Ok (<[o := ParameterIndexOperations (fst (store_remove s p ind))]> h,
              snd (store_remove s p ind))
      | Some (ParameterIndexOperationsView b off sz) =>
          let* r := remove k' b p (map (fun i => i + off) ind) h in
          Ok (fst r,
              map (fun i => i - off)
                  (List.filter (fun i => (off <=? i) && (i <? off + sz)) (snd r)))
      end
  end.

(** [o.shift_left(start, amount)] *)
Fixpoint shift_left (k : nat) (o : nat) (start amount : Z) (h : iheap) : outcome iheap :=
  match k with
  | O => Raise OutOfFuel
  | S k' =>
      match h !! o with
      | None => Raise NoSuchObject
      | Some (ParameterIndexOperations s) =>
          Ok (<[o := ParameterIndexOperations (store_shift_left s start amount)]> h)
      | Some (ParameterIndexOperationsView b off sz) =>
          shift_left k' b (start + off) amount h
      end
  end.

(** [o.shift_right(start, amount)] *)
Fixpoint shift_right (k : nat) (o : nat) (start amount : Z) (h : iheap) : outcome iheap :=
  match k with
  | O => Raise OutOfFuel
  | S k' =>
      match h !! o with
      | None => Raise NoSuchObject
      | Some (ParameterIndexOperations s) =>
          Ok (<[o := ParameterIndexOperations (store_shift_right s start amount)]> h)
      | Some (ParameterIndexOperationsView b off sz) =>
          shift_right k' b (start + off) amount h
      end
  end.

(** Runs [step] over the items of a store, threading the heap. *)
Fixpoint over_items (step : property -> list Z -> iheap -> outcome iheap)
         (items : props) (h : iheap) : outcome iheap :=
  match items with
  | [] => Ok h
  | e :: items' => let* h' := step (fst e) (snd e) h in over_items step items' h'
  end.

(** [o.clear()]: a store forgets everything; a view takes what it shows out
    of its base. *)
Definition clear (k : nat) (o : nat) (h : iheap) : outcome iheap :=
  match h !! o with
  | None => Raise NoSuchObject
  | Some (ParameterIndexOperations _) => Ok (<[o := ParameterIndexOperations []]> h)
  | Some (ParameterIndexOperationsView b off sz) =>
      let* items := iteritems k o h in
      over_items (fun p ind h' =>
                    let* r := remove k b p (map (fun i => i + off) ind) h' in Ok (fst r))
                 items h
  end.

(** [o.update(other, offset)]: the union with another store at an offset. *)
Definition update (k : nat) (o other : nat) (offset : Z) (h : iheap) : outcome iheap :=
  let* items := iteritems k other h in
  over_items (fun p ind h' => add k o p (map (fun i => i + offset) ind) h') items h.

(** ** The object store *)

(** The two kinds of node.  [Param] (the leaf, from [param.py]) is outside
    the modelled files; it inherits everything in [parameter_core.py] and
    adds the raw buffer. *)
Inductive node_class : Type :=
| Param
| Parameterized.

(** The fields of a node that the modelled methods read or write.  The
    entries that [_add_parameter_name] puts into [__dict__] for attribute-style
    lookup of children are left out: it skips a name that [dir(self)] already
    has, and [_remove_parameter_name] deletes only what it put there, so no
    field below is touched by either. *)
Record node : Type := Node {
  cls : node_class;
  size : Z;
  _direct_parent_ : option nat;
  _parent_index_ : option nat;
  _parameters_ : list nat;
  _param_slices_ : list (Z * Z);
  constraints : nat;
  priors : nat;
  _fixes_ : option (list bool);
  _observer_callables_ : list entry;
  values : list V;
  _tied_to_me_ : list (nat * list Z);
  _name : String.string
}.

Definition with_size (x : Z) (n : node) : node :=
  Node (cls n) x (_direct_parent_ n) (_parent_index_ n) (_parameters_ n)
       (_param_slices_ n) (constraints n) (priors n) (_fixes_ n)
       (_observer_callables_ n) (values n) (_tied_to_me_ n) (_name n).
Definition with_direct_parent (x : option nat) (n : node) : node :=
  Node (cls n) (size n) x (_parent_index_ n) (_parameters_ n)
       (_param_slices_ n) (constraints n) (priors n) (_fixes_ n)
       (_observer_callables_ n) (values n) (_tied_to_me_ n) (_name n).
Definition with_parent_index (x : option nat) (n : node) : node :=
  Node (cls n) (size n) (_direct_parent_ n) x (_parameters_ n)
       (_param_slices_ n) (constraints n) (priors n) (_fixes_ n)
       (_observer_callables_ n) (values n) (_tied_to_me_ n) (_name n).
Definition with_parameters (x : list nat) (n : node) : node :=
  Node (cls n) (size n) (_direct_parent_ n) (_parent_index_ n) x
       (_param_slices_ n) (constraints n) (priors n) (_fixes_ n)
       (_observer_callables_ n) (values n) (_tied_to_me_ n) (_name n).
Definition with_param_slices (x : list (Z * Z)) (n : node) : node :=
  Node (cls n) (size n) (_direct_parent_ n) (_parent_index_ n) (_parameters_ n)
       x (constraints n) (priors n) (_fixes_ n)
       (_observer_callables_ n) (values n) (_tied_to_me_ n) (_name n).
Definition with_constraints (x : nat) (n : node) : node :=
  Node (cls n) (size n) (_direct_parent_ n) (_parent_index_ n) (_parameters_ n)
       (_param_slices_ n) x (priors n) (_fixes_ n)
       (_observer_callables_ n) (values n) (_tied_to_me_ n) (_name n).
Definition with_priors (x : nat) (n : node) : node :=
  Node (cls n) (size n) (_direct_parent_ n) (_parent_index_ n) (_parameters_ n)
       (_param_slices_ n) (constraints n) x (_fixes_ n)
       (_observer_callables_ n) (values n) (_tied_to_me_ n) (_name n).
Definition with_fixes (x : option (list bool)) (n : node) : node :=
  Node (cls n) (size n) (_direct_parent_ n) (_parent_index_ n) (_parameters_ n)
       (_param_slices_ n) (constraints n) (priors n) x
       (_observer_callables_ n) (values n) (_tied_to_me_ n) (_name n).
Definition with_observer_callables (x : list entry) (n : node) : node :=
  Node (cls n) (size n) (_direct_parent_ n) (_parent_index_ n) (_parameters_ n)
       (_param_slices_ n) (constraints n) (priors n) (_fixes_ n)
       x (values n) (_tied_to_me_ n) (_name n).
Definition with_values (x : list V) (n : node) : node :=
  Node (cls n) (size n) (_direct_parent_ n) (_parent_index_ n) (_parameters_ n)
       (_param_slices_ n) (constraints n) (priors n) (_fixes_ n)
       (_observer_callables_ n) x (_tied_to_me_ n) (_name n).
Definition with_tied_to_me (x : list (nat * list Z)) (n : node) : node :=
  Node (cls n) (size n) (_direct_parent_ n) (_parent_index_ n) (_parameters_ n)
       (_param_slices_ n) (constraints n) (priors n) (_fixes_ n)
       (_observer_callables_ n) (values n) x (_name n).

(** What the hooks outside the model get to see: [parameters_changed()]
    running on a node, an external callable being called, and the
    "reconstraining parameters" warning being printed. *)
Inductive event : Type :=
| Changed (n : nat)
| Called (k : nat) (which : nat)
| Warning (n : nat).

Record state : Type := State {
  nodes : gmap nat node;
  iops : iheap;
  next : nat;
  log : list event
}.

(** A method: runs on a state, ends in a value or an exception, and leaves
    a state behind either way. *)
Definition M (A : Type) : Type := state -> outcome A * state.

Definition ret {A : Type} (a : A) : M A := fun st => (Ok a, st).

Definition raise {A : Type} (e : exn) : M A := fun st => (Raise e, st).

Definition bind {A B : Type} (m : M A) (k : A -> M B) : M B :=
  fun st =>
    match m st with
    | (Ok a, st') => k a st'
    | (Raise e, st') => (Raise e, st')
    end.

(** A computation that only reads the state. *)
Definition read {A : Type} (r : state -> outcome A) : M A := fun st => (r st, st).

Definition lift {A : Type} (o : outcome A) : M A := fun st => (o, st).

(** The method never ends in [HierarchyError]. *)
Definition quiet {A : Type} (m : M A) : Prop := forall st, calm (fst (m st)).

Notation "'let!' x ':=' m 'in' k" := (bind m (fun x => k))
  (at level 10, x name, m at level 100, k at level 200).

Fixpoint for_each {A : Type} (l : list A) (body : A -> M unit) : M unit :=
  match l with
  | [] => ret tt
  | x :: l' => let! _ := body x in for_each l' body
  end.

Definition node_of (o : nat) (st : state) : outcome node :=
  match nodes st !! o with
  | Some n => Ok n
  | None => Raise NoSuchObject
  end.

Definition get_node (o : nat) : M node := read (node_of o).

Definition modify_node (o : nat) (g : node -> node) : M unit :=
  fun st =>
    match nodes st !! o with
    | Some n => (Ok tt, State (<[o := g n]> (nodes st)) (iops st) (next st) (log st))
    | None => (Raise NoSuchObject, st)
    end.

(** A read of the index-operations objects. *)
Definition read_ops {A : Type} (r : iheap -> outcome A) : M A :=
  fun st => (r (iops st), st).

(** A write to the index-operations objects. *)
Definition write_ops (w : iheap -> outcome iheap) : M unit :=
  fun st =>
    match w (iops st) with
    | Ok h => (Ok tt, State (nodes st) h (next st) (log st))
    | Raise e => (Raise e, st)
    end.

(** A new index-operations object. *)
Definition alloc (o : index_ops) : M nat :=
  fun st => (Ok (next st),
             State (nodes st) (<[next st := o]> (iops st)) (S (next st)) (log st)).

Definition emit (e : event) : M unit :=
  fun st => (Ok tt, State (nodes st) (iops st) (next st) (log st ++ [e])).

Definition ops_remove (k : nat) (o : nat) (p : property) (ind : list Z) : M (list Z) :=
  fun st =>
    match remove k o p ind (iops st) with
    | Ok r => (Ok (snd r), State (nodes st) (fst r) (next st) (log st))
    | Raise e => (Raise e, st)
    end.

(** ** class Parentable *)

Definition has_parent (n : node) : bool :=
  match _direct_parent_ n with
  | Some _ => true
  | None => false
  end.

Fixpoint _highest_parent_ (k : nat) (self : nat) (st : state) : outcome nat :=
  match k with
  | O => Raise OutOfFuel
  | S k' =>
      let* n := node_of self st in
      match _direct_parent_ n with
      | None => Ok self
      | Some p => _highest_parent_ k' p st
      end
  end.

(** ** class Observable, on the store *)

Definition add_observer (self observer : nat) (callble : callable) (p : priority)
  : M unit :=
  modify_node self
    (fun n => with_observer_callables
                (Observable.add_observer (_observer_callables_ n) observer callble p) n).

Definition remove_observer (self observer : nat) (callble : option callable) : M unit :=
  modify_node self
    (fun n => with_observer_callables
                (Observable.remove_observer (_observer_callables_ n) observer callble) n).

(** [_notify_observers] running the callables: the pass-through of a
    container notifies that container's observers in turn, and
    [_parameters_changed_notification] runs the [parameters_changed] hook. *)
Fixpoint _notify_observers (k : nat) (self : nat) (which : option nat)
         (min_priority : option priority) : M unit :=
  match k with
  | O => raise OutOfFuel
  | S k' =>
      let! n := get_node self in
      for_each
        (Observable._notify_observers self (_observer_callables_ n) which min_priority)
        (fun cw =>
           match fst cw with
           | PassThrough o => _notify_observers k' o (Some (snd cw)) None
           | ParametersChanged o => emit (Changed o)
           | External e => emit (Called e (snd cw))
           end)
  end.

(** ** Raw values *)

(** [np.hstack] of a list of vectors. *)
Definition hstack (parts : list (list V)) : outcome (list V) :=
  match parts with
  | [] => Raise ValueError
  | _ => Ok (concat parts)
  end.

(** [_get_params].  For a [Param] -- modelled from the spec: "raw_values
    (leaf only): a numeric buffer" -- it hands out the buffer. *)
Fixpoint _get_params (k : nat) (self : nat) (st : state) : outcome (list V) :=
  match k with
  | O => Raise OutOfFuel
  | S k' =>
      let* n := node_of self st in
      match cls n with
      | Param => Ok (values n)
      | Parameterized =>
          if size n =? 0 then Ok []
          else
            let* parts :=
              omap (fun x =>
                      let* c := node_of x st in
                      if 0 <? size c
                      then let* v := _get_params k' x st in Ok [v]
                      else Ok [])
                   (_parameters_ n) in
            hstack (concat parts)
      end
  end.

(** [_set_params].  For a [Param] -- modelled from the spec: the buffer of
    length [size] takes the new values -- a vector of another length is
    refused. *)
Fixpoint _set_params (k : nat) (self : nat) (params : list V) (trigger_parent : bool)
  : M unit :=
  match k with
  | O => raise OutOfFuel
  | S k' =>
      let! n := get_node self in
      let! _ :=
        match cls n with
        | Param =>
            if Nat.eqb (length params) (length (values n))
            then modify_node self (with_values params)
            else raise ValueError
        | Parameterized =>
            for_each (combine (_parameters_ n) (_param_slices_ n))
                     (fun ps => _set_params k' (fst ps)
                                  (slice params (fst (snd ps)) (snd (snd ps))) false)
        end in
      _notify_observers k self None (if trigger_parent then None else Some NegInf)
  end.

(** ** Offsets and raveled indices (class Parameterized) *)

(** [self._parameters_[param._parent_index_]] *)
Definition _get_original (self param : nat) (st : state) : outcome nat :=
  let* s := node_of self st in
  let* p := node_of param st in
  match _parent_index_ p with
  | None => Raise TypeError
  | Some i =>
      match _parameters_ s !! i with
      | Some c => Ok c
      | None => Raise IndexError
      end
  end.

Fixpoint _offset_for (k : nat) (self param : nat) (st : state) : outcome Z :=
  match k with
  | O => Raise OutOfFuel
  | S k' =>
      let* s := node_of self st in
      match cls s with
      | Param => Raise NotImplementedError
      | Parameterized =>
          let* p := node_of param st in
          match _direct_parent_ p with
          | None => Ok 0
          | Some dp =>
              let* orig := _get_original dp param st in
              if mem_nat orig (_parameters_ s) then
                let* on := node_of orig st in
                match _parent_index_ on with
                | None => Raise TypeError
                | Some i =>
                    match _param_slices_ s !! i with
                    | Some sl => Ok (fst sl)
                    | None => Raise IndexError
                    end
                end
              else
                let* a := _offset_for k' self dp st in
                let* b := _offset_for k' dp param st in
                Ok (a + b)
          end
      end
  end.

(** [numpy.r_[:self.size]]; for a [Param] modelled from the spec: the local
    coordinate space [[0, size)]. *)
Definition _raveled_index (self : nat) (st : state) : outcome (list Z) :=
  let* n := node_of self st in Ok (arange (size n)).

Definition _raveled_index_for (k : nat) (self param : nat) (st : state)
  : outcome (list Z) :=
  let* r := _raveled_index param st in
  let* off := _offset_for k self param st in
  Ok (map (fun i => i + off) r).

(** [flattened_parameters]; a [Param] -- modelled from the spec: the leaf is
    the unit of storage -- is its own single flattened parameter. *)
Fixpoint flattened_parameters (k : nat) (self : nat) (st : state) : outcome (list nat) :=
  match k with
  | O => Raise OutOfFuel
  | S k' =>
      let* n := node_of self st in
      match cls n with
      | Param => Ok [self]
      | Parameterized =>
          let* parts := omap (fun x => flattened_parameters k' x st) (_parameters_ n) in
          Ok (concat parts)
      end
  end.

(** ** class Constrainable: the fix mask *)

(** The mask values, as the modelled files use them: a mask starts as
    [np.ones], [p[self._fixes_]] keeps the free entries, and an all-true mask
    is dropped. *)
Definition FIXED : bool := false.
Definition UNFIXED : bool := true.

Definition _has_fixes (n : node) : bool :=
  match _fixes_ n with
  | Some _ => true
  | None => false
  end.

(** The common body of [_set_fixed] and [_set_unfixed]. *)
Definition set_mask (self : nat) (index : list Z) (b : bool) : M unit :=
  let! n := get_node self in
  let! _ := if _has_fixes n then ret tt
            else let! m := lift (ones (size n)) in
                 modify_node self (with_fixes (Some m)) in
  let! n1 := get_node self in
  match _fixes_ n1 with
  | None => raise TypeError
  | Some m =>
      let! m' := lift (fill_at m index b) in
      let! _ := modify_node self (with_fixes (Some m')) in
      if all_true m' then modify_node self (with_fixes None) else ret tt
  end.

Definition _set_fixed (self : nat) (index : list Z) : M unit := set_mask self index FIXED.

Definition _set_unfixed (self : nat) (index : list Z) : M unit :=
  set_mask self index UNFIXED.

Definition _connect_fixes (k : nat) (self : nat) : M unit :=
  let! n := get_node self in
  let! fixed_indices := read_ops (getitem k (constraints n) __fixed__) in
  if 0 <? len fixed_indices then
    let! n1 := get_node self in
    let! m := lift (ones (size n1)) in
    let! _ := modify_node self (with_fixes (Some m)) in
    let! m' := lift (fill_at m fixed_indices FIXED) in
    modify_node self (with_fixes (Some m'))
  else modify_node self (with_fixes None).

(** ** Tree mutation (classes Constrainable, Parameterized) *)

(** The [for] loop of [_connect_parameters]; [last] is [sizes[-1]]. *)
Fixpoint connect_loop (self : nat) (i : nat) (ps : list nat) (last : Z) : M unit :=
  match ps with
  | [] => ret tt
  | p :: ps' =>
      let! _ := modify_node p (fun n => with_parent_index (Some i)
                                          (with_direct_parent (Some self) n)) in
      let! pn := get_node p in
      let! _ := modify_node self
                  (fun n => with_param_slices
                              (_param_slices_ n ++ [(last, size pn + last)]) n) in
      connect_loop self (S i) ps' (size pn + last)
  end.

Definition _connect_parameters (self : nat) : M unit :=
  let! n := get_node self in
  if (length (_parameters_ n) <? 1)%nat then ret tt
  else
    let! _ := modify_node self (with_param_slices []) in
    connect_loop self O (_parameters_ n) 0.

(** ** Assigning an attribute (class Parameterized) *)

(** [parameter_names(add_self, adjust_for_printing, recursive=False)]: the
    names of the direct children. *)
Definition parameter_names (self : nat) (add_self adjust_for_printing : bool)
           (st : state) : outcome (list String.string) :=
  let adjust := fun x => if adjust_for_printing then adjust_name_for_printing (Some x)
                         else x in
  let* n := node_of self st in
  let* names := omap (fun x => let* c := node_of x st in Ok (adjust (_name c)))
                     (_parameters_ n) in
  Ok (if add_self
      then map (fun x => String.append (adjust (_name n)) (String.append "."%string x))
               names
      else names).

(** [child[:] = val], for a number or an object [val].  A container takes
    it in [__setitem__], which looks the slice up through [__getitem__] and
    [grep_param_names] as a regular expression: [re.compile] refuses it with
    a [TypeError], which the [except AttributeError] lets through.  A leaf
    takes it in [Param.__setitem__], in [param.py]: the run leaves the
    modelled files. *)
Definition setitem_all (child : nat) : M unit :=
  let! c := get_node child in
  match cls c with
  | Parameterized => raise TypeError
  | Param => raise Unmodelled
  end.

(** [self.<name> = val], with [plain] for what [object.__setattr__] does to
    the fields.  Class [Parameterized] overrides [__setattr__]: when a direct
    child prints its name as [name], the value goes into that child and the
    attribute stays as it is.  (Every constructed node has [_parameters_].)
    The methods below assign [size], [constraints] and [priors] through it.
    Their other assignments write names with a leading underscore
    ([_fixes_], [_param_slices_], [_direct_parent_], [_parent_index_]);
    these are written as direct updates of the fields, which is what the
    source does unless a child is named like one of them. *)
Definition __setattr__ (self : nat) (name : String.string) (plain : node -> node)
  : M unit :=
  let! n := get_node self in
  match cls n with
  | Param => modify_node self plain
  | Parameterized =>
      let! pnames := read (parameter_names self false true) in
      match index_of name pnames with
      | Some i =>
          match _parameters_ n !! i with
          | Some c => setitem_all c
          | None => raise IndexError
          end
      | None => modify_node self plain
      end
  end.

(** [_remove_parameter_name]: forgetting the injected name changes no
    modelled field; what remains is its call to [_connect_parameters]. *)
Definition _remove_parameter_name (self param : nat) : M unit :=
  _connect_parameters self.

Fixpoint _parent_changed (k : nat) (self parent : nat) : M unit :=
  match k with
  | O => raise OutOfFuel
  | S k' =>
      let! pn := get_node parent in
      let! off := read (_offset_for k parent self) in
      let! sn := get_node self in
      let! c := alloc (ParameterIndexOperationsView (constraints pn) off (size sn)) in
      let! _ := __setattr__ self "constraints"%string (with_constraints c) in
      let! pn' := get_node parent in
      let! off' := read (_offset_for k parent self) in
      let! sn' := get_node self in
      let! q := alloc (ParameterIndexOperationsView (priors pn') off' (size sn')) in
      let! _ := __setattr__ self "priors"%string (with_priors q) in
      let! _ := modify_node self (with_fixes None) in
      let! sn'' := get_node self in
      for_each (_parameters_ sn'') (fun p => _parent_changed k' p parent)
  end.

Definition _notify_parent_change (k : nat) (self : nat) : M unit :=
  let! n := get_node self in
  for_each (_parameters_ n) (fun p => _parent_changed k p self).

(** [_disconnect_parent] with [constr] left at its default. *)
Definition _disconnect_parent (k : nat) (self : nat) : M unit :=
  let! n := get_node self in
  let! content := read_ops (iteritems k (constraints n)) in
  let! constr := alloc (ParameterIndexOperations content) in
  let! n1 := get_node self in
  let! _ := write_ops (clear k (constraints n1)) in
  let! _ := __setattr__ self "constraints"%string (with_constraints constr) in
  let! _ := modify_node self (with_direct_parent None) in
  let! _ := modify_node self (with_parent_index None) in
  let! _ := _connect_fixes k self in
  _notify_parent_change k self.

(** The [while parent is not None] loop that ends [remove_parameter]. *)
Fixpoint reconnect_ancestors (k : nat) (parent : option nat) : M unit :=
  match parent with
  | None => ret tt
  | Some a =>
      match k with
      | O => raise OutOfFuel
      | S k' =>
          let! _ := _connect_fixes k a in
          let! _ := _connect_parameters a in
          let! _ := _notify_parent_change k a in
          let! an := get_node a in
          reconnect_ancestors k' (_direct_parent_ an)
      end
  end.

Definition sizes_of (ps : list nat) : M (list Z) :=
  read (fun st => omap (fun x => let* c := node_of x st in Ok (size c)) ps).

Definition remove_parameter (k : nat) (self param : nat) : M unit :=
  let! n := get_node self in
  if negb (mem_nat param (_parameters_ n)) then raise RuntimeError
  else
    let! pn := get_node param in
    let! szs := sizes_of (prefix (_parameters_ n) (option_map Z.of_nat (_parent_index_ pn))) in
    let start := zsum szs in
    let! _ := _remove_parameter_name self param in
    let! n1 := get_node self in
    let! pn1 := get_node param in
    let! _ := __setattr__ self "size"%string (with_size (size n1 - size pn1)) in
    let! n2 := get_node self in
    let! pn2 := get_node param in
    let! _ := match _parent_index_ pn2 with
              | None => raise TypeError
              | Some i =>
                  let! ps := lift (list_del (_parameters_ n2) i) in
                  modify_node self (with_parameters ps)
              end in
    let! _ := _disconnect_parent k param in
    let! _ := remove_observer param self (Some (PassThrough self)) in
    let! n3 := get_node self in
    let! pn3 := get_node param in
    let! _ := write_ops (shift_left k (constraints n3) start (size pn3)) in
    let! _ := _connect_fixes k self in
    let! _ := _connect_parameters self in
    let! _ := _notify_parent_change k self in
    let! n4 := get_node self in
    reconnect_ancestors k (_direct_parent_ n4).

(** The [while parent is not None] loop of [add_parameter]: whether [self]
    turns up on the chain of parents that starts at [parent]. *)
Fixpoint on_parent_chain (k : nat) (self : nat) (parent : option nat) (st : state)
  : outcome bool :=
  match parent with
  | None => Ok false
  | Some a =>
      if Nat.eqb a self then Ok true
      else
        match k with
        | O => Raise OutOfFuel
        | S k' => let* an := node_of a st in on_parent_chain k' self (_direct_parent_ an) st
        end
  end.

Fixpoint add_parameter (k : nat) (self param : nat) (index : option Z) : M unit :=
  match k with
  | O => raise OutOfFuel
  | S k' =>
      let! n := get_node self in
      if mem_nat param (_parameters_ n)
         && match index with Some _ => true | None => false end
      then
        let! _ := remove_parameter k' self param in
        add_parameter k' self param index
      else if negb (mem_nat param (_parameters_ n)) then
        let! pn := get_node param in
        let! _ :=
          match _direct_parent_ pn with
          | None => ret tt
          | Some dp =>
              let! twice := read (on_parent_chain k' self (Some dp)) in
              if twice : bool then raise HierarchyError
              else
                let! pn' := get_node param in
                match _direct_parent_ pn' with
                | None => raise AttributeError
                | Some dp' => remove_parameter k' dp' param
                end
          end in
        let! _ :=
          match index with
          | None =>
              let! s0 := get_node self in
              let! p0 := get_node param in
              let! _ := write_ops (update k' (constraints s0) (constraints p0) (size s0)) in
              let! s1 := get_node self in
              let! p1 := get_node param in
              let! _ := write_ops (update k' (priors s1) (priors p1) (size s1)) in
              let! s2 := get_node self in
              modify_node self (with_parameters (_parameters_ s2 ++ [param]))
          | Some i =>
              let! s0 := get_node self in
              let! szs := sizes_of (prefix (_parameters_ s0) (Some i)) in
              let start := zsum szs in
              let! p0 := get_node param in
              let! _ := write_ops (shift_right k' (constraints s0) start (size p0)) in
              let! s1 := get_node self in
              let! p1 := get_node param in
              let! _ := write_ops (shift_right k' (priors s1) start (size p1)) in
              let! s2 := get_node self in
              let! p2 := get_node param in
              let! _ := write_ops (update k' (constraints s2) (constraints p2) start) in
              let! s3 := get_node self in
              let! p3 := get_node param in
              let! _ := write_ops (update k' (priors s3) (priors p3) start) in
              let! s4 := get_node self in
              modify_node self (with_parameters (list_insert (_parameters_ s4) i param))
          end in
        let! _ := add_observer param self (PassThrough self) NegInf in
        let! s5 := get_node self in
        let! p5 := get_node param in
        let! _ := __setattr__ self "size"%string (with_size (size s5 + size p5)) in
        let! _ := _connect_parameters self in
        let! _ := _notify_parent_change k' self in
        _connect_fixes k' self
      else raise RuntimeError
  end.

(** ** Constructors *)

Definition new_node (make : nat -> nat -> node) : M nat :=
  fun st =>
    let o := next st in
    (Ok o,
     State (<[o := make (S o) (S (S o))]> (nodes st))
           (<[S (S o) := ParameterIndexOperations []]>
              (<[S o := ParameterIndexOperations []]> (iops st)))
           (S (S (S o))) (log st)).

(** [Parameterized(name)]: named [name or self.__class__.__name__], no
    children, size 0, its own [_parameters_changed_notification] registered
    at priority -100. *)
Definition new_Parameterized_named (name : option String.string) : M nat :=
  let name' := match name with
               | Some x => if String.eqb x "" then "Parameterized"%string else x
               | None => "Parameterized"%string
               end in
  let! o := new_node (fun c q => Node Parameterized 0 None None [] [] c q None [] [] []
                                      name') in
  let! _ := add_observer o o (ParametersChanged o) (Fin (-100)) in
  let! _ := _connect_parameters o in
  ret o.

(** [Parameterized()] *)
Definition new_Parameterized : M nat := new_Parameterized_named None.

(** Modelled from the spec: a leaf created standalone with its name and its
    raw buffer, [size] being the count of entries in it. *)
Definition new_Param (name : String.string) (v : list V) : M nat :=
  new_node (fun c q => Node Param (len v) None None [] [] c q None [] v [] name).

Definition empty_state : state := State ∅ ∅ O [].

(** ** Constraining, fixing, priors (class Constrainable) *)

(** The [for t in transforms] loop of [_remove_from_index_operations]. *)
Fixpoint remove_loop (k : nat) (self which : nat) (transforms : list property)
         (removed : list Z) : M (list Z) :=
  match transforms with
  | [] => ret removed
  | t :: transforms' =>
      let! ri := read (_raveled_index self) in
      let! unconstrained := ops_remove k which t ri in
      let! _ := match t with
                | __fixed__ =>
                    let! hp := read (_highest_parent_ k self) in
                    _set_unfixed hp unconstrained
                | _ => ret tt
                end in
      remove_loop k self which transforms' (union1d removed unconstrained)
  end.

Definition _remove_from_index_operations (k : nat) (self which : nat)
           (transforms : list property) : M (list Z) :=
  let! ts := match transforms with
             | [] => read_ops (properties k which)
             | _ => ret transforms
             end in
  remove_loop k self which ts [].

Definition _add_to_index_operations (k : nat) (self which : nat) (reconstrained : list Z)
           (transform : property) (warning : bool) : M unit :=
  let! _ := if warning && (0 <? len reconstrained) then emit (Warning self) else ret tt in
  let! ri := read (_raveled_index self) in
  write_ops (add k which transform ri).

Definition unconstrain (k : nat) (self : nat) (transforms : list property) : M (list Z) :=
  let! n := get_node self in
  _remove_from_index_operations k self (constraints n) transforms.

Definition constrain (k : nat) (self : nat) (transform : property)
           (warning trigger_parent : bool) : M unit :=
  let! _ := match transform with
            | Constraint c =>
                let! x := read (_get_params k self) in
                _set_params k self (Transformation.initialize c x) trigger_parent
            | _ => ret tt
            end in
  let! reconstrained := unconstrain k self [] in
  let! n := get_node self in
  _add_to_index_operations k self (constraints n) reconstrained transform warning.

(** [constrain_fixed] with [value] left at [None]. *)
Definition constrain_fixed (k : nat) (self : nat) (warning trigger_parent : bool)
  : M unit :=
  let! _ := constrain k self __fixed__ warning trigger_parent in
  let! hp := read (_highest_parent_ k self) in
  let! rav_i := read (_raveled_index_for k hp self) in
  let! hp' := read (_highest_parent_ k self) in
  _set_fixed hp' rav_i.

Definition unconstrain_fixed (k : nat) (self : nat) : M unit :=
  let! unconstrained := unconstrain k self [__fixed__] in
  let! hp := read (_highest_parent_ k self) in
  _set_unfixed hp unconstrained.

Definition unset_priors (k : nat) (self : nat) (priors_ : list property) : M (list Z) :=
  let! n := get_node self in
  _remove_from_index_operations k self (priors n) priors_.

Definition set_prior (k : nat) (self : nat) (prior : property) (warning : bool) : M unit :=
  let! repriorized := unset_priors k self [] in
  let! n := get_node self in
  _add_to_index_operations k self (priors n) repriorized prior warning.

(** ** The optimizer's view (classes OptimizationHandlable, Parameterized) *)

(** [[np.put(p, ind, g(p[ind])) for c, ind in items if c != __fixed__]]
    with [g] one of [c.finv], [c.f].  A property that is no transform has
    neither. *)
Fixpoint put_transformed (g : Transformation.t V -> V -> V) (items : props)
         (p : list V) : outcome (list V) :=
  match items with
  | [] => Ok p
  | (c, ind) :: items' =>
      match c with
      | __fixed__ => put_transformed g items' p
      | Constraint t =>
          let* x := take_at p ind in
          let* p' := put p ind (map (g t) x) in
          put_transformed g items' p'
      | Prior _ => Raise AttributeError
      end
  end.

Definition _get_params_transformed (k : nat) (self : nat) (st : state)
  : outcome (list V) :=
  let* p := _get_params k self st in
  let* n := node_of self st in
  let* items := iteritems k (constraints n) (iops st) in
  let* p' := put_transformed Transformation.finv items p in
  match _fixes_ n with
  | Some m => mask_get p' m
  | None => Ok p'
  end.

Definition _size_transformed (k : nat) (self : nat) (st : state) : outcome Z :=
  let* n := node_of self st in
  let* fixed := getitem k (constraints n) __fixed__ (iops st) in
  Ok (size n - len fixed).

Definition _untransform_params (k : nat) (self : nat) (p : list V) (st : state)
  : outcome (list V) :=
  let* n := node_of self st in
  let* p1 := match _fixes_ n with
             | Some m => let* tmp := _get_params k self st in mask_set tmp m p
             | None => Ok p
             end in
  let* n' := node_of self st in
  let* items := iteritems k (constraints n') (iops st) in
  put_transformed Transformation.f items p1.

Definition _set_params_transformed (k : nat) (self : nat) (p : list V) : M unit :=
  let! x := read (_untransform_params k self p) in
  _set_params k self x true.

(** [[numpy.put(g, i, g[i] * c.gradfactor(x[i])) for c, i in items
    if c != __fixed__]] *)
Fixpoint scale_gradients (items : props) (x g : list V) : outcome (list V) :=
  match items with
  | [] => Ok g
  | (c, i) :: items' =>
      match c with
      | __fixed__ => scale_gradients items' x g
      | Constraint t =>
          let* gi := take_at g i in
          let* xi := take_at x i in
          let* g' := put g i (map (fun ab => vmul (fst ab) (Transformation.gradfactor t (snd ab)))
                                  (combine gi xi)) in
          scale_gradients items' x g'
      | Prior _ => Raise AttributeError
      end
  end.

(** [a + b] on vectors, with numpy's broadcast of a single-entry [b]. *)
Definition broadcast_add (a b : list V) : outcome (list V) :=
  if Nat.eqb (length a) (length b) then Ok (map (fun xy => vadd (fst xy) (snd xy)) (combine a b))
  else match b with
       | [y] => Ok (map (fun x => vadd x y) a)
       | _ => Raise ValueError
       end.

(** [g[self._offset_for(p) + numpy.array(list(i))] += g[self._raveled_index_for(t)]]
    for every [(t, i)] in [p._tied_to_me_].  Modelled from the spec:
    [_tied_to_me_] records, for a leaf, the tied leaves and the local
    indices they are tied to. *)
Fixpoint add_tied (k : nat) (self p : nat) (ties : list (nat * list Z)) (g : list V)
         (st : state) : outcome (list V) :=
  match ties with
  | [] => Ok g
  | (t, i) :: ties' =>
      let* off := _offset_for k self p st in
      let target := map (fun j => off + j) i in
      let* ga := take_at g target in
      let* src := _raveled_index_for k self t st in
      let* gb := take_at g src in
      let* sum := broadcast_add ga gb in
      let* g' := put g target sum in
      add_tied k self p ties' g' st
  end.

Fixpoint add_all_tied (k : nat) (self : nat) (ps : list nat) (g : list V) (st : state)
  : outcome (list V) :=
  match ps with
  | [] => Ok g
  | p :: ps' =>
      let* pn := node_of p st in
      let* g' := add_tied k self p (_tied_to_me_ pn) g st in
      add_all_tied k self ps' g' st
  end.

(** [_transform_gradients(g)]: the returned vector, paired with what the
    caller's array [g] holds afterwards (the root branch writes into it). *)
Definition _transform_gradients (k : nat) (self : nat) (g : list V) (st : state)
  : outcome (list V * list V) :=
  let* n := node_of self st in
  if has_parent n then Ok (g, g)
  else
    let* x := _get_params k self st in
    let* items := iteritems k (constraints n) (iops st) in
    let* g1 := scale_gradients items x g in
    let* ps := flattened_parameters k self st in
    let* g2 := add_all_tied k self ps g1 st in
    match _fixes_ n with
    | Some m => let* r := mask_get g2 m in Ok (r, g2)
    | None => Ok (g2, g2)
    end.

End Model.

Arguments property V : clear implicits.
Arguments props V : clear implicits.
Arguments index_ops V : clear implicits.
Arguments iheap V : clear implicits.
Arguments node V : clear implicits.
Arguments state V : clear implicits.
Arguments M V A : clear implicits.

Notation "'let!' x ':=' m 'in' k" := (bind m (fun x => k))
  (at level 10, x name, m at level 100, k at level 200).

(** ** Reading a state *)

Section Views.
Context {V : Type}.

(** A property without the transform's functions. *)
Inductive label : Type :=
| LFixed
| LConstraint (id : nat)
| LPrior (q : nat).

Definition label_of (p : property V) : label :=
  match p with
  | __fixed__ => LFixed
  | Constraint c => LConstraint (Transformation.id c)
  | Prior q => LPrior q
  end.

Definition labelled (s : props V) : list (label * list Z) :=
  map (fun e => (label_of (fst e), snd e)) s.

(** The field [g] of node [o]. *)
Definition field {A : Type} (g : node V -> A) (o : nat) (st : state V) : option A :=
  g <$> nodes st !! o.

(** What the index-operations object [o] shows, labelled. *)
Definition shown (o : nat) (st : state V) : outcome (list (label * list Z)) :=
  let* s := iteritems 8 o (iops st) in Ok (labelled s).

(** Whether the object [o] is a view, and over which base. *)
Definition view_base (o : nat) (st : state V) : option nat :=
  match iops st !! o with
  | Some (ParameterIndexOperationsView b _ _) => Some b
  | _ => None
  end.

(** The size invariant at a container: [size == sum(child.size ...)]. *)
Definition size_invariant_at (o : nat) (st : state V) : Prop :=
  exists n szs,
    nodes st !! o = Some n /\
    omap (fun x => let* c := node_of x st in Ok (size c)) (_parameters_ n) = Ok szs /\
    size n = zsum szs.

(** The size invariant of a state: it holds at every container. *)
Definition size_invariant (st : state V) : Prop :=
  forall o n, nodes st !! o = Some n -> cls n = Parameterized -> size_invariant_at o st.

End Views.

(** ** Consistency of a node's optimizer view *)

Section Consistency.
Context {V : Type}.

(** Whether index [i] is recorded under a transform of [items]. *)
Fixpoint covered (items : props V) (i : Z) : bool :=
  match items with
  | [] => false
  | (Constraint _, ind) :: items' => mem_z i ind || covered items' i
  | _ :: items' => covered items' i
  end.

(** No prior object among the properties. *)
Fixpoint no_priors (items : props V) : bool :=
  match items with
  | [] => true
  | (Prior _, _) :: _ => false
  | _ :: items' => no_priors items'
  end.

(** The indices recorded under transforms address a vector of length [n]. *)
Fixpoint in_range (n : Z) (items : props V) : bool :=
  match items with
  | [] => true
  | (Constraint _, ind) :: items' =>
      forallb (fun i => (0 <=? i) && (i <? n)) ind && in_range n items'
  | _ :: items' => in_range n items'
  end.

(** "A single offset may belong to at most one transform property at a
    time". *)
Fixpoint disjoint_transforms (items : props V) : bool :=
  match items with
  | [] => true
  | (Constraint _, ind) :: items' =>
      forallb (fun i => negb (covered items' i)) ind && disjoint_transforms items'
  | _ :: items' => disjoint_transforms items'
  end.

(** The mask, when there is one, has one entry per raw value. *)
Definition mask_fits (mask : option (list bool)) (n : nat) : bool :=
  match mask with
  | None => true
  | Some m => Nat.eqb (length m) n
  end.

(** Whether position [i] is fixed by the mask. *)
Definition fixed_at (mask : option (list bool)) (i : nat) : bool :=
  match mask with
  | None => false
  | Some m => match m !! i with Some b => negb b | None => false end
  end.

(** No entry that the mask fixes is recorded under a transform. *)
Definition fixed_untransformed (mask : option (list bool)) (items : props V) (n : nat)
  : bool :=
  forallb (fun i => negb (fixed_at mask i && covered items (Z.of_nat i))) (seq 0 n).

(** The state of a node's optimizer view is consistent: the store of
    constraints holds transforms and the fixed sentinel only, every index
    under a transform addresses a raw value and lies under that transform
    alone, and the fix mask has the length of the raw vector and fixes no
    transformed entry. *)
Definition consistent (raw : list V) (items : props V) (mask : option (list bool)) : bool :=
  no_priors items && in_range (len raw) items && disjoint_transforms items
  && mask_fits mask (length raw) && fixed_untransformed mask items (length raw).

(** What the transform comprehension makes of the entry [x] at position
    [i]. *)
Fixpoint transform_at (g : Transformation.t V -> V -> V) (items : props V) (i : Z) (x : V)
  : V :=
  match items with
  | [] => x
  | (Constraint t, ind) :: items' =>
      transform_at g items' i (if mem_z i ind then g t x else x)
  | _ :: items' => transform_at g items' i x
  end.

(** The raw vector with every transformed entry replaced by its inverse
    image: the free vector before fixed entries are dropped. *)
Definition inverse_image (items : props V) (raw : list V) : list V :=
  imap (fun j x => transform_at Transformation.finv items (Z.of_nat j) x) raw.

(** Every transform of [items] undoes its inverse. *)
Definition invertible (items : props V) : Prop :=
  forall c ind, In (Constraint c, ind) items ->
                forall x, Transformation.f c (Transformation.finv c x) = x.

(** The mask mirrors the fixed sentinel: it is absent when no index is
    recorded as fixed, and otherwise false exactly at the recorded
    indices. *)
Definition mask_mirrors (mask : option (list bool)) (fixed : list Z) (n : nat) : bool :=
  match mask with
  | None => match fixed with [] => true | _ => false end
  | Some m =>
      Nat.eqb (length m) n
      && forallb (fun i => Bool.eqb (fixed_at mask i) (mem_z (Z.of_nat i) fixed)) (seq 0 n)
  end.

End Consistency.

(** ** Well-formed trees *)

Section Trees.
Context {V : Type}.

(** The slices [_connect_parameters] computes from the children's sizes. *)
Fixpoint slices_from (start : Z) (szs : list Z) : list (Z * Z) :=
  match szs with
  | [] => []
  | s :: szs' => (start, s + start) :: slices_from (s + start) szs'
  end.

(** The sizes of the nodes [ps]. *)
Definition child_sizes (ps : list nat) (st : state V) : outcome (list Z) :=
  omap (fun x => let* c := node_of x st in Ok (size c)) ps.

(** The subtree at [o], of depth at most [d], is consistent: a leaf's size
    is the length of its buffer; a container's size is the sum of its
    children's sizes, its slices are the ones [_connect_parameters] computes
    from them, and its children are consistent. *)
Fixpoint wf_tree (d : nat) (o : nat) (st : state V) : Prop :=
  match d with
  | O => False
  | S d' =>
      exists n, nodes st !! o = Some n /\
        match cls n with
        | Param => size n = len (values n)
        | Parameterized =>
            (forall c, In c (_parameters_ n) -> wf_tree d' c st) /\
            exists szs, child_sizes (_parameters_ n) st = Ok szs /\
                        size n = zsum szs /\
                        _param_slices_ n = slices_from 0 szs
        end
  end.

(** The leaves of the subtree at [o], in the order of the raw vector. *)
Fixpoint leaves (d : nat) (o : nat) (st : state V) : list nat :=
  match d with
  | O => []
  | S d' =>
      match nodes st !! o with
      | None => []
      | Some n =>
          match cls n with
          | Param => [o]
          | Parameterized => concat (map (fun c => leaves d' c st) (_parameters_ n))
          end
      end
  end.

(** Two nodes differ at most in their buffers, which have the same length. *)
Definition same_node (n n' : node V) : Prop :=
  n' = with_values (values n') n /\ length (values n') = length (values n).

(** Two states hold the same tree: they differ at most in the buffers of
    their nodes, in the index-operations objects and in the log. *)
Definition same_shape (st st' : state V) : Prop :=
  forall x, match nodes st !! x, nodes st' !! x with
            | Some n, Some n' => same_node n n'
            | None, None => True
            | _, _ => False
            end.

(** The step from [st] to [st'] changed at most the buffers of the nodes
    [L]. *)
Definition touches_only (L : list nat) (st st' : state V) : Prop :=
  same_shape st st' /\ forall x, ~ In x L -> nodes st' !! x = nodes st !! x.

(** The nodes of the subtree at [o], down to depth [d]. *)
Fixpoint members (d : nat) (o : nat) (st : state V) : list nat :=
  match d with
  | O => []
  | S d' =>
      o :: match nodes st !! o with
           | None => []
           | Some n => concat (map (fun c => members d' c st) (_parameters_ n))
           end
  end.

(** What the raw vector is laid out by: the class, size, buffer, children
    and slices of a node. *)
Definition layout (n : node V) : node_class * Z * list V * list nat * list (Z * Z) :=
  (cls n, size n, values n, _parameters_ n, _param_slices_ n).

(** None of the nodes [ps] prints its name as [name]: what
    [name in pnames] tests in [__setattr__], for the children [ps]. *)
Definition unnamed (name : String.string) (ps : list nat) (st : state V) : bool :=
  forallb (fun c =>
             match nodes st !! c with
             | Some cn =>
                 negb (String.eqb (adjust_name_for_printing (Some (_name cn))) name)
             | None => true
             end) ps.

(** The computation [m] leaves what [g] reads off a node as it is, at every
    node, however it ends. *)
Definition keeps {A B : Type} (g : node V -> A) (m : M V B) : Prop :=
  forall st x, g <$> nodes (snd (m st)) !! x = g <$> nodes st !! x.

(** The computation [m] leaves what [g] reads off the node [x] as it is,
    however it ends. *)
Definition keeps_at {A B : Type} (x : nat) (g : node V -> A) (m : M V B) : Prop :=
  forall st, g <$> nodes (snd (m st)) !! x = g <$> nodes st !! x.

(** Started in a state that satisfies [P], a call of [m] that returns [b]
    ends in a state that satisfies [Q b]. *)
Definition triple {B : Type} (P : state V -> Prop) (m : M V B)
           (Q : B -> state V -> Prop) : Prop :=
  forall st, P st -> forall b, fst (m st) = Ok b -> Q b (snd (m st)).

(** The loop of [_set_params] over the children. *)
Definition set_children (k : nat) (y : list V) (work : list (nat * (Z * Z))) : M V unit :=
  for_each work
    (fun ps => _set_params k (fst ps) (slice y (fst (snd ps)) (snd (snd ps))) false).

(** What [_set_params] achieves on subtrees of depth [d]: the raw vector
    afterwards is the assigned one. *)
Definition sets_raw (d k : nat) : Prop :=
  forall o (st : state V) (y : list V) tp n,
    wf_tree d o st -> NoDup (leaves d o st) ->
    nodes st !! o = Some n -> len y = size n ->
    fst (_set_params k o y tp st) = Ok tt ->
    _get_params k o (snd (_set_params k o y tp st)) = Ok y.

(** Whether a callable is the pass-through to a parent. *)
Definition is_pass_through (c : callable) : bool :=
  match c with
  | PassThrough _ => true
  | _ => false
  end.

(** A registry without a pass-through: the one of a node that was never
    made a child. *)
Definition no_pass_through (l : list entry) : bool :=
  forallb (fun e => negb (is_pass_through (callble_of e))) l.

(** A registry whose pass-throughs have the priority [-inf], with which
    [_connect_parameters] registers them. *)
Definition plain_registry (l : list entry) : bool :=
  forallb (fun e => negb (prio_ltb NegInf (prio e) && is_pass_through (callble_of e))) l.

(** The nodes below [o], down to depth [d], have such registries. *)
Fixpoint plain_below (d : nat) (o : nat) (st : state V) : bool :=
  match d with
  | O => true
  | S d' =>
      match nodes st !! o with
      | None => true
      | Some n =>
          forallb
            (fun c =>
               match nodes st !! c with
               | Some cn => plain_registry (_observer_callables_ cn)
               | None => true
               end && plain_below d' c st)
            (_parameters_ n)
      end
  end.

(** Two states hold the same objects; their logs may differ. *)
Definition same_store (st st' : state V) : Prop :=
  nodes st' = nodes st /\ iops st' = iops st /\ next st' = next st.

End Trees.

Arguments unnamed {V} name%_string ps st.

(** ** Scenarios over integer values *)

Module Scenario.

#[export] Instance numeric_Z : Numeric Z := {| vadd := Z.add; vmul := Z.mul |}.

(** A transform with [f (finv x) = x]: [f] adds one, [finv] takes it off. *)
Definition shift : Transformation.t Z :=
  Transformation.make 1%nat (fun x => x + 1) (fun x => x - 1) (fun _ => 2) (fun l => l).

(** The step budget of the scenarios. *)
Definition fuel : nat := 24%nat.

(** [R = Parameterized(); P = Parameterized(); a = Param('a', [1, 2])];
    identities 0, 3 and 6. *)
Definition three_nodes : M Z (nat * nat * nat) :=
  let! r := new_Parameterized in
  let! p := new_Parameterized in
  let! a := new_Param "a"%string [1; 2] in
  ret (r, p, a).

(** [R.add_parameter(P)] *)
Definition nested_empty : M Z unit :=
  let! rpa := three_nodes in
  add_parameter fuel (fst (fst rpa)) (snd (fst rpa)) None.

(** [R.add_parameter(P); P.add_parameter(a)] *)
Definition nested_grown : M Z unit :=
  let! rpa := three_nodes in
  let! _ := add_parameter fuel (fst (fst rpa)) (snd (fst rpa)) None in
  add_parameter fuel (snd (fst rpa)) (snd rpa) None.

(** [P.add_parameter(a); R.add_parameter(P)] *)
Definition nested_bottom_up : M Z unit :=
  let! rpa := three_nodes in
  let! _ := add_parameter fuel (snd (fst rpa)) (snd rpa) None in
  add_parameter fuel (fst (fst rpa)) (snd (fst rpa)) None.

(** [... ; P.constrain_fixed()] on the tree built bottom-up. *)
Definition nested_fixed : M Z unit :=
  let! _ := nested_bottom_up in
  constrain_fixed fuel 3%nat true true.

(** [M = Parameterized(); a = Param('a', [10]); b = Param('b', [20]);
    M.add_parameter(a); M.add_parameter(b)]; identities 0, 3 and 6. *)
Definition two_leaves : M Z unit :=
  let! m := new_Parameterized in
  let! a := new_Param "a"%string [10] in
  let! b := new_Param "b"%string [20] in
  let! _ := add_parameter fuel m a None in
  add_parameter fuel m b None.

(** [... ; b.set_prior(q); b.constrain(shift)] *)
Definition with_prior : M Z unit :=
  let! _ := two_leaves in
  let! _ := set_prior fuel 6%nat (Prior 7%nat) true in
  constrain fuel 6%nat (Constraint shift) true true.

(** [... ; M.remove_parameter(a)] *)
Definition prior_then_remove : M Z unit :=
  let! _ := with_prior in
  remove_parameter fuel 0%nat 3%nat.

(** [... ; b.constrain_fixed()] on the two leaves. *)
Definition second_fixed : M Z unit :=
  let! _ := two_leaves in
  constrain_fixed fuel 6%nat true true.

(** [... ; b.constrain(shift)] after fixing [b]. *)
Definition second_reconstrained : M Z unit :=
  let! _ := second_fixed in
  constrain fuel 6%nat (Constraint shift) true true.

(** [... ; a.constrain_fixed(); b.constrain_fixed(); b.unconstrain_fixed()]
    on the two leaves. *)
Definition both_fixed_second_unfixed : M Z unit :=
  let! _ := two_leaves in
  let! _ := constrain_fixed fuel 3%nat true true in
  let! _ := constrain_fixed fuel 6%nat true true in
  unconstrain_fixed fuel 6%nat.

(** [... ; M.constrain_fixed(); M.constrain(shift)] on the root. *)
Definition root_fixed : M Z unit :=
  let! _ := two_leaves in
  constrain_fixed fuel 0%nat true true.

Definition root_reconstrained : M Z unit :=
  let! _ := root_fixed in
  constrain fuel 0%nat (Constraint shift) true true.

(** [... ; M.add_parameter(a)] once more, without an index. *)
Definition attach_again : M Z unit :=
  let! _ := two_leaves in
  add_parameter fuel 0%nat 3%nat None.

(** [P = Parameterized(); D = Parameterized(); P.add_parameter(D)];
    identities 0 and 3. *)
Definition two_containers : M Z unit :=
  let! p := new_Parameterized in
  let! d := new_Parameterized in
  add_parameter fuel p d None.

(** [P.add_parameter(D); D.add_parameter(P)] for two containers. *)
Definition under_own_child : M Z unit :=
  let! p := new_Parameterized in
  let! d := new_Parameterized in
  let! _ := add_parameter fuel p d None in
  add_parameter fuel d p None.

(** [... ; R.add_parameter(a)] for [a] two levels below [R]. *)
Definition grandchild_again : M Z unit :=
  let! _ := nested_bottom_up in
  add_parameter fuel 0%nat 6%nat None.

(** [M = Parameterized()] with the leaves [a = Param('a', [10])],
    [b = Param('b', [20, 30])], [c = Param('c', [40])] (identities 0, 3, 6, 9), then
    [a.constrain(shift); c.constrain_fixed()]: a transformed entry, two
    unconstrained ones and a fixed one. *)
Definition mixed : M Z unit :=
  let! m := new_Parameterized in
  let! a := new_Param "a"%string [10] in
  let! b := new_Param "b"%string [20; 30] in
  let! c := new_Param "c"%string [40] in
  let! _ := add_parameter fuel m a None in
  let! _ := add_parameter fuel m b None in
  let! _ := add_parameter fuel m c None in
  let! _ := constrain fuel a (Constraint shift) true true in
  constrain_fixed fuel c true true.

(** [M = Parameterized(); s = Param('size', [5]); M.add_parameter(s)];
    identities 0 and 3. *)
Definition leaf_named_size : M Z unit :=
  let! m := new_Parameterized in
  let! s := new_Param "size"%string [5] in
  add_parameter fuel m s None.

(** [M = Parameterized(); S = Parameterized('size'); M.add_parameter(S)]. *)
Definition container_named_size : M Z unit :=
  let! m := new_Parameterized in
  let! s := new_Parameterized_named (Some "size"%string) in
  add_parameter fuel m s None.

(** The two leaves under [M], with [b] tied to index 0 of [a]. *)
Definition tied : M Z unit :=
  let! _ := two_leaves in
  modify_node 3%nat (with_tied_to_me [(6%nat, [0])]).

End Scenario.

(** * Theorems *)

Module ObservableFacts.
Import Observable.

Lemma prio_leb_refl p : prio_leb p p = true.
Proof. destruct p; unfold prio_leb; simpl; auto. rewrite Z.ltb_irrefl. auto. Qed.

Lemma prio_leb_trans a b c :
  prio_leb a b = true -> prio_leb b c = true -> prio_leb a c = true.
Proof.
  unfold prio_leb. destruct a, b, c; simpl; auto; try discriminate.
  rewrite !negb_true_iff, !Z.ltb_ge. lia.
Qed.

Lemma prio_ltb_leb a b : prio_ltb a b = true -> prio_leb a b = true.
Proof.
  unfold prio_leb. destruct a, b; simpl; auto; try discriminate.
  rewrite negb_true_iff, Z.ltb_lt, Z.ltb_ge. lia.
Qed.

Lemma prio_total a b : prio_ltb a b = false -> prio_leb b a = true.
Proof. unfold prio_leb. intros ->. reflexivity. Qed.

Lemma prio_lt_le_trans a b c :
  prio_ltb a b = true -> prio_leb b c = true -> prio_ltb a c = true.
Proof.
  unfold prio_leb. destruct a, b, c; simpl; auto; try discriminate.
  rewrite negb_true_iff, !Z.ltb_lt, Z.ltb_ge. lia.
Qed.

(** Where [_insert_sorted] cuts the list. *)
Lemma insert_split (l : list entry) (p : priority) :
  descending l ->
  Forall (fun e => prio_leb p (prio e) = true) (firstn (insert_index p l) l) /\
  Forall (fun e => prio_ltb (prio e) p = true) (skipn (insert_index p l) l).
Proof.
  induction l as [|e l IH]; intros Hs; simpl.
  - split; constructor.
  - inversion Hs as [|? ? Hs' Hall]; subst.
    destruct (prio_ltb (prio e) p) eqn:E; simpl.
    + split; [constructor|]. constructor; [exact E|].
      eapply List.Forall_impl; [|exact Hall]. simpl. intros b Hb.
      destruct (prio_ltb (prio b) p) eqn:Eb; auto.
      apply prio_total in Eb.
      assert (prio_leb p (prio e) = true) by (eapply prio_leb_trans; eauto).
      unfold prio_leb in H. rewrite E in H. discriminate.
    + destruct (IH Hs') as [H1 H2]. split; auto.
      constructor; auto. apply prio_total; exact E.
Qed.

Lemma descending_app_cons (l1 l2 : list entry) (x : entry) :
  descending (l1 ++ l2) ->
  Forall (fun e => prio_leb (prio x) (prio e) = true) l1 ->
  Forall (fun e => prio_ltb (prio e) (prio x) = true) l2 ->
  descending (l1 ++ x :: l2).
Proof.
  unfold descending. induction l1 as [|a l1 IH]; simpl; intros Hs H1 H2.
  - constructor; auto. eapply List.Forall_impl; [|exact H2].
    intros b Hb. apply prio_ltb_leb; auto.
  - inversion Hs as [|? ? Hs' Hall]; subst. inversion H1; subst.
    constructor; auto.
    apply Forall_app in Hall as [Ha1 Ha2].
    apply Forall_app; split; auto.
Qed.

Lemma insert_sorted_descending l p o c :
  descending l -> descending (_insert_sorted l p o c).
Proof.
  intros Hs. unfold _insert_sorted.
  destruct (insert_split l p Hs) as [H1 H2].
  apply descending_app_cons; auto.
  rewrite firstn_skipn. exact Hs.
Qed.

Lemma list_remove_descending r l : descending l -> descending (list_remove r l).
Proof.
  unfold descending. induction l as [|x l IH]; simpl; intros Hs; auto.
  inversion Hs as [|? ? Hs' Hall]; subst.
  destruct (entry_eqb x r); auto.
  constructor; auto.
  clear - Hall. induction l as [|y l IH]; simpl; auto.
  inversion Hall; subst. destruct (entry_eqb y r); auto.
Qed.

Lemma remove_observer_descending l ob c :
  descending l -> descending (remove_observer l ob c).
Proof.
  unfold remove_observer. generalize (List.filter
      (fun e => match c with
         | Some c => Nat.eqb (observer_of e) ob && callable_eqb c (callble_of e)
         | None => Nat.eqb (observer_of e) ob
         end) l) as rs.
  intros rs; revert l. induction rs as [|r rs IH]; simpl; intros l Hs; auto.
  apply IH. apply list_remove_descending; auto.
Qed.

Lemma run_descending ops : descending (run ops).
Proof.
  unfold run. assert (H : descending []) by constructor.
  revert H. generalize (@nil entry) as l. induction ops as [|o ops IH]; simpl; intros l H; auto.
  apply IH. destruct o; simpl.
  - apply insert_sorted_descending; auto.
  - apply remove_observer_descending; auto.
Qed.

(** On a descending list the prefix scan selects the same entries as a filter. *)
Lemma scan_filter m l :
  descending l -> scan m l = List.filter (fun e => prio_ltb m (prio e)) l.
Proof.
  unfold descending. induction l as [|e l IH]; simpl; intros Hs; auto.
  inversion Hs as [|? ? Hs' Hall]; subst.
  unfold prio_leb at 1. destruct (prio_ltb m (prio e)) eqn:E; simpl.
  - f_equal. auto.
  - symmetry. clear IH Hs Hs'. induction l as [|b l IH]; simpl; auto.
    inversion Hall; subst.
    destruct (prio_ltb m (prio b)) eqn:Eb; auto.
    assert (prio_ltb m (prio e) = true) by (eapply prio_lt_le_trans; eauto).
    congruence.
Qed.

(** C7: on every registry reached by [add_observer]/[remove_observer] calls,
    the entries are in descending priority, [_notify_observers] with a
    [min_priority] calls exactly the callables whose priority is strictly
    greater, in list order, and without [min_priority] it calls every
    callable in list order; with priorities 5, 0, -100 and
    [min_priority = -50] only the first two are called. *)
Theorem notify_observers_calls_above_min_priority :
  (forall (ops : list op) (self : nat) (which : option nat) (m : priority),
      let l := run ops in
      let w := match which with Some w => w | None => self end in
      descending l /\
      _notify_observers self l which (Some m)
      = map (fun e => (callble_of e, w))
            (List.filter (fun e => prio_ltb m (prio e)) l) /\
      _notify_observers self l which None = map (fun e => (callble_of e, w)) l) /\
  (let l := run [Add 1%nat (External 1) (Fin 5); Add 2%nat (External 2) (Fin 0);
                 Add 3%nat (External 3) (Fin (-100))] in
   map prio l = [Fin 5; Fin 0; Fin (-100)] /\
   _notify_observers 0%nat l None (Some (Fin (-50)))
   = [(External 1, 0%nat); (External 2, 0%nat)] /\
   _notify_observers 0%nat l None None
   = [(External 1, 0%nat); (External 2, 0%nat); (External 3, 0%nat)]).
Proof.
  split.
  - intros ops self which m l w. pose proof (run_descending ops) as Hs.
    split; [exact Hs|]. split.
    + unfold _notify_observers. fold w. rewrite scan_filter; auto.
    + reflexivity.
  - vm_compute. auto.
Qed.

(** C8, as the code has it: after any sequence of [add_observer] calls the
    registry is in descending priority, and a further call puts the new
    entry behind every entry of greater or equal priority and ahead of every
    entry of smaller priority. *)
Theorem insert_sorted_after_equal_priority :
  forall (calls : list (nat * callable * priority)) (o : nat) (c : callable)
         (p : priority),
    let l := run (map (fun x => Add (fst (fst x)) (snd (fst x)) (snd x)) calls) in
    descending l /\
    descending (add_observer l o c p) /\
    exists before after,
      l = before ++ after /\
      add_observer l o c p = before ++ (p, o, c) :: after /\
      Forall (fun e => prio_leb p (prio e) = true) before /\
      Forall (fun e => prio_ltb (prio e) p = true) after.
Proof.
  intros calls o c p l. pose proof (run_descending
    (map (fun x => Add (fst (fst x)) (snd (fst x)) (snd x)) calls)) as Hs.
  fold l in Hs. split; [exact Hs|]. split.
  - apply insert_sorted_descending; auto.
  - exists (firstn (insert_index p l) l), (skipn (insert_index p l) l).
    destruct (insert_split l p Hs) as [H1 H2].
    split; [symmetry; apply firstn_skipn|]. split; [reflexivity|]. split; auto.
Qed.

(** C8 as stated fails: with one entry of priority 0 registered, a second
    registration at priority 0 lands behind it. *)
Lemma insert_sorted_tie_goes_last :
  add_observer (run [Add 1%nat (External 1) (Fin 0)]) 2%nat (External 2) (Fin 0)
  = [(Fin 0, 1%nat, External 1); (Fin 0, 2%nat, External 2)] /\
  ~ new_entry_before_equals (run [Add 1%nat (External 1) (Fin 0)])
      (Fin 0) 2%nat (External 2).
Proof.
  split; [reflexivity|].
  intros (before & after & Hl & Hins & Hall).
  change (run [Add 1%nat (External 1) (Fin 0)]) with [(Fin 0, 1%nat, External 1)] in *.
  change (_insert_sorted [(Fin 0, 1%nat, External 1)] (Fin 0) 2%nat (External 2))
    with [(Fin 0, 1%nat, External 1); (Fin 0, 2%nat, External 2)] in Hins.
  destruct before as [|b before].
  - simpl in Hins. inversion Hins.
  - simpl in Hins. inversion Hins; subst b. inversion Hall; subst.
    simpl in H2. discriminate.
Qed.

End ObservableFacts.

(** ** Scenarios run on the model *)

Module ScenarioFacts.
Import Scenario.

(** Splits a conjunction into its parts, and no further. *)
Ltac conjuncts := repeat match goal with |- _ /\ _ => split end.

(** Closes a goal between closed terms by evaluation. *)
Ltac evaluate := vm_compute; reflexivity.

(** C1, at a failing input: [R] holds the empty container [P] and the size
    invariant holds at both; after [P.add_parameter(a)] with [a] of size 2
    the call has returned, [P.size] is 2 and [R.size] is still 0, so the
    invariant is broken at [R]. *)
Lemma nested_add_parameter_stale_root_size :
  let before := snd (nested_empty empty_state) in
  let call := add_parameter fuel 3%nat 6%nat None before in
  size_invariant_at 0%nat before /\
  size_invariant_at 3%nat before /\
  fst call = Ok tt /\
  field size 0%nat (snd call) = Some 0 /\
  field _parameters_ 0%nat (snd call) = Some [3%nat] /\
  field size 3%nat (snd call) = Some 2 /\
  size_invariant_at 3%nat (snd call) /\
  ~ size_invariant_at 0%nat (snd call).
Proof.
  cbv zeta. conjuncts; try evaluate.
  - eexists _, _. conjuncts; evaluate.
  - eexists _, _. conjuncts; evaluate.
  - eexists _, _. conjuncts; evaluate.
  - intros (n & szs & Hn & Hs & Hz).
    assert (E : field (fun n => (size n, _parameters_ n)) 0%nat
                  (snd (add_parameter fuel 3%nat 6%nat None (snd (nested_empty empty_state))))
                = Some (0, [3%nat])) by (vm_compute; reflexivity).
    unfold field in E. rewrite Hn in E. simpl in E. injection E as E1 E2.
    rewrite E2 in Hs. rewrite E1 in Hz. vm_compute in Hs.
    injection Hs as <-. vm_compute in Hz. discriminate.
Qed.

(** C5, at a failing input: [M] holds the leaves [a] and [b], and [b]
    carries a transform and a prior, both recorded at index 1 of [M]'s
    stores.  After [M.remove_parameter(a)] the child [a] has no parent, no
    observer and a store of its own for its constraints, and [M]'s
    constraint indices have moved to 0; but [a.priors] is still a view over
    [M]'s prior store, and that store still records the prior at index 1. *)
Lemma remove_parameter_forgets_priors :
  let before := snd (with_prior empty_state) in
  let call := remove_parameter fuel 0%nat 3%nat before in
  fst (with_prior empty_state) = Ok tt /\
  field _parameters_ 0%nat before = Some [3%nat; 6%nat] /\
  shown 1%nat before = Ok [(LConstraint 1, [1])] /\
  shown 2%nat before = Ok [(LPrior 7, [1])] /\
  fst call = Ok tt /\
  field _parameters_ 0%nat (snd call) = Some [6%nat] /\
  field _direct_parent_ 3%nat (snd call) = Some None /\
  field _observer_callables_ 3%nat (snd call) = Some [] /\
  (exists c, field constraints 3%nat (snd call) = Some c /\
             view_base c (snd call) = None /\ shown c (snd call) = Ok []) /\
  shown 1%nat (snd call) = Ok [(LConstraint 1, [0])] /\
  (exists q, field priors 3%nat (snd call) = Some q /\
             view_base q (snd call) = Some 2%nat) /\
  field priors 0%nat (snd call) = Some 2%nat /\
  shown 2%nat (snd call) = Ok [(LPrior 7, [1])].
Proof.
  cbv zeta. conjuncts; try evaluate.
  - eexists. conjuncts; evaluate.
  - eexists. conjuncts; evaluate.
Qed.

(** C9, at a failing input: [b] is the second leaf of [M] and is fixed, so
    [M]'s mask is [[True, False]].  [b.constrain(shift)] takes the fixed
    sentinel off index 1 of [M]'s store and records the transform there,
    but [M]'s mask still marks index 1 as fixed. *)
Lemma constrain_after_fix_leaves_mask :
  let before := snd (second_fixed empty_state) in
  let call := constrain fuel 6%nat (Constraint shift) true true before in
  fst (second_fixed empty_state) = Ok tt /\
  _highest_parent_ fuel 6%nat before = Ok 0%nat /\
  shown 1%nat before = Ok [(LFixed, [1])] /\
  field _fixes_ 0%nat before = Some (Some [true; false]) /\
  fst call = Ok tt /\
  shown 1%nat (snd call) = Ok [(LConstraint 1, [1])] /\
  field _fixes_ 0%nat (snd call) = Some (Some [true; false]).
Proof.
  cbv zeta. conjuncts; evaluate.
Qed.

(** C3, at a failing input: the container [P] of size 2 sits under [R] and
    is fixed.  Both of its indices are recorded as fixed, its own mask is
    [None], [_get_params_transformed] returns both entries and
    [_size_transformed] returns 0. *)
Lemma attached_node_keeps_fixed_entries :
  let st := snd (nested_fixed empty_state) in
  fst (nested_fixed empty_state) = Ok tt /\
  field _direct_parent_ 3%nat st = Some (Some 0%nat) /\
  field size 3%nat st = Some 2 /\
  (exists c, field constraints 3%nat st = Some c /\
             shown c st = Ok [(LFixed, [0; 1])]) /\
  field _fixes_ 3%nat st = Some None /\
  _get_params_transformed fuel 3%nat st = Ok [1; 2] /\
  _size_transformed fuel 3%nat st = Ok 0.
Proof.
  cbv zeta. conjuncts; try evaluate.
  eexists. conjuncts; evaluate.
Qed.

(** C2, at a failing input: [b], the second leaf of [M], was fixed and then
    constrained with [shift], which left the mask of [M] marking index 1 as
    fixed while the store records the transform there (the state of
    [constrain_after_fix_leaves_mask]).  [_get_params_transformed] drops the
    entry, and [_set_params_transformed] of what it returned puts the raw
    value back at index 1 and then applies [f] to it: the raw vector
    [[10, 20]] has become [[10, 21]], although [f (finv x) = x] for every
    [x]. *)
Lemma round_trip_moves_reconstrained_entry :
  let st := snd (second_reconstrained empty_state) in
  let call := _set_params_transformed fuel 0%nat [10] st in
  fst (second_reconstrained empty_state) = Ok tt /\
  (forall x, Transformation.f shift (Transformation.finv shift x) = x) /\
  shown 1%nat st = Ok [(LConstraint 1, [1])] /\
  field _fixes_ 0%nat st = Some (Some [true; false]) /\
  _get_params fuel 0%nat st = Ok [10; 20] /\
  _get_params_transformed fuel 0%nat st = Ok [10] /\
  fst call = Ok tt /\
  _get_params fuel 0%nat (snd call) = Ok [10; 21].
Proof.
  cbv zeta. conjuncts; try evaluate.
  intros x. cbv [shift Transformation.f Transformation.finv]. lia.
Qed.

(** C4, at a failing input: both leaves of [M] were fixed and [b] was
    unfixed again.  The store records index 0, the entry of [a], as fixed,
    but the mask of [M] is [[True, False]]: [_set_unfixed] was handed the
    index of [b] in its own numbering.  The free vector has one entry, and
    [_set_params_transformed([99])] writes it over the entry of [a]: the raw
    vector [[10, 20]] has become [[99, 20]]. *)
Lemma set_params_transformed_overwrites_fixed_entry :
  let st := snd (both_fixed_second_unfixed empty_state) in
  let call := _set_params_transformed fuel 0%nat [99] st in
  fst (both_fixed_second_unfixed empty_state) = Ok tt /\
  shown 1%nat st = Ok [(LFixed, [0])] /\
  field _fixes_ 0%nat st = Some (Some [true; false]) /\
  _get_params fuel 0%nat st = Ok [10; 20] /\
  _size_transformed fuel 0%nat st = Ok 1 /\
  _get_params_transformed fuel 0%nat st = Ok [10] /\
  fst call = Ok tt /\
  _get_params fuel 0%nat (snd call) = Ok [99; 20].
Proof.
  cbv zeta. conjuncts; evaluate.
Qed.

(** A child that prints its name as [size] diverts [self.size += param.size]:
    the value goes to the child and the container's [size] stays.  With a
    leaf the run leaves the modelled files there; with a container the
    assignment to the child raises [TypeError]. *)
Lemma child_named_size_diverts_the_assignment :
  fst (leaf_named_size empty_state) = Raise Unmodelled /\
  field _parameters_ 0%nat (snd (leaf_named_size empty_state)) = Some [3%nat] /\
  field size 0%nat (snd (leaf_named_size empty_state)) = Some 0 /\
  fst (container_named_size empty_state) = Raise TypeError /\
  field _parameters_ 0%nat (snd (container_named_size empty_state)) = Some [3%nat] /\
  field size 0%nat (snd (container_named_size empty_state)) = Some 0.
Proof.
  conjuncts; evaluate.
Qed.

(** Attaching the child [a] of [M] to [M] once more, without an index,
    raises [RuntimeError] -- the [else] branch of [add_parameter] -- and
    leaves the state as it was. *)
Lemma reattach_is_runtime_error :
  let before := snd (two_leaves empty_state) in
  fst (two_leaves empty_state) = Ok tt /\
  field _parameters_ 0%nat before = Some [3%nat; 6%nat] /\
  field _direct_parent_ 3%nat before = Some (Some 0%nat) /\
  add_parameter fuel 0%nat 3%nat None before = (Raise RuntimeError, before).
Proof.
  cbv zeta. conjuncts; evaluate.
Qed.

End ScenarioFacts.

Section ArrayFacts.
Context {A : Type}.
Implicit Types (a p : list A) (ind : list Z) (m : list bool).

Lemma position_in_range (n i : Z) : 0 <= i < n -> position n i = Some (Z.to_nat i).
Proof.
  intros H. unfold position.
  destruct (Z.leb_spec 0 i); try lia. destruct (Z.ltb_spec i n); try lia. reflexivity.
Qed.

Lemma item_in_range a (i : Z) :
  0 <= i < len a -> exists x, item a i = Ok x /\ a !! Z.to_nat i = Some x.
Proof.
  intros H. unfold item. rewrite position_in_range by exact H.
  destruct (a !! Z.to_nat i) as [x|] eqn:E.
  - eauto.
  - apply lookup_ge_None in E. unfold len in H. lia.
Qed.

Lemma take_at_in_range a ind :
  Forall (fun i => 0 <= i < len a) ind ->
  exists xs, take_at a ind = Ok xs /\
             Forall2 (fun i x => a !! Z.to_nat i = Some x) ind xs.
Proof.
  unfold take_at. induction 1 as [|i ind Hi _ IH]; simpl.
  - exists []. split; [reflexivity|constructor].
  - destruct (item_in_range a i Hi) as (x & -> & Hx).
    destruct IH as (xs & -> & Hxs). simpl.
    exists (x :: xs). split; [reflexivity|constructor; auto].
Qed.

Lemma mem_z_cons (j i : Z) ind : mem_z j (i :: ind) = (j =? i) || mem_z j ind.
Proof. reflexivity. Qed.

Lemma mem_z_In (j : Z) ind : mem_z j ind = true <-> In j ind.
Proof.
  unfold mem_z. rewrite existsb_exists. split.
  - intros (x & Hx & E). apply Z.eqb_eq in E. subst. exact Hx.
  - intros H. exists j. split; [exact H|apply Z.eqb_refl].
Qed.

(** What [np.put] leaves at each position when the written values are
    images of the entries of [p0] at the written indices. *)
Lemma put_lookup (g : A -> A) p0 ind : forall p vals,
  length p = length p0 ->
  Forall (fun i => 0 <= i < len p0) ind ->
  Forall2 (fun i v => g <$> p0 !! Z.to_nat i = Some v) ind vals ->
  exists q, put p ind vals = Ok q /\ length q = length p0 /\
    forall j : nat, q !! j = if mem_z (Z.of_nat j) ind then g <$> p0 !! j else p !! j.
Proof.
  induction ind as [|i ind IH]; intros p vals Hlen Hr Hv.
  - inversion Hv; subst. exists p. simpl. auto.
  - inversion Hv as [|? v ? vals' Hiv Hv']; subst. inversion Hr as [|? ? Hi Hr']; subst.
    simpl. unfold set_item. rewrite position_in_range by (unfold len in *; lia).
    simpl.
    destruct (IH (<[Z.to_nat i := v]> p) vals') as (q & Hq & Hql & Hqj); auto.
    { rewrite length_insert. exact Hlen. }
    exists q. split; [exact Hq|]. split; [exact Hql|].
    intros j. rewrite Hqj. change (mem_z (Z.of_nat j) (i :: ind)) with ((Z.of_nat j =? i) || mem_z (Z.of_nat j) ind).
    destruct (mem_z (Z.of_nat j) ind) eqn:Em.
    + rewrite orb_true_r. reflexivity.
    + rewrite orb_false_r. destruct (Z.eqb_spec (Z.of_nat j) i) as [E|E].
      * subst i. rewrite Nat2Z.id in *. rewrite list_lookup_insert_eq.
        -- symmetry. exact Hiv.
        -- unfold len in Hi. lia.
      * rewrite list_lookup_insert_ne by lia. reflexivity.
Qed.

(** One step of the transform comprehension, position by position. *)
Lemma put_image (g : A -> A) p ind :
  Forall (fun i => 0 <= i < len p) ind ->
  exists xs, take_at p ind = Ok xs /\
    put p ind (map g xs)
    = Ok (imap (fun j x => if mem_z (Z.of_nat j) ind then g x else x) p).
Proof.
  intros Hr. destruct (take_at_in_range p ind Hr) as (xs & Hx & Hxs).
  exists xs. split; [exact Hx|].
  destruct (put_lookup g p ind p (map g xs)) as (q & -> & Hl & Hq); auto.
  - clear Hr Hx. induction Hxs; simpl; constructor; auto.
    rewrite H. reflexivity.
  - f_equal. apply list_eq. intros j. rewrite Hq, list_lookup_imap.
    destruct (p !! j); simpl; destruct (mem_z (Z.of_nat j) ind); reflexivity.
Qed.

Lemma select_length a m : length a = length m -> length (select a m) = count_true m.
Proof.
  revert m. induction a as [|x a IH]; intros [|b m]; simpl; intros H; try discriminate; auto.
  unfold count_true in *. simpl. destruct b; simpl; auto.
Qed.

Lemma scatter_length a m v : length (scatter a m v) = length a.
Proof.
  revert m v. induction a as [|x a IH]; intros [|b m] v; simpl; auto.
  destruct b; [destruct v|]; simpl; auto.
Qed.

(** A masked write leaves the positions outside the mask alone. *)
Lemma scatter_fixed a m v (j : nat) :
  m !! j = Some false -> scatter a m v !! j = a !! j.
Proof.
  revert m v j. induction a as [|x a IH]; intros [|b m] v j; simpl; auto.
  destruct j as [|j]; simpl.
  - intros [= ->]. reflexivity.
  - intros H. destruct b; [destruct v|]; simpl; auto.
Qed.

(** Writing back what the mask selected from [b] mixes [a] and [b]. *)
Lemma scatter_select a b m (j : nat) :
  length a = length m -> length b = length m ->
  scatter a m (select b m) !! j
  = match m !! j with Some true => b !! j | _ => a !! j end.
Proof.
  revert b m j. induction a as [|x a IH]; intros [|y b] [|c m] j; simpl;
    intros Ha Hb; try discriminate.
  - destruct j; reflexivity.
  - destruct c; simpl.
    + destruct j as [|j]; simpl; auto.
    + destruct j as [|j]; simpl; auto.
Qed.

End ArrayFacts.

Section TransformFacts.
Context {V : Type}.
Implicit Types (items : props V) (p raw : list V).

Lemma forallb_in_range (n : Z) (ind : list Z) :
  forallb (fun i => (0 <=? i) && (i <? n)) ind = true ->
  Forall (fun i => 0 <= i < n) ind.
Proof.
  rewrite forallb_forall, List.Forall_forall. intros H i Hi.
  specialize (H i Hi). apply andb_true_iff in H as [H1 H2].
  apply Z.leb_le in H1. apply Z.ltb_lt in H2. lia.
Qed.

Lemma put_transformed_image g items : forall p,
  no_priors items = true -> in_range (len p) items = true ->
  put_transformed g items p
  = Ok (imap (fun j x => transform_at g items (Z.of_nat j) x) p).
Proof.
  induction items as [|[c ind] items IH]; intros p Hn Hr.
  - simpl. f_equal. symmetry. apply list_eq. intros j.
    rewrite list_lookup_imap. destruct (p !! j); reflexivity.
  - destruct c as [|t|q]; simpl in *.
    + apply IH; auto.
    + apply andb_true_iff in Hr as [Hr1 Hr2].
      destruct (put_image (g t) p ind (forallb_in_range _ _ Hr1)) as (xs & Hx & Hp).
      rewrite Hx. simpl. rewrite Hp. simpl. rewrite IH; auto.
      * f_equal. apply list_eq. intros j. rewrite !list_lookup_imap.
        destruct (p !! j); reflexivity.
      * unfold len in *. rewrite length_imap. exact Hr2.
    + discriminate.
Qed.

Lemma transform_at_uncovered g items (i : Z) (x : V) :
  covered items i = false -> transform_at g items i x = x.
Proof.
  revert x. induction items as [|[c ind] items IH]; intros x H; simpl in *; auto.
  destruct c; auto.
  apply orb_false_iff in H as [H1 H2]. rewrite H1. auto.
Qed.

Lemma disjoint_uncovered (ind : list Z) items (i : Z) :
  forallb (fun i => negb (covered items i)) ind = true ->
  mem_z i ind = true -> covered items i = false.
Proof.
  rewrite forallb_forall. intros H Hi. apply mem_z_In in Hi.
  specialize (H i Hi). apply negb_true_iff in H. exact H.
Qed.

Lemma transform_at_round_trip items (i : Z) (x : V) :
  disjoint_transforms items = true -> invertible items ->
  transform_at Transformation.f items i (transform_at Transformation.finv items i x) = x.
Proof.
  revert x. induction items as [|[c ind] items IH]; intros x Hd Hinv; simpl in *; auto.
  assert (Hinv' : invertible items).
  { intros c' ind' Hin. apply (Hinv c' ind'). right. exact Hin. }
  destruct c as [|t|q]; auto.
  apply andb_true_iff in Hd as [Hd1 Hd2].
  destruct (mem_z i ind) eqn:Em.
  - pose proof (disjoint_uncovered ind items i Hd1 Em) as Hu.
    rewrite !(transform_at_uncovered _ items i _ Hu).
    apply (Hinv t ind). left. reflexivity.
  - rewrite IH; auto.
Qed.

End TransformFacts.

Section OptimizerFacts.
Context {V : Type}.
Implicit Types (items : props V) (raw p v : list V) (st : state V).

Lemma consistent_parts raw items mask :
  consistent raw items mask = true ->
  no_priors items = true /\ in_range (len raw) items = true /\
  disjoint_transforms items = true /\ mask_fits mask (length raw) = true /\
  fixed_untransformed mask items (length raw) = true.
Proof.
  unfold consistent. rewrite !andb_true_iff. tauto.
Qed.

Lemma fixed_is_uncovered mask items (n j : nat) :
  fixed_untransformed mask items n = true -> (j < n)%nat ->
  fixed_at mask j = true -> covered items (Z.of_nat j) = false.
Proof.
  unfold fixed_untransformed. rewrite forallb_forall. intros H Hj Hf.
  specialize (H j). rewrite Hf in H. simpl in H. apply negb_true_iff. apply H.
  apply in_seq. lia.
Qed.

Lemma get_params_transformed_value k st self n raw items :
  nodes st !! self = Some n ->
  _get_params k self st = Ok raw ->
  iteritems k (constraints n) (iops st) = Ok items ->
  consistent raw items (_fixes_ n) = true ->
  _get_params_transformed k self st
  = Ok (match _fixes_ n with
        | Some m => select (inverse_image items raw) m
        | None => inverse_image items raw
        end).
Proof.
  intros Hn Hraw Hit Hc. apply consistent_parts in Hc as (Hp & Hr & _ & Hm & _).
  unfold _get_params_transformed. rewrite Hraw. simpl.
  unfold node_of. rewrite Hn. simpl. rewrite Hit. simpl.
  rewrite put_transformed_image by assumption. simpl.
  fold (inverse_image items raw).
  destruct (_fixes_ n) as [m|]; [|reflexivity].
  unfold mask_get. unfold inverse_image. rewrite length_imap.
  simpl in Hm. apply Nat.eqb_eq in Hm. rewrite Hm, Nat.eqb_refl. reflexivity.
Qed.

Lemma untransform_params_value k st self n raw items v :
  nodes st !! self = Some n ->
  _get_params k self st = Ok raw ->
  iteritems k (constraints n) (iops st) = Ok items ->
  consistent raw items (_fixes_ n) = true ->
  length v = match _fixes_ n with Some m => count_true m | None => length raw end ->
  _untransform_params k self v st
  = Ok (imap (fun j x => transform_at Transformation.f items (Z.of_nat j) x)
             (match _fixes_ n with Some m => scatter raw m v | None => v end)).
Proof.
  intros Hn Hraw Hit Hc Hv. apply consistent_parts in Hc as (Hp & Hr & _ & Hm & _).
  unfold _untransform_params. unfold node_of. rewrite Hn. simpl.
  destruct (_fixes_ n) as [m|].
  - rewrite Hraw. simpl. unfold mask_set.
    simpl in Hm. apply Nat.eqb_eq in Hm. rewrite Hm, Nat.eqb_refl. simpl.
    rewrite Hv, Nat.eqb_refl. simpl. rewrite Hit. simpl.
    apply put_transformed_image; auto.
    unfold len in *. rewrite scatter_length. exact Hr.
  - simpl. rewrite Hit. simpl. apply put_transformed_image; auto.
    unfold len in *. rewrite Hv. exact Hr.
Qed.

Lemma inverse_image_length items raw : length (inverse_image items raw) = length raw.
Proof. unfold inverse_image. apply length_imap. Qed.

(** Applying the forward transforms to the free vector, put back among the
    fixed raw values, gives the raw vector. *)
Lemma untransform_inverse_image items raw mask :
  consistent raw items mask = true -> invertible items ->
  imap (fun j x => transform_at Transformation.f items (Z.of_nat j) x)
       (match mask with
        | Some m => scatter raw m (select (inverse_image items raw) m)
        | None => inverse_image items raw
        end) = raw.
Proof.
  intros Hc Hinv. apply consistent_parts in Hc as (Hp & Hr & Hd & Hm & Hf).
  apply list_eq. intros j. rewrite list_lookup_imap.
  destruct mask as [m|].
  - simpl in Hm. apply Nat.eqb_eq in Hm.
    rewrite scatter_select by (rewrite ?inverse_image_length; auto).
    destruct (raw !! j) as [x|] eqn:Ex.
    + assert (Hj : (j < length raw)%nat) by (eapply lookup_lt_Some; eauto).
      destruct (m !! j) as [b|] eqn:Eb.
      2:{ apply lookup_ge_None in Eb. lia. }
      destruct b.
      * unfold inverse_image. rewrite list_lookup_imap, Ex. simpl.
        rewrite transform_at_round_trip; auto.
      * simpl. rewrite transform_at_uncovered; auto.
        eapply fixed_is_uncovered; eauto. simpl. rewrite Eb. reflexivity.
    + assert (Hi : inverse_image items raw !! j = None).
      { apply lookup_ge_None. rewrite inverse_image_length.
        apply lookup_ge_None in Ex. exact Ex. }
      destruct (m !! j) as [[|]|]; rewrite ?Hi, ?Ex; reflexivity.
  - unfold inverse_image. rewrite list_lookup_imap.
    destruct (raw !! j) as [x|]; simpl; auto.
    rewrite transform_at_round_trip; auto.
Qed.

(** The assigned vector keeps the raw value at every position the mask
    fixes. *)
Lemma untransform_keeps_fixed items raw mask v (j : nat) :
  consistent raw items mask = true ->
  fixed_at mask j = true ->
  imap (fun j x => transform_at Transformation.f items (Z.of_nat j) x)
       (match mask with Some m => scatter raw m v | None => v end) !! j
  = raw !! j.
Proof.
  intros Hc Hfix. apply consistent_parts in Hc as (Hp & Hr & Hd & Hm & Hf).
  destruct mask as [m|]; [|discriminate].
  simpl in Hfix. destruct (m !! j) as [b|] eqn:Eb; [|discriminate].
  destruct b; [discriminate|].
  rewrite list_lookup_imap, scatter_fixed by exact Eb.
  destruct (raw !! j) as [x|] eqn:Ex; simpl; auto.
  rewrite transform_at_uncovered; auto.
  eapply fixed_is_uncovered; eauto.
  - eapply lookup_lt_Some; eauto.
  - simpl. rewrite Eb. reflexivity.
Qed.

End OptimizerFacts.

Section MonadFacts.
Context {V : Type}.
Implicit Types (st : state V).

Lemma same_store_refl st : same_store st st.
Proof. unfold same_store. auto. Qed.

Lemma same_store_trans st1 st2 st3 :
  same_store st1 st2 -> same_store st2 st3 -> same_store st1 st3.
Proof. unfold same_store. intros (a & b & c) (a' & b' & c'). repeat split; congruence. Qed.

(** Where [bind] leaves the state. *)
Lemma snd_bind {A B : Type} (m : M V A) (k : A -> M V B) st :
  snd (bind m k st)
  = match fst (m st) with
    | Ok a => snd (k a (snd (m st)))
    | Raise _ => snd (m st)
    end.
Proof. unfold bind. destruct (m st) as [[a|e] st']; reflexivity. Qed.

Lemma fst_bind {A B : Type} (m : M V A) (k : A -> M V B) st :
  fst (bind m k st)
  = match fst (m st) with
    | Ok a => fst (k a (snd (m st)))
    | Raise e => Raise e
    end.
Proof. unfold bind. destruct (m st) as [[a|e] st']; reflexivity. Qed.

(** A relation between the state before and after that every step of a
    loop keeps is kept by the loop. *)
Lemma for_each_keeps {A : Type} (R : state V -> state V -> Prop) (l : list A)
      (body : A -> M V unit) :
  (forall st, R st st) ->
  (forall st1 st2 st3, R st1 st2 -> R st2 st3 -> R st1 st3) ->
  (forall x st, In x l -> R st (snd (body x st))) ->
  forall st, R st (snd (for_each l body st)).
Proof.
  intros Hrefl Htrans. induction l as [|x l IH]; intros Hbody st; simpl.
  - apply Hrefl.
  - rewrite snd_bind. destruct (fst (body x st)) eqn:E.
    + eapply Htrans; [apply Hbody; left; reflexivity|].
      apply IH. intros y st' Hy. apply Hbody. right. exact Hy.
    + apply Hbody. left. reflexivity.
Qed.

Lemma get_node_state o st : snd (get_node o st) = st.
Proof. reflexivity. Qed.

Lemma emit_same_store e st : same_store st (snd (emit e st)).
Proof. unfold same_store. simpl. auto. Qed.

(** Notification touches nothing but the log. *)
Lemma notify_observers_same_store k : forall self which min_priority st,
  same_store st (snd (_notify_observers k self which min_priority st)).
Proof.
  induction k as [|k IH]; intros self which mp st; simpl.
  - apply same_store_refl.
  - rewrite snd_bind. simpl. destruct (node_of self st) as [n|e]; simpl.
    2: apply same_store_refl.
    apply for_each_keeps.
    + apply same_store_refl.
    + apply same_store_trans.
    + intros [c w] st' _. simpl. destruct c.
      * apply IH.
      * apply emit_same_store.
      * apply emit_same_store.
Qed.

Lemma omap_ext {A B : Type} (g h : A -> outcome B) (l : list A) :
  (forall x, In x l -> g x = h x) -> omap g l = omap h l.
Proof.
  induction l as [|x l IH]; intros H; simpl; auto.
  rewrite (H x) by (left; reflexivity). rewrite IH; auto.
  intros y Hy. apply H. right. exact Hy.
Qed.

Lemma node_of_ext o st st' : nodes st' = nodes st -> node_of o st' = node_of o st.
Proof. unfold node_of. intros ->. reflexivity. Qed.

(** The raw vector depends on the nodes alone. *)
Lemma get_params_ext k : forall o st st',
  nodes st' = nodes st -> _get_params k o st' = _get_params k o st.
Proof.
  induction k as [|k IH]; intros o st st' H; simpl; auto.
  rewrite (node_of_ext o st st' H). destruct (node_of o st) as [n|e]; simpl; auto.
  destruct (cls n); auto. destruct (size n =? 0); auto.
  f_equal. apply omap_ext. intros x _.
  rewrite (node_of_ext x st st' H). destruct (node_of x st) as [c|e]; simpl; auto.
  destruct (0 <? size c); auto. rewrite (IH x st st' H). reflexivity.
Qed.

Lemma child_sizes_ext ps st st' :
  nodes st' = nodes st -> child_sizes ps st' = child_sizes ps st.
Proof.
  intros H. unfold child_sizes. apply omap_ext. intros x _.
  rewrite (node_of_ext x st st' H). reflexivity.
Qed.

Lemma wf_tree_ext d : forall o st st',
  nodes st' = nodes st -> wf_tree d o st -> wf_tree d o st'.
Proof.
  induction d as [|d IH]; intros o st st' H; simpl; auto.
  intros (n & Hn & Hw). exists n. rewrite H. split; [exact Hn|].
  destruct (cls n); auto.
  destruct Hw as (Hc & szs & Hs & Hz & Hsl). split.
  - intros c Hin. eapply IH; eauto.
  - exists szs. rewrite (child_sizes_ext _ st st' H). auto.
Qed.

End MonadFacts.

Section RawFacts.
Context {V : Type}.
Implicit Types (st : state V) (rs : list (list V)).

Lemma len_app {A : Type} (a b : list A) : len (a ++ b) = len a + len b.
Proof. unfold len. rewrite length_app. lia. Qed.

Lemma len_concat rs : len (concat rs) = zsum (map len rs).
Proof.
  induction rs as [|r rs IH]; simpl; auto.
  rewrite len_app, IH. reflexivity.
Qed.

Lemma len_zero_nil {A : Type} (a : list A) : len a = 0 -> a = [].
Proof. destruct a; auto. unfold len. simpl. lia. Qed.

Lemma len_nonneg {A : Type} (a : list A) : 0 <= len a.
Proof. unfold len. lia. Qed.

(** The children's vectors, as [_get_params] gathers them. *)
Lemma gather_children k st (cs : list nat) :
  (forall c, In c cs ->
     exists cn r, nodes st !! c = Some cn /\ _get_params k c st = Ok r /\ len r = size cn) ->
  exists rs parts,
    child_sizes cs st = Ok (map len rs) /\
    Forall2 (fun c r => _get_params k c st = Ok r) cs rs /\
    omap (fun x => let* c := node_of x st in
                   if 0 <? size c then let* v := _get_params k x st in Ok [v]
                   else Ok []) cs = Ok parts /\
    concat (concat parts) = concat rs /\
    (concat parts = [] -> concat rs = []).
Proof.
  induction cs as [|c cs IH]; intros H.
  - exists [], []. simpl. repeat split; auto.
  - destruct (H c) as (cn & r & Hcn & Hr & Hl); [left; reflexivity|].
    destruct IH as (rs & parts & Hs & Hf & Hp & Hcc & Hnil).
    { intros c' Hc'. apply H. right. exact Hc'. }
    unfold child_sizes in *. simpl. unfold node_of at 1 3. rewrite Hcn. simpl.
    rewrite Hs. simpl. rewrite Hp.
    destruct (Z.ltb_spec 0 (size cn)).
    + rewrite Hr. simpl. exists (r :: rs), ([r] :: parts). simpl.
      rewrite Hl. repeat split; auto.
      * rewrite Hcc. reflexivity.
      * discriminate.
    + simpl. assert (r = []) by (apply len_zero_nil; pose proof (len_nonneg r); lia).
      subst r. exists ([] :: rs), ([] :: parts). simpl.
      rewrite <- Hl. repeat split; auto.
Qed.

(** A consistent subtree has a raw vector, as long as its size says. *)
Lemma wf_tree_get_params d : forall o st k,
  wf_tree d o st -> (d <= k)%nat ->
  exists n raw, nodes st !! o = Some n /\ _get_params k o st = Ok raw /\ len raw = size n.
Proof.
  induction d as [|d IH]; intros o st k Hw Hk; simpl in Hw; [contradiction|].
  destruct Hw as (n & Hn & Hw). destruct k as [|k]; [lia|].
  exists n. simpl. unfold node_of. rewrite Hn. simpl.
  destruct (cls n).
  - exists (values n). auto.
  - destruct Hw as (Hc & szs & Hs & Hz & Hsl).
    destruct (Z.eqb_spec (size n) 0) as [E|E].
    + exists []. auto.
    + destruct (gather_children k st (_parameters_ n)) as (rs & parts & Hs' & Hf & Hp & Hcc & Hnil).
      { intros c Hin. apply (IH c st k); [apply Hc; exact Hin|lia]. }
      fold (@node_of V) in Hp. unfold node_of in Hp. rewrite Hp. simpl.
      rewrite Hs in Hs'. injection Hs' as ->.
      destruct (concat parts) as [|x xs] eqn:Ep.
      * exfalso. apply E. rewrite Hz, <- len_concat, Hnil; auto.
      * exists (concat rs). rewrite <- Hcc, Hcc, len_concat. simpl in Hcc. simpl. rewrite Hcc. auto.
Qed.

End RawFacts.

Section SetFacts.
Context {V : Type}.
Implicit Types (st : state V) (rs : list (list V)).

(** The raw vector of a consistent container is the concatenation of its
    children's vectors, and its slices cut it back into them. *)
Lemma wf_container_raw d o st k n :
  wf_tree (S d) o st -> nodes st !! o = Some n -> cls n = Parameterized ->
  (d <= k)%nat ->
  exists rs,
    Forall2 (fun c r => _get_params k c st = Ok r) (_parameters_ n) rs /\
    _param_slices_ n = slices_from 0 (map len rs) /\
    _get_params (S k) o st = Ok (concat rs).
Proof.
  intros Hw Hn Hcls Hk. simpl in Hw. destruct Hw as (n' & Hn' & Hw).
  rewrite Hn in Hn'. injection Hn' as <-. rewrite Hcls in Hw.
  destruct Hw as (Hc & szs & Hs & Hz & Hsl).
  destruct (gather_children k st (_parameters_ n)) as (rs & parts & Hs' & Hf & Hp & Hcc & Hnil).
  { intros c Hin. apply (wf_tree_get_params d c st k); [apply Hc; exact Hin|lia]. }
  rewrite Hs in Hs'. injection Hs' as ->.
  exists rs. split; [exact Hf|]. split; [exact Hsl|].
  simpl. unfold node_of at 1. rewrite Hn. simpl. rewrite Hcls.
  destruct (Z.eqb_spec (size n) 0) as [E|E].
  - f_equal. symmetry. apply len_zero_nil. rewrite len_concat, <- Hz. exact E.
  - rewrite Hp. simpl. destruct (concat parts) as [|x xs] eqn:Ep.
    + exfalso. apply E. rewrite Hz, <- len_concat, Hnil; auto.
    + simpl. simpl in Hcc. rewrite Hcc. reflexivity.
Qed.

Lemma clamp_in_range (n i : Z) : 0 <= i <= n -> clamp n i = Z.to_nat i.
Proof.
  intros H. unfold clamp. destruct (Z.ltb_spec i 0); lia.
Qed.

Lemma slice_middle {A : Type} (pre r rest : list A) :
  slice (pre ++ r ++ rest) (len pre) (len r + len pre) = r.
Proof.
  pose proof (len_nonneg pre). pose proof (len_nonneg r). pose proof (len_nonneg rest).
  unfold slice.
  rewrite (clamp_in_range _ (len pre)) by (rewrite !len_app; lia).
  rewrite (clamp_in_range _ (len r + len pre)) by (rewrite !len_app; lia).
  unfold len. rewrite <- Nat2Z.inj_add, !Nat2Z.id.
  replace (length r + length pre - length pre)%nat with (length r) by lia.
  rewrite drop_app_length. apply take_app_length.
Qed.

(** Each slice of a consistent container selects the vector of the child
    it is paired with. *)
Lemma slice_of_child (P : nat -> list V -> Prop) (cs : list nat) rs :
  Forall2 P cs rs ->
  forall pre c a b,
    In (c, (a, b)) (combine cs (slices_from (len pre) (map len rs))) ->
    P c (slice (pre ++ concat rs) a b).
Proof.
  induction 1 as [|c0 r cs rs Hc Hf IH]; intros pre c a b Hin; simpl in Hin.
  - contradiction.
  - destruct Hin as [E|Hin].
    + injection E as <- <- <-. simpl. rewrite slice_middle. exact Hc.
    + simpl. replace (pre ++ r ++ concat rs) with ((pre ++ r) ++ concat rs)
        by (rewrite <- app_assoc; reflexivity).
      apply IH. rewrite len_app. replace (len pre + len r) with (len r + len pre) by lia.
      exact Hin.
Qed.

Lemma with_values_same (n : node V) : with_values (values n) n = n.
Proof. destruct n; reflexivity. Qed.

(** Assigning a consistent subtree its own raw vector changes no object,
    however the call ends. *)
Lemma set_params_own_values d : forall o st k raw tp,
  wf_tree d o st -> (d <= k)%nat -> _get_params k o st = Ok raw ->
  same_store st (snd (_set_params k o raw tp st)).
Proof.
  induction d as [|d IH]; intros o st k raw tp Hw Hk Hraw; [contradiction|].
  destruct k as [|k]; [lia|].
  pose proof Hw as Hw0. simpl in Hw. destruct Hw as (n & Hn & Hw).
  cbn [_set_params]. rewrite snd_bind. unfold get_node at 1, read at 1. cbn [fst snd].
  unfold node_of at 1. rewrite Hn.
  rewrite snd_bind. rewrite !get_node_state.
  match goal with
  | |- same_store _ (match fst (?branch st) with _ => _ end) =>
      assert (Hb : same_store st (snd (branch st)))
  end.
  2:{ match goal with
      | |- same_store _ (match ?x with _ => _ end) => destruct x
      end; [|exact Hb].
      eapply same_store_trans; [exact Hb|]. apply notify_observers_same_store. }
  destruct (cls n) eqn:Hcls.
  - simpl in Hraw. unfold node_of in Hraw. rewrite Hn in Hraw. simpl in Hraw.
    rewrite Hcls in Hraw. injection Hraw as <-. rewrite Nat.eqb_refl.
    unfold modify_node. rewrite Hn. simpl. rewrite with_values_same.
    unfold same_store. simpl. rewrite insert_id by exact Hn. auto.
  - destruct (wf_container_raw d o st k n Hw0 Hn Hcls) as (rs & Hf & Hsl & Hg); [lia|].
    rewrite Hg in Hraw. injection Hraw as <-.
    apply (for_each_keeps (fun s1 s2 => same_store st s1 -> same_store s1 s2)).
    + intros s _. apply same_store_refl.
    + intros s1 s2 s3 H12 H23 H1. pose proof (H12 H1) as H2.
      eapply same_store_trans; [exact H2|]. apply H23.
      eapply same_store_trans; eauto.
    + intros [c [a b]] s Hin Hs. cbn [fst snd].
      rewrite Hsl in Hin.
      pose proof (slice_of_child (fun c r => _get_params k c st = Ok r)
                    (_parameters_ n) rs Hf [] c a b Hin) as Hc.
      simpl in Hc. destruct Hs as (Hs1 & Hs2 & Hs3).
      apply IH.
      * eapply wf_tree_ext; [exact Hs1|]. destruct Hw as (Hch & _).
        apply Hch. apply in_combine_l in Hin. exact Hin.
      * lia.
      * rewrite (get_params_ext k c st s Hs1). exact Hc.
    + apply same_store_refl.
Qed.

End SetFacts.

(** ** The optimizer's view *)

Module OptimizerView.
Import Scenario.

Ltac conjuncts := repeat match goal with |- _ /\ _ => split end.
Ltac evaluate := vm_compute; reflexivity.

(** X26: on a node whose subtree and optimizer view are consistent -- the
    mask, if there is one, has the length of the raw vector and fixes no
    transformed entry -- and whose transforms satisfy [f (finv x) = x],
    [_get_params_transformed] returns a vector, [_untransform_params] maps
    it back to the raw vector, and [_set_params_transformed] of it changes
    no object and so leaves every raw value as it was. *)
Theorem set_params_transformed_round_trip :
  forall (V : Type) (k d : nat) (st : state V) (self : nat) (n : node V)
         (raw : list V) (items : props V),
    nodes st !! self = Some n ->
    wf_tree d self st -> (d <= k)%nat ->
    _get_params k self st = Ok raw ->
    iteritems k (constraints n) (iops st) = Ok items ->
    consistent raw items (_fixes_ n) = true ->
    invertible items ->
    exists free,
      _get_params_transformed k self st = Ok free /\
      _untransform_params k self free st = Ok raw /\
      same_store st (snd (_set_params_transformed k self free st)) /\
      _get_params k self (snd (_set_params_transformed k self free st)) = Ok raw.
Proof.
  intros V k d st self n raw items Hn Hw Hk Hraw Hit Hc Hinv.
  pose proof (get_params_transformed_value k st self n raw items Hn Hraw Hit Hc) as Hg.
  eexists. split; [exact Hg|].
  assert (Hu : _untransform_params k self
                 (match _fixes_ n with
                  | Some m => select (inverse_image items raw) m
                  | None => inverse_image items raw
                  end) st = Ok raw).
  { assert (Hl : length (match _fixes_ n with
                         | Some m => select (inverse_image items raw) m
                         | None => inverse_image items raw
                         end)
                 = match _fixes_ n with
                   | Some m => count_true m
                   | None => length raw
                   end).
    { pose proof Hc as Hc'. apply consistent_parts in Hc' as (_ & _ & _ & Hm & _).
      destruct (_fixes_ n) as [m|].
      - apply select_length. rewrite inverse_image_length.
        simpl in Hm. apply Nat.eqb_eq in Hm. auto.
      - apply inverse_image_length. }
    rewrite (untransform_params_value k st self n raw items _ Hn Hraw Hit Hc Hl).
    f_equal. pose proof (untransform_inverse_image items raw (_fixes_ n) Hc Hinv) as E.
    destruct (_fixes_ n); exact E. }
  split; [exact Hu|].
  assert (Hs : same_store st
                 (snd (_set_params_transformed k self
                    (match _fixes_ n with
                     | Some m => select (inverse_image items raw) m
                     | None => inverse_image items raw
                     end) st))).
  { unfold _set_params_transformed. rewrite snd_bind. unfold read at 1 2. cbn [fst snd].
    rewrite Hu. eapply set_params_own_values; eauto. }
  split; [exact Hs|].
  destruct Hs as (Hs & _). rewrite (get_params_ext k self st _ Hs). exact Hraw.
Qed.

Lemma set_params_transformed_round_trip_example :
  let st := snd (mixed empty_state) in
  _get_params fuel 0%nat st = Ok [10; 20; 30; 40] /\
  field _fixes_ 0%nat st = Some (Some [true; true; true; false]) /\
  shown 1%nat st = Ok [(LConstraint 1, [0]); (LFixed, [3])] /\
  exists free,
    _get_params_transformed fuel 0%nat st = Ok free /\
    _untransform_params fuel 0%nat free st = Ok [10; 20; 30; 40] /\
    same_store st (snd (_set_params_transformed fuel 0%nat free st)) /\
    _get_params fuel 0%nat (snd (_set_params_transformed fuel 0%nat free st))
    = Ok [10; 20; 30; 40].
Proof.
  cbv zeta. split; [evaluate|]. split; [evaluate|]. split; [evaluate|].
  eapply (set_params_transformed_round_trip Z fuel 2%nat (snd (mixed empty_state)) 0%nat
            _ [10; 20; 30; 40] [(Constraint shift, [0]); (__fixed__, [3])]).
  - evaluate.
  - cbn [wf_tree]. eexists. split; [evaluate|].
    cbv beta iota delta [cls _parameters_]. split.
    + intros c [<-|[<-|[<-|[]]]]; cbn [wf_tree]; eexists; (split; [evaluate|evaluate]).
    + eexists. conjuncts; evaluate.
  - unfold fuel. lia.
  - evaluate.
  - evaluate.
  - evaluate.
  - intros c ind [E|[E|[]]]; [|discriminate].
    injection E as <- <-. intros x. cbv [shift Transformation.f Transformation.finv]. lia.
Defined.


(** What [_set_params_transformed] hands to [_set_params]: on a node whose
    optimizer view is consistent, for every vector [v] of the free-parameter
    length, a vector that has the length of the raw vector and, at every
    position the mask fixes, the raw value that is there. *)
Theorem set_params_transformed_keeps_fixed :
  forall (V : Type) (k : nat) (st : state V) (self : nat) (n : node V)
         (raw : list V) (items : props V) (v : list V),
    nodes st !! self = Some n ->
    _get_params k self st = Ok raw ->
    iteritems k (constraints n) (iops st) = Ok items ->
    consistent raw items (_fixes_ n) = true ->
    length v = match _fixes_ n with Some m => count_true m | None => length raw end ->
    exists y,
      _untransform_params k self v st = Ok y /\
      _set_params_transformed k self v st = _set_params k self y true st /\
      length y = length raw /\
      forall j : nat, fixed_at (_fixes_ n) j = true -> y !! j = raw !! j.
Proof.
  intros V k st self n raw items v Hn Hraw Hit Hc Hv.
  pose proof (untransform_params_value k st self n raw items v Hn Hraw Hit Hc Hv) as Hu.
  eexists. split; [exact Hu|]. split; [|split].
  - unfold _set_params_transformed, bind, read. rewrite Hu. reflexivity.
  - rewrite length_imap. destruct (_fixes_ n) as [m|]; [apply scatter_length|exact Hv].
  - intros j Hj. apply untransform_keeps_fixed; auto.
Qed.

Lemma set_params_transformed_keeps_fixed_example :
  let st := snd (mixed empty_state) in
  _get_params fuel 0%nat st = Ok [10; 20; 30; 40] /\
  field _fixes_ 0%nat st = Some (Some [true; true; true; false]) /\
  _get_params fuel 0%nat (snd (_set_params_transformed fuel 0%nat [1; 2; 3] st))
  = Ok [2; 2; 3; 40] /\
  exists y,
    _untransform_params fuel 0%nat [1; 2; 3] st = Ok y /\
    _set_params_transformed fuel 0%nat [1; 2; 3] st = _set_params fuel 0%nat y true st /\
    length y = length [10; 20; 30; 40] /\
    forall j : nat, fixed_at (Some [true; true; true; false]) j = true ->
                    y !! j = [10; 20; 30; 40] !! j.
Proof.
  cbv zeta. split; [evaluate|]. split; [evaluate|]. split; [evaluate|].
  eapply (set_params_transformed_keeps_fixed Z fuel (snd (mixed empty_state)) 0%nat
            (Node Parameterized 4 None None [3%nat; 6%nat; 9%nat] [(0, 1); (1, 3); (3, 4)]
                  1%nat 2%nat (Some [true; true; true; false])
                  [(Fin (-100), 0%nat, ParametersChanged 0%nat)] [] [] "Parameterized"%string)
            [10; 20; 30; 40] [(Constraint shift, [0]); (__fixed__, [3])] [1; 2; 3]).
  - evaluate.
  - evaluate.
  - evaluate.
  - evaluate.
  - reflexivity.
Defined.

(** C10: on a node that has a parent [_transform_gradients] returns its
    argument and writes nothing into it; on a node without a parent it
    returns the gradient scaled by the transforms' [gradfactor], with the
    tied entries added in and the entries the mask fixes dropped. *)
Theorem transform_gradients_identity_below_root :
  forall (V : Type) (num : Numeric V) (k : nat) (st : state V) (self : nat)
         (n : node V) (g : list V),
    nodes st !! self = Some n ->
    (has_parent n = true -> _transform_gradients k self g st = Ok (g, g)) /\
    (has_parent n = false ->
     _transform_gradients k self g st
     = let* x := _get_params k self st in
       let* items := iteritems k (constraints n) (iops st) in
       let* g1 := scale_gradients items x g in
       let* ps := flattened_parameters k self st in
       let* g2 := add_all_tied k self ps g1 st in
       match _fixes_ n with
       | Some m => let* r := mask_get g2 m in Ok (r, g2)
       | None => Ok (g2, g2)
       end).
Proof.
  intros V num k st self n g Hn. unfold _transform_gradients, node_of.
  rewrite Hn. simpl. split; intros ->; reflexivity.
Qed.

Lemma transform_gradients_identity_below_root_example :
  let st := snd (nested_fixed empty_state) in
  field _direct_parent_ 3%nat st = Some (Some 0%nat) /\
  _transform_gradients fuel 3%nat [5; 7] st = Ok ([5; 7], [5; 7]) /\
  _transform_gradients fuel 0%nat [1; 2; 3; 4] (snd (mixed empty_state))
  = Ok ([2; 2; 3], [2; 2; 3; 4]) /\
  _transform_gradients fuel 0%nat [5; 7] (snd (tied empty_state))
  = Ok ([12; 7], [12; 7]).
Proof.
  cbv zeta. split; [evaluate|]. split; [|split; evaluate].
  refine (proj1 (transform_gradients_identity_below_root Z numeric_Z fuel
                   (snd (nested_fixed empty_state)) 3%nat
                   (Node Parameterized 2 (Some 0%nat) (Some 0%nat) [6%nat] [(0, 2)]
                         11%nat 12%nat None
                         [(Fin (-100), 3%nat, ParametersChanged 3%nat);
                          (NegInf, 0%nat, PassThrough 0%nat)] [] [] "Parameterized"%string)
                   [5; 7] _) _).
  - evaluate.
  - reflexivity.
Defined.

End OptimizerView.

(** ** Which calls can raise HierarchyError *)

Section Calm.
Context {V : Type}.

Lemma calm_obind {A B : Type} (o : outcome A) (k : A -> outcome B) :
  calm o -> (forall a, calm (k a)) -> calm (obind o k).
Proof.
  unfold calm. intros Ho Hk. destruct o; simpl; [apply Hk|].
  intros E. apply Ho. congruence.
Qed.

Lemma calm_omap {A B : Type} (g : A -> outcome B) (l : list A) :
  (forall x, calm (g x)) -> calm (omap g l).
Proof.
  intros H. induction l as [|x l IH]; simpl.
  - discriminate.
  - apply calm_obind; [apply H|]. intros y. apply calm_obind; [exact IH|].
    intros ys. discriminate.
Qed.

Lemma quiet_ret {A : Type} (a : A) : quiet (ret (V:=V) a).
Proof. intros st. discriminate. Qed.

Lemma quiet_bind {A B : Type} (m : M V A) (k : A -> M V B) :
  quiet m -> (forall a, quiet (k a)) -> quiet (bind m k).
Proof.
  intros Hm Hk st. rewrite fst_bind. specialize (Hm st). unfold calm in *.
  destruct (fst (m st)); [apply Hk|]. intros E. apply Hm. congruence.
Qed.

Lemma quiet_read {A : Type} (r : state V -> outcome A) :
  (forall st, calm (r st)) -> quiet (read r).
Proof. intros H st. apply H. Qed.

Lemma quiet_lift {A : Type} (o : outcome A) : calm o -> quiet (lift (V:=V) o).
Proof. intros H st. exact H. Qed.

Lemma quiet_read_ops {A : Type} (r : iheap V -> outcome A) :
  (forall h, calm (r h)) -> quiet (read_ops r).
Proof. intros H st. apply H. Qed.

Lemma quiet_write_ops (w : iheap V -> outcome (iheap V)) :
  (forall h, calm (w h)) -> quiet (write_ops w).
Proof.
  intros H st. unfold write_ops. specialize (H (iops st)).
  unfold calm in *. destruct (w (iops st)); [discriminate|]. simpl.
  intros E. apply H. congruence.
Qed.

Lemma quiet_modify_node o (g : node V -> node V) : quiet (modify_node o g).
Proof. intros st. unfold modify_node. destruct (nodes st !! o); discriminate. Qed.

Lemma calm_node_of o (st : state V) : calm (node_of o st).
Proof. unfold node_of. destruct (nodes st !! o); discriminate. Qed.

Lemma quiet_get_node o : quiet (get_node (V:=V) o).
Proof. apply quiet_read. intros st. apply calm_node_of. Qed.

Lemma quiet_alloc (o : index_ops V) : quiet (alloc o).
Proof. intros st. discriminate. Qed.

Lemma quiet_for_each {A : Type} (l : list A) (body : A -> M V unit) :
  (forall x, quiet (body x)) -> quiet (for_each l body).
Proof.
  intros H. induction l as [|x l IH]; simpl.
  - apply quiet_ret.
  - apply quiet_bind; [apply H|]. intros _. exact IH.
Qed.

End Calm.

(** Takes a goal [calm _] or [quiet _] apart along the structure of the
    computation. *)
Ltac calm_step :=
  match goal with
  | |- calm (Ok _) => discriminate
  | |- calm (Raise _) => discriminate
  | |- calm (obind _ _) => apply calm_obind; [|intros ?]
  | |- calm (omap _ _) => apply calm_omap; intros ?
  | |- calm (node_of _ _) => apply calm_node_of
  | |- calm (match ?x with _ => _ end) => destruct x
  | |- quiet (ret _) => apply quiet_ret
  | |- quiet (raise _) => intros ?; discriminate
  | |- quiet (bind _ _) => apply quiet_bind; [|intros ?]
  | |- quiet (get_node _) => apply quiet_get_node
  | |- quiet (modify_node _ _) => apply quiet_modify_node
  | |- quiet (alloc _) => apply quiet_alloc
  | |- quiet (emit _) => intros ?; discriminate
  | |- quiet (read _) => apply quiet_read; intros ?
  | |- quiet (lift _) => apply quiet_lift
  | |- quiet (read_ops _) => apply quiet_read_ops; intros ?
  | |- quiet (write_ops _) => apply quiet_write_ops; intros ?
  | |- quiet (for_each _ _) => apply quiet_for_each; intros ?
  | |- quiet (match ?x with _ => _ end) => destruct x
  end.

Ltac calm := repeat calm_step.

Section CalmMethods.
Context {V : Type}.
Implicit Types (h : iheap V) (st : state V).

Lemma calm_iteritems k : forall o h, calm (iteritems k o h).
Proof. induction k as [|k IH]; intros o h; simpl; calm. apply IH. Qed.

Lemma calm_getitem k o p h : calm (getitem k o p h).
Proof. unfold getitem. calm. apply calm_iteritems. Qed.

Lemma calm_add k : forall o p ind h, calm (add k o p ind h).
Proof. induction k as [|k IH]; intros o p ind h; simpl; calm. apply IH. Qed.

Lemma calm_remove k : forall o p ind h, calm (remove k o p ind h).
Proof. induction k as [|k IH]; intros o p ind h; simpl; calm. apply IH. Qed.

Lemma calm_shift_left k : forall o s a h, calm (shift_left k o s a h).
Proof. induction k as [|k IH]; intros o s a h; simpl; calm. apply IH. Qed.

Lemma calm_shift_right k : forall o s a h, calm (shift_right k o s a h).
Proof. induction k as [|k IH]; intros o s a h; simpl; calm. apply IH. Qed.

Lemma calm_over_items (step : property V -> list Z -> iheap V -> outcome (iheap V)) items :
  (forall p ind h, calm (step p ind h)) -> forall h, calm (over_items step items h).
Proof.
  intros H. induction items as [|e items IH]; intros h; simpl; calm.
  - apply H.
  - apply IH.
Qed.

Lemma calm_clear k o h : calm (clear k o h).
Proof.
  unfold clear. calm.
  - apply calm_iteritems.
  - apply calm_over_items. intros p ind h'. calm. apply calm_remove.
Qed.

Lemma calm_update k o other offset h : calm (update k o other offset h).
Proof.
  unfold update. calm.
  - apply calm_iteritems.
  - apply calm_over_items. intros p ind h'. apply calm_add.
Qed.

Lemma calm_ones (n : Z) : calm (ones n).
Proof. unfold ones. calm. Qed.

Lemma calm_fill_at {A : Type} (x : A) : forall ind a, calm (fill_at a ind x).
Proof.
  induction ind as [|i ind IH]; intros a; simpl; calm.
  - unfold set_item. calm.
  - apply IH.
Qed.

Lemma calm_list_del {A : Type} (a : list A) (i : nat) : calm (list_del a i).
Proof. unfold list_del. calm. Qed.

Lemma calm_get_original self param st : calm (_get_original self param st).
Proof. unfold _get_original. calm. Qed.

Lemma calm_offset_for k : forall self param st, calm (_offset_for k self param st).
Proof.
  induction k as [|k IH]; intros self param st; simpl; calm;
    try apply calm_get_original; apply IH.
Qed.

End CalmMethods.

Create HintDb calm_db.
#[export] Hint Resolve calm_iteritems calm_getitem calm_add calm_remove calm_shift_left
  calm_shift_right calm_clear calm_update calm_ones calm_fill_at calm_list_del
  calm_get_original calm_offset_for calm_node_of : calm_db.

Ltac calm_all := calm; auto with calm_db.

Section QuietMethods.
Context {V : Type}.

Lemma calm_parameter_names self add_self adjust (st : state V) :
  calm (parameter_names self add_self adjust st).
Proof. unfold parameter_names. calm_all. Qed.

Lemma quiet_setitem_all child : quiet (setitem_all (V:=V) child).
Proof. unfold setitem_all. calm_all. Qed.

Lemma quiet_setattr self name plain : quiet (__setattr__ (V:=V) self name plain).
Proof.
  unfold __setattr__. calm_all; auto using calm_parameter_names, quiet_setitem_all.
Qed.

Lemma quiet_add_observer self observer c p : quiet (add_observer (V:=V) self observer c p).
Proof. unfold add_observer. calm_all. Qed.

Lemma quiet_remove_observer self observer c : quiet (remove_observer (V:=V) self observer c).
Proof. unfold remove_observer. calm_all. Qed.

Lemma quiet_connect_fixes k self : quiet (_connect_fixes (V:=V) k self).
Proof. unfold _connect_fixes. calm_all. Qed.

Lemma quiet_connect_loop self : forall ps i last, quiet (connect_loop (V:=V) self i ps last).
Proof. induction ps as [|p ps IH]; intros i last; simpl; calm_all. Qed.

Lemma quiet_connect_parameters self : quiet (_connect_parameters (V:=V) self).
Proof. unfold _connect_parameters. calm_all. apply quiet_connect_loop. Qed.

Lemma quiet_parent_changed k : forall self parent, quiet (_parent_changed (V:=V) k self parent).
Proof.
  induction k as [|k IH]; intros self parent; simpl; calm_all; apply quiet_setattr.
Qed.

Lemma quiet_notify_parent_change k self : quiet (_notify_parent_change (V:=V) k self).
Proof. unfold _notify_parent_change. calm_all. apply quiet_parent_changed. Qed.

Lemma quiet_disconnect_parent k self : quiet (_disconnect_parent (V:=V) k self).
Proof.
  unfold _disconnect_parent. calm_all.
  - apply quiet_setattr.
  - apply quiet_connect_fixes.
  - apply quiet_notify_parent_change.
Qed.

Lemma quiet_reconnect_ancestors k : forall parent, quiet (reconnect_ancestors (V:=V) k parent).
Proof.
  induction k as [|k IH]; intros [a|]; simpl; calm_all.
  - apply quiet_connect_fixes.
  - apply quiet_connect_parameters.
  - apply quiet_notify_parent_change.
Qed.

Lemma quiet_sizes_of ps : quiet (sizes_of (V:=V) ps).
Proof. unfold sizes_of. calm_all. Qed.

Lemma quiet_remove_parameter k self param : quiet (remove_parameter (V:=V) k self param).
Proof.
  unfold remove_parameter, _remove_parameter_name. calm_all;
    auto using quiet_sizes_of, quiet_connect_parameters, quiet_disconnect_parent,
      quiet_remove_observer, quiet_connect_fixes, quiet_notify_parent_change,
      quiet_reconnect_ancestors, quiet_setattr.
Qed.

End QuietMethods.

Module HierarchyFacts.

Lemma calm_on_parent_chain {V : Type} k : forall self parent (st : state V),
  calm (on_parent_chain k self parent st).
Proof.
  induction k as [|k IH]; intros self [a|] st; simpl; calm_all.
Qed.

(** The part of [add_parameter] that follows the check of the hierarchy. *)
Lemma quiet_attach {V : Type} k self param (index : option Z) (m : M V unit) :
  quiet m ->
  quiet (let! _ := m in
         let! _ :=
           match index with
           | None =>
               let! s0 := get_node self in
               let! p0 := get_node param in
               let! _ := write_ops (update k (constraints s0) (constraints p0) (size s0)) in
               let! s1 := get_node self in
               let! p1 := get_node param in
               let! _ := write_ops (update k (priors s1) (priors p1) (size s1)) in
               let! s2 := get_node self in
               modify_node self (with_parameters (_parameters_ s2 ++ [param]))
           | Some i =>
               let! s0 := get_node self in
               let! szs := sizes_of (prefix (_parameters_ s0) (Some i)) in
               let start := zsum szs in
               let! p0 := get_node param in
               let! _ := write_ops (shift_right k (constraints s0) start (size p0)) in
               let! s1 := get_node self in
               let! p1 := get_node param in
               let! _ := write_ops (shift_right k (priors s1) start (size p1)) in
               let! s2 := get_node self in
               let! p2 := get_node param in
               let! _ := write_ops (update k (constraints s2) (constraints p2) start) in
               let! s3 := get_node self in
               let! p3 := get_node param in
               let! _ := write_ops (update k (priors s3) (priors p3) start) in
               let! s4 := get_node self in
               modify_node self (with_parameters (list_insert (_parameters_ s4) i param))
           end in
         let! _ := add_observer param self (PassThrough self) NegInf in
         let! s5 := get_node self in
         let! p5 := get_node param in
         let! _ := __setattr__ self "size"%string (with_size (size s5 + size p5)) in
         let! _ := _connect_parameters self in
         let! _ := _notify_parent_change k self in
         _connect_fixes k self).
Proof.
  intros Hm. apply quiet_bind; [exact Hm|]. intros _. cbv zeta.
  calm_all; auto using quiet_sizes_of, quiet_add_observer, quiet_connect_parameters,
    quiet_notify_parent_change, quiet_connect_fixes, quiet_setattr.
Qed.

(** The one [raise HierarchyError]: a call of [add_parameter] that is no
    reposition (the node is not yet a child of [self], or no index is given)
    ends in [HierarchyError] exactly when the node is not a child of [self],
    has a parent, and [self] is met on the chain of parents that starts
    there; the state is then the one before the call.  Attaching a child
    once more without an index raises [RuntimeError], again with the state
    as before. *)
Theorem add_parameter_hierarchy_error :
  forall (V : Type) (k : nat) (st : state V) (self param : nat) (index : option Z)
         (n : node V),
    nodes st !! self = Some n ->
    mem_nat param (_parameters_ n) = false \/ index = None ->
    (forall st',
        add_parameter (S k) self param index st = (Raise HierarchyError, st') <->
        (mem_nat param (_parameters_ n) = false /\
         exists pn dp,
           nodes st !! param = Some pn /\ _direct_parent_ pn = Some dp /\
           on_parent_chain k self (Some dp) st = Ok true) /\
        st' = st) /\
    (mem_nat param (_parameters_ n) = true ->
     add_parameter (S k) self param index st = (Raise RuntimeError, st)).
Proof.
  intros V k st self param index n Hn Hcase. split.
  2:{ intros Hm. destruct Hcase as [Hc| ->]; [congruence|].
      cbn [add_parameter]. unfold bind at 1.
      unfold get_node at 1, read at 1, node_of at 1. rewrite Hn, Hm. reflexivity. }
  intros st'. cbn [add_parameter]. unfold bind at 1.
  unfold get_node at 1, read at 1, node_of at 1. rewrite Hn.
  destruct (mem_nat param (_parameters_ n)) eqn:Hm.
  { destruct Hcase as [Hc| ->]; [discriminate|]. cbn [andb negb]. split.
    - intros H. discriminate H.
    - intros ((H & _) & _). discriminate H. }
  cbn [andb negb].
  unfold bind at 1. unfold get_node at 1, read at 1, node_of at 1.
  destruct (nodes st !! param) as [pn|] eqn:Hp.
  2:{ split; [intros H; discriminate H|].
      intros ((_ & pn & dp & H & _) & _). discriminate H. }
  destruct (_direct_parent_ pn) as [dp|] eqn:Hdp.
  2:{ split.
      - intros H. exfalso.
        apply (quiet_attach k self param index (ret tt) (quiet_ret tt) st).
        exact (f_equal fst H).
      - intros ((_ & pn' & dp & H1 & H2 & _) & _).
        injection H1 as <-. rewrite Hdp in H2. discriminate H2. }
  unfold bind at 1. unfold bind at 1. unfold read at 1.
  destruct (on_parent_chain k self (Some dp) st) as [[|]|e] eqn:Hchain.
  - split.
    + intros H. injection H as <-. split; [|reflexivity].
      split; [reflexivity|]. exists pn, dp. auto.
    + intros (_ & ->). reflexivity.
  - split.
    + intros H. exfalso.
      apply (quiet_attach k self param index
               (let! pn' := get_node param in
                match _direct_parent_ pn' with
                | Some dp' => remove_parameter k dp' param
                | None => raise AttributeError
                end)) with (st := st); [|exact (f_equal fst H)].
      calm_all. apply quiet_remove_parameter.
    + intros ((_ & pn' & dp' & H1 & H2 & H3) & _).
      injection H1 as <-. rewrite Hdp in H2. injection H2 as <-.
      rewrite Hchain in H3. discriminate H3.
  - split.
    + intros H. injection H as -> _.
      exfalso. apply (calm_on_parent_chain k self (Some dp) st). exact Hchain.
    + intros ((_ & pn' & dp' & H1 & H2 & H3) & _).
      injection H1 as <-. rewrite Hdp in H2. injection H2 as <-.
      rewrite Hchain in H3. discriminate H3.
Qed.

Lemma add_parameter_hierarchy_error_example :
  let st := snd (Scenario.nested_bottom_up empty_state) in
  let root := Node Parameterized 2 None None [3%nat] [(0, 2)] 1%nat 2%nat None
                   [(Fin (-100), 0%nat, ParametersChanged 0%nat)] ([] : list Z) []
                   "Parameterized"%string in
  nodes st !! 0%nat = Some root /\
  mem_nat 6%nat (_parameters_ root) = false /\
  add_parameter 24 0%nat 6%nat None st = (Raise HierarchyError, st) /\
  add_parameter 24 0%nat 3%nat None st = (Raise RuntimeError, st).
Proof.
  cbv zeta.
  assert (Hn : nodes (snd (Scenario.nested_bottom_up empty_state)) !! 0%nat
               = Some (Node Parameterized 2 None None [3%nat] [(0, 2)] 1%nat 2%nat None
                            [(Fin (-100), 0%nat, ParametersChanged 0%nat)] ([] : list Z) []
                            "Parameterized"%string))
    by (vm_compute; reflexivity).
  split; [exact Hn|]. split; [reflexivity|]. split.
  - destruct (add_parameter_hierarchy_error Z 23 _ 0%nat 6%nat None _ Hn
                (or_intror eq_refl)) as [Hiff _].
    apply Hiff. split; [|reflexivity]. split; [reflexivity|].
    eexists _, 3%nat. split; [vm_compute; reflexivity|].
    split; [reflexivity|]. vm_compute. reflexivity.
  - destruct (add_parameter_hierarchy_error Z 23 _ 0%nat 3%nat None _ Hn
                (or_intror eq_refl)) as [_ Hrt].
    apply Hrt. reflexivity.
Defined.

(** C6, at a failing input: [P] holds the container [D], so
    [D.add_parameter(P)] would make [P] its own descendant.  The call is not
    refused: whatever the step budget, it does not end in [HierarchyError]
    -- the walk up the parents starts at [P], which has none.  It enters [P]
    among the children of [D] and makes [D] the parent of [P], so that each
    is the other's parent, and the walk of [_parent_changed] down the
    children then does not come back: the budget of the scenarios runs out
    with both nodes changed. *)
Lemma attach_under_own_descendant_not_refused :
  let before := snd (Scenario.two_containers empty_state) in
  let call := add_parameter Scenario.fuel 3%nat 0%nat None before in
  fst (Scenario.two_containers empty_state) = Ok tt /\
  field _parameters_ 0%nat before = Some [3%nat] /\
  field _direct_parent_ 3%nat before = Some (Some 0%nat) /\
  field _direct_parent_ 0%nat before = Some None /\
  (forall k, fst (add_parameter k 3%nat 0%nat None before) <> Raise HierarchyError) /\
  fst call = Raise OutOfFuel /\
  field _parameters_ 3%nat (snd call) = Some [0%nat] /\
  field _direct_parent_ 0%nat (snd call) = Some (Some 3%nat) /\
  field _direct_parent_ 3%nat (snd call) = Some (Some 0%nat).
Proof.
  cbv zeta.
  split; [vm_compute; reflexivity|]. split; [vm_compute; reflexivity|].
  split; [vm_compute; reflexivity|].
  assert (Hroot : field _direct_parent_ 0%nat (snd (Scenario.two_containers empty_state))
                  = Some None) by (vm_compute; reflexivity).
  split; [exact Hroot|]. split.
  - intros [|k] H; [discriminate H|].
    assert (Hc : field cls 3%nat (snd (Scenario.two_containers empty_state))
                 = Some Parameterized) by (vm_compute; reflexivity).
    unfold field in Hc.
    destruct (nodes (snd (Scenario.two_containers empty_state)) !! 3%nat) as [n|] eqn:Hn;
      [|discriminate Hc].
    destruct (add_parameter_hierarchy_error Z k _ 3%nat 0%nat None n Hn
                (or_intror eq_refl)) as [Hiff _].
    destruct (add_parameter (S k) 3%nat 0%nat None
                (snd (Scenario.two_containers empty_state))) as [o st'] eqn:Hcall.
    simpl in H. subst o.
    destruct (proj1 (Hiff st') eq_refl) as ((_ & pn & dp & Hpn & Hdp & _) & _).
    unfold field in Hroot. rewrite Hpn in Hroot. simpl in Hroot.
    rewrite Hdp in Hroot. discriminate Hroot.
  - split; [vm_compute; reflexivity|]. split; [vm_compute; reflexivity|].
    split; vm_compute; reflexivity.
Qed.

End HierarchyFacts.

Section ShapeFacts.
Context {V : Type}.
Implicit Types (st : state V) (n : node V).

Lemma same_node_refl n : same_node n n.
Proof. unfold same_node. rewrite with_values_same. auto. Qed.

Lemma same_node_trans n1 n2 n3 : same_node n1 n2 -> same_node n2 n3 -> same_node n1 n3.
Proof.
  unfold same_node. intros (E1 & L1) (E2 & L2). split; [|congruence].
  rewrite E2, E1. destruct n1; reflexivity.
Qed.

Lemma same_node_fields n n' :
  same_node n n' ->
  cls n' = cls n /\ size n' = size n /\ _parameters_ n' = _parameters_ n /\
  _param_slices_ n' = _param_slices_ n /\
  _observer_callables_ n' = _observer_callables_ n.
Proof. intros (-> & _). destruct n; simpl; auto. Qed.

Lemma same_shape_refl st : same_shape st st.
Proof. intros x. destruct (nodes st !! x); auto. apply same_node_refl. Qed.

Lemma same_shape_trans st1 st2 st3 :
  same_shape st1 st2 -> same_shape st2 st3 -> same_shape st1 st3.
Proof.
  intros H1 H2 x. specialize (H1 x). specialize (H2 x).
  destruct (nodes st1 !! x), (nodes st2 !! x), (nodes st3 !! x); try contradiction; auto.
  eapply same_node_trans; eauto.
Qed.

Lemma same_store_shape st st' : same_store st st' -> same_shape st st'.
Proof. intros (H & _) x. rewrite H. destruct (nodes st !! x); auto. apply same_node_refl. Qed.

Lemma same_shape_lookup st st' x n :
  same_shape st st' -> nodes st !! x = Some n ->
  exists n', nodes st' !! x = Some n' /\ same_node n n'.
Proof.
  intros H Hn. specialize (H x). rewrite Hn in H.
  destruct (nodes st' !! x) as [n'|]; [eauto|contradiction].
Qed.

Lemma same_shape_child_sizes st st' ps :
  same_shape st st' -> child_sizes ps st' = child_sizes ps st.
Proof.
  intros H. unfold child_sizes. apply omap_ext. intros x _. unfold node_of.
  specialize (H x). destruct (nodes st !! x) as [n|], (nodes st' !! x) as [n'|];
    try contradiction; auto.
  simpl. apply same_node_fields in H as (_ & -> & _). reflexivity.
Qed.

Lemma same_shape_leaves d : forall o st st',
  same_shape st st' -> leaves d o st' = leaves d o st.
Proof.
  induction d as [|d IH]; intros o st st' H; simpl; auto.
  pose proof (H o) as Ho.
  destruct (nodes st !! o) as [n|], (nodes st' !! o) as [n'|]; try contradiction; auto.
  apply same_node_fields in Ho as (-> & _ & -> & _).
  destruct (cls n); auto. f_equal. apply map_ext. intros c. apply IH. exact H.
Qed.

Lemma same_shape_wf_tree d : forall o st st',
  same_shape st st' -> wf_tree d o st -> wf_tree d o st'.
Proof.
  induction d as [|d IH]; intros o st st' H; simpl; auto.
  intros (n & Hn & Hw).
  destruct (same_shape_lookup st st' o n H Hn) as (n' & Hn' & Hs).
  exists n'. split; [exact Hn'|].
  pose proof Hs as (_ & Hl).
  apply same_node_fields in Hs as (-> & -> & -> & -> & _).
  destruct (cls n).
  - unfold len in *. rewrite Hl. exact Hw.
  - destruct Hw as (Hc & szs & Hsz & Hz & Hsl). split.
    + intros c Hin. eapply IH; eauto.
    + exists szs. rewrite (same_shape_child_sizes st st' _ H). auto.
Qed.

Lemma wf_tree_nonneg d : forall o st n,
  wf_tree d o st -> nodes st !! o = Some n -> 0 <= size n.
Proof.
  intros o st n Hw Hn.
  destruct (wf_tree_get_params d o st d Hw (Nat.le_refl d)) as (n' & raw & Hn' & _ & Hl).
  rewrite Hn in Hn'. injection Hn' as <-. rewrite <- Hl. apply len_nonneg.
Qed.

End ShapeFacts.

Section FrameFacts.
Context {V : Type}.
Implicit Types (st : state V) (n : node V).

Lemma touches_only_refl L st : touches_only L st st.
Proof. split; [apply same_shape_refl|auto]. Qed.

Lemma touches_only_trans L st1 st2 st3 :
  touches_only L st1 st2 -> touches_only L st2 st3 -> touches_only L st1 st3.
Proof.
  intros (S1 & F1) (S2 & F2). split; [eapply same_shape_trans; eauto|].
  intros x Hx. rewrite F2, F1; auto.
Qed.

Lemma touches_only_incl L L' st st' :
  (forall x, In x L -> In x L') -> touches_only L st st' -> touches_only L' st st'.
Proof. intros Hi (S1 & F1). split; auto. Qed.

Lemma same_store_touches L st st' : same_store st st' -> touches_only L st st'.
Proof.
  intros H. split; [apply same_store_shape; exact H|].
  destruct H as (H & _). intros x _. rewrite H. reflexivity.
Qed.

Lemma leaves_child d o st n c x :
  nodes st !! o = Some n -> cls n = Parameterized -> In c (_parameters_ n) ->
  In x (leaves d c st) -> In x (leaves (S d) o st).
Proof.
  intros Hn Hc Hin Hx. simpl. rewrite Hn, Hc.
  apply in_concat. exists (leaves d c st). split; [|exact Hx].
  apply in_map_iff. exists c. auto.
Qed.

(** [_set_params] changes nothing but the buffers of the leaves under the
    node it is called on. *)
Lemma set_params_frame d : forall o st k y tp,
  wf_tree d o st -> (d <= k)%nat ->
  touches_only (leaves d o st) st (snd (_set_params k o y tp st)).
Proof.
  induction d as [|d IH]; intros o st k y tp Hw Hk; [contradiction|].
  destruct k as [|k]; [lia|].
  pose proof Hw as Hw0. simpl in Hw. destruct Hw as (n & Hn & Hw).
  cbn [_set_params]. rewrite snd_bind. unfold get_node at 1, read at 1. cbn [fst snd].
  unfold node_of at 1. rewrite Hn.
  rewrite snd_bind. rewrite !get_node_state.
  match goal with
  | |- touches_only ?L _ (match fst (?branch st) with _ => _ end) =>
      assert (Hb : touches_only L st (snd (branch st)))
  end.
  2:{ match goal with
      | |- touches_only _ _ (match ?x with _ => _ end) => destruct x
      end; [|exact Hb].
      eapply touches_only_trans; [exact Hb|].
      apply same_store_touches. apply notify_observers_same_store. }
  destruct (cls n) eqn:Hcls.
  - simpl. rewrite Hn, Hcls.
    destruct (Nat.eqb_spec (length y) (length (values n))) as [El|El].
    2:{ apply touches_only_refl. }
    unfold modify_node. rewrite Hn. simpl. split.
    + intros x. simpl. destruct (Nat.eq_dec x o) as [->|Hx].
      * rewrite Hn, lookup_insert_eq. split; [|exact El]. destruct n; reflexivity.
      * rewrite lookup_insert_ne by auto. destruct (nodes st !! x); auto.
        apply same_node_refl.
    + intros x Hx. simpl. rewrite lookup_insert_ne; auto.
      intros ->. apply Hx. left. reflexivity.
  - destruct Hw as (Hch & _).
    apply (for_each_keeps
             (fun s1 s2 => same_shape st s1 -> touches_only (leaves (S d) o st) s1 s2)).
    + intros s _. apply touches_only_refl.
    + intros s1 s2 s3 H12 H23 H1. pose proof (H12 H1) as H2.
      eapply touches_only_trans; [exact H2|]. apply H23.
      eapply same_shape_trans; [exact H1|]. apply H2.
    + intros [c [a b]] s Hin Hs. cbn [fst snd].
      apply in_combine_l in Hin.
      eapply touches_only_incl; [|apply IH].
      * intros x Hx. rewrite (same_shape_leaves d c st s Hs) in Hx.
        eapply leaves_child; eauto.
      * eapply same_shape_wf_tree; eauto.
      * lia.
    + apply same_shape_refl.
Qed.

(** The raw vector of a subtree depends on the tree and on the buffers of
    its leaves only. *)
Lemma get_params_local d : forall o st st' k,
  wf_tree d o st -> (d <= k)%nat -> same_shape st st' ->
  (forall x, In x (leaves d o st) -> nodes st' !! x = nodes st !! x) ->
  _get_params k o st' = _get_params k o st.
Proof.
  induction d as [|d IH]; intros o st st' k Hw Hk Hs Hl; [contradiction|].
  destruct k as [|k]; [lia|].
  simpl in Hw. destruct Hw as (n & Hn & Hw).
  destruct (same_shape_lookup st st' o n Hs Hn) as (n' & Hn' & Hsn).
  simpl. unfold node_of at 1 3. rewrite Hn, Hn'. simpl.
  pose proof (same_node_fields n n' Hsn) as (Hc & Hsz & Hp & _).
  rewrite Hc, Hsz, Hp.
  destruct (cls n) eqn:Hcls.
  - assert (Ho : In o (leaves (S d) o st)).
    { cbn [leaves]. rewrite Hn, Hcls. left. reflexivity. }
    specialize (Hl o Ho). rewrite Hn, Hn' in Hl. injection Hl as ->.
    reflexivity.
  - destruct (size n =? 0); auto. f_equal.
    destruct Hw as (Hch & _).
    apply omap_ext. intros c Hin. unfold node_of.
    pose proof (Hch c Hin) as Hwc.
    assert (exists cn, nodes st !! c = Some cn) as (cn & Hcn).
    { destruct d; [contradiction|]. simpl in Hwc. destruct Hwc as (cn & Hcn & _). eauto. }
    destruct (same_shape_lookup st st' c cn Hs Hcn) as (cn' & Hcn' & Hscn).
    rewrite Hcn, Hcn'. simpl.
    apply same_node_fields in Hscn as (_ & -> & _).
    destruct (0 <? size cn); auto.
    rewrite (IH c st st' k); auto; [lia|].
    intros x Hx. apply Hl. eapply leaves_child; eauto.
Qed.

End FrameFacts.

Section SliceFacts.
Context {A : Type}.
Implicit Types (y : list A).

Lemma slice_as_take_drop y (a b : Z) :
  0 <= a <= b -> b <= len y ->
  slice y a b = take (Z.to_nat (b - a)) (drop (Z.to_nat a) y).
Proof.
  intros H1 H2. unfold slice. rewrite !clamp_in_range by lia.
  f_equal. lia.
Qed.

Lemma slice_len y (a b : Z) : 0 <= a <= b -> b <= len y -> len (slice y a b) = b - a.
Proof.
  intros H1 H2. rewrite slice_as_take_drop by assumption.
  unfold len in *. rewrite length_take, length_drop. lia.
Qed.

Lemma slice_app y (a b c : Z) :
  0 <= a <= b -> b <= c -> c <= len y -> slice y a b ++ slice y b c = slice y a c.
Proof.
  intros H1 H2 H3. rewrite !slice_as_take_drop by lia.
  replace (drop (Z.to_nat b) y) with (drop (Z.to_nat (b - a)) (drop (Z.to_nat a) y)).
  2:{ rewrite drop_drop. f_equal. lia. }
  rewrite take_take_drop. f_equal. lia.
Qed.

Lemma slice_all y : slice y 0 (len y) = y.
Proof.
  pose proof (len_nonneg y). rewrite slice_as_take_drop by lia.
  simpl. apply take_ge. unfold len. lia.
Qed.

Lemma slice_empty y (a : Z) : 0 <= a <= len y -> slice y a a = [].
Proof.
  intros H. apply len_zero_nil. rewrite slice_len by lia. lia.
Qed.

End SliceFacts.

Section SetGetFacts.
Context {V : Type}.
Implicit Types (st : state V) (n : node V) (y : list V).

Lemma set_children_frame d k y (cs : list nat) : forall sls st,
  (d <= k)%nat -> (forall c, In c cs -> wf_tree d c st) ->
  touches_only (concat (map (fun c => leaves d c st) cs)) st
               (snd (set_children k y (combine cs sls) st)).
Proof.
  intros sls st Hk Hw. unfold set_children.
  apply (for_each_keeps
           (fun s1 s2 => same_shape st s1 ->
                         touches_only (concat (map (fun c => leaves d c st) cs)) s1 s2)).
  - intros s _. apply touches_only_refl.
  - intros s1 s2 s3 H12 H23 H1. pose proof (H12 H1) as H2.
    eapply touches_only_trans; [exact H2|]. apply H23.
    eapply same_shape_trans; [exact H1|]. apply H2.
  - intros [c [a b]] s Hin Hs. cbn [fst snd]. apply in_combine_l in Hin.
    eapply touches_only_incl; [|apply (set_params_frame d)].
    + intros x Hx. rewrite (same_shape_leaves d c st s Hs) in Hx.
      apply in_concat. exists (leaves d c st). split; [|exact Hx].
      apply in_map_iff. exists c. auto.
    + eapply same_shape_wf_tree; eauto.
    + exact Hk.
  - apply same_shape_refl.
Qed.

Lemma child_sizes_cons c cs st szs :
  child_sizes (c :: cs) st = Ok szs ->
  exists cn szs', nodes st !! c = Some cn /\ szs = size cn :: szs' /\
                  child_sizes cs st = Ok szs'.
Proof.
  unfold child_sizes. simpl. unfold node_of at 1.
  destruct (nodes st !! c) as [cn|]; simpl; [|discriminate].
  destruct (omap _ cs) as [szs'|]; simpl; [|discriminate].
  intros [= <-]. eauto.
Qed.

Lemma child_sizes_nonneg d cs : forall st szs,
  (forall c, In c cs -> wf_tree d c st) -> child_sizes cs st = Ok szs ->
  Forall (fun s => 0 <= s) szs.
Proof.
  induction cs as [|c cs IH]; intros st szs Hw Hs.
  - injection Hs as <-. constructor.
  - apply child_sizes_cons in Hs as (cn & szs' & Hcn & -> & Hs').
    constructor.
    + eapply wf_tree_nonneg; [apply Hw; left; reflexivity|exact Hcn].
    + eapply IH; eauto. intros c' Hc'. apply Hw. right. exact Hc'.
Qed.

Lemma zsum_nonneg szs : Forall (fun s => 0 <= s) szs -> 0 <= zsum szs.
Proof. induction 1; simpl; lia. Qed.

(** When every child holds its slice of [y], gathering the children gives
    back the part of [y] that the slices cover. *)
Lemma gather_slices k y st (cs : list nat) : forall szs s0,
  child_sizes cs st = Ok szs -> Forall (fun s => 0 <= s) szs ->
  0 <= s0 -> s0 + zsum szs <= len y ->
  Forall2 (fun c sl => _get_params k c st = Ok (slice y (fst sl) (snd sl)))
          cs (slices_from s0 szs) ->
  exists parts,
    omap (fun x => let* c := node_of x st in
                   if 0 <? size c then let* v := _get_params k x st in Ok [v]
                   else Ok []) cs = Ok parts /\
    concat (concat parts) = slice y s0 (s0 + zsum szs) /\
    (concat parts = [] -> zsum szs = 0).
Proof.
  induction cs as [|c cs IH]; intros szs s0 Hs Hnn H0 Hle Hf.
  - injection Hs as <-. exists []. simpl. split; [reflexivity|]. split; [|auto].
    rewrite Z.add_0_r. symmetry. apply slice_empty. simpl in Hle. lia.
  - apply child_sizes_cons in Hs as (cn & szs' & Hcn & -> & Hs').
    inversion Hnn as [|? ? Hsz Hnn']; subst.
    simpl in Hf. inversion Hf as [|? ? ? ? Hg Hf']; subst. simpl in Hg.
    pose proof (zsum_nonneg szs' Hnn') as Hz. simpl in Hle.
    destruct (IH szs' (size cn + s0) Hs' Hnn') as (parts & Hp & Hcc & Hnil); auto; try lia.
    simpl. unfold node_of at 1. rewrite Hcn. simpl.
    destruct (Z.ltb_spec 0 (size cn)).
    + rewrite Hg. simpl. rewrite Hp. simpl. eexists. split; [reflexivity|].
      simpl. split; [|discriminate].
      rewrite Hcc. rewrite slice_app by lia. f_equal. lia.
    + rewrite Hp. simpl. eexists. split; [reflexivity|]. simpl.
      assert (size cn = 0) by lia. split.
      * rewrite Hcc. f_equal; lia.
      * intros E. specialize (Hnil E). lia.
Qed.

End SetGetFacts.

Section SetThenGet.
Context {V : Type}.
Implicit Types (st : state V) (n : node V) (y : list V).

Lemma for_each_cons_ok {A : Type} (x : A) (l : list A) (body : A -> M V unit) st :
  fst (for_each (x :: l) body st) = Ok tt ->
  fst (body x st) = Ok tt /\
  fst (for_each l body (snd (body x st))) = Ok tt /\
  snd (for_each (x :: l) body st) = snd (for_each l body (snd (body x st))).
Proof.
  simpl. rewrite fst_bind, snd_bind.
  destruct (fst (body x st)) as [[]|e]; [auto|discriminate].
Qed.

(** After the loop over the children every child holds its slice. *)
Lemma set_children_then_get d k y (cs : list nat) :
  sets_raw (V:=V) d k -> (d <= k)%nat ->
  forall szs s0 st,
    (forall c, In c cs -> wf_tree d c st) ->
    NoDup (concat (map (fun c => leaves d c st) cs)) ->
    child_sizes cs st = Ok szs ->
    0 <= s0 -> s0 + zsum szs <= len y ->
    fst (set_children k y (combine cs (slices_from s0 szs)) st) = Ok tt ->
    Forall2 (fun c sl =>
               _get_params k c (snd (set_children k y (combine cs (slices_from s0 szs)) st))
               = Ok (slice y (fst sl) (snd sl)))
            cs (slices_from s0 szs).
Proof.
  intros IHd Hk. induction cs as [|c cs IH]; intros szs s0 st Hw Hnd Hs H0 Hle Hok.
  - injection Hs as <-. constructor.
  - pose proof (child_sizes_nonneg d _ st szs Hw Hs) as Hnn.
    apply child_sizes_cons in Hs as (cn & szs' & Hcn & -> & Hs').
    inversion Hnn as [|? ? Hsz Hnn']; subst.
    pose proof (zsum_nonneg szs' Hnn') as Hz. simpl in Hle.
    simpl in Hnd. apply NoDup_app in Hnd as (Hnd1 & Hdis & Hnd2).
    cbn [slices_from combine] in *. unfold set_children in *.
    apply for_each_cons_ok in Hok as (Hok1 & Hok2 & ->). cbn [fst snd] in *.
    set (st1 := snd (_set_params k c (slice y s0 (size cn + s0)) false st)) in *.
    assert (Hwc : wf_tree d c st) by (apply Hw; left; reflexivity).
    pose proof (set_params_frame d c st k (slice y s0 (size cn + s0)) false Hwc Hk) as Hfr.
    fold st1 in Hfr. destruct Hfr as (Hsh & _).
    assert (Hg1 : _get_params k c st1 = Ok (slice y s0 (size cn + s0))).
    { apply (IHd c st _ false cn); auto. rewrite slice_len by lia. lia. }
    assert (Hw1 : forall c', In c' cs -> wf_tree d c' st1).
    { intros c' Hc'. eapply same_shape_wf_tree; [exact Hsh|]. apply Hw. right. exact Hc'. }
    assert (Hl1 : map (fun c => leaves d c st1) cs = map (fun c => leaves d c st) cs).
    { apply map_ext. intros c'. apply same_shape_leaves. exact Hsh. }
    constructor.
    + cbn [fst snd].
      pose proof (set_children_frame d k y cs (slices_from (size cn + s0) szs') st1 Hk Hw1)
        as (Hsh2 & Hfr2).
      unfold set_children in Hsh2, Hfr2.
      rewrite (get_params_local d c st1 _ k); auto.
      * eapply same_shape_wf_tree; eauto.
      * intros x Hx. apply Hfr2. rewrite Hl1.
        rewrite (same_shape_leaves d c st st1 Hsh) in Hx.
        apply list_elem_of_In in Hx. specialize (Hdis x Hx).
        intros Hin. apply Hdis. apply list_elem_of_In. exact Hin.
    + apply IH; auto; try lia.
      * rewrite Hl1. exact Hnd2.
      * rewrite (same_shape_child_sizes st st1 cs Hsh). exact Hs'.
Qed.

End SetThenGet.

Section SetThenGetMain.
Context {V : Type}.
Implicit Types (st : state V) (n : node V) (y : list V).

Lemma hstack_nonempty (parts : list (list V)) :
  parts <> [] -> hstack parts = Ok (concat parts).
Proof. destruct parts; [contradiction|reflexivity]. Qed.

(** On a consistent subtree without a repeated leaf, a call of [_set_params]
    that returns leaves the assigned vector as the raw vector. *)
Lemma set_then_get d : forall k, (d <= k)%nat -> sets_raw (V:=V) d k.
Proof.
  induction d as [|d IH]; intros k Hk o st y tp n Hw Hnd Hn Hlen Hok; [contradiction|].
  destruct k as [|k]; [lia|].
  assert (IHd : sets_raw (V:=V) d k) by (apply IH; lia).
  pose proof Hw as Hw0. cbn [wf_tree] in Hw. destruct Hw as (n' & Hn' & Hw).
  rewrite Hn in Hn'. injection Hn' as <-.
  revert Hok. cbn [_set_params]. rewrite fst_bind, snd_bind.
  unfold get_node at 1 2 3, read at 1 2 3. cbn [fst snd].
  unfold node_of at 1 2. rewrite Hn.
  rewrite fst_bind, snd_bind. rewrite !get_node_state.
  match goal with
  | |- match fst (?branch st) with _ => _ end = _ -> _ =>
      set (b := branch st)
  end.
  destruct (fst b) as [[]|e] eqn:Hb; [|discriminate]. intros _.
  match goal with
  | |- _get_params _ _ (snd (_notify_observers ?a1 ?a2 ?a3 ?a4 ?a5)) = _ =>
      rewrite (get_params_ext (S k) o (snd b) (snd (_notify_observers a1 a2 a3 a4 a5)))
        by apply notify_observers_same_store
  end.
  subst b. destruct (cls n) eqn:Hcls.
  - destruct (Nat.eqb_spec (length y) (length (values n))) as [El|El];
      [|discriminate Hb].
    unfold modify_node. rewrite Hn. cbn [snd _get_params]. unfold node_of. cbn [nodes].
    rewrite lookup_insert_eq. simpl. rewrite Hcls. reflexivity.
  - destruct Hw as (Hch & szs & Hsz & Hz & Hsl).
    rewrite Hsl in *.
    fold (set_children k y (combine (_parameters_ n) (slices_from 0 szs))) in *.
    assert (Hnd' : NoDup (concat (map (fun c => leaves d c st) (_parameters_ n)))).
    { cbn [leaves] in Hnd. rewrite Hn, Hcls in Hnd. exact Hnd. }
    assert (Hle : 0 + zsum szs <= len y) by lia.
    pose proof (set_children_then_get d k y (_parameters_ n) IHd ltac:(lia) szs 0 st
                  Hch Hnd' Hsz ltac:(lia) Hle Hb) as Hf.
    pose proof (set_children_frame d k y (_parameters_ n) (slices_from 0 szs) st
                  ltac:(lia) Hch) as (Hsh & _).
    set (stb := snd (set_children k y (combine (_parameters_ n) (slices_from 0 szs)) st)) in *.
    destruct (same_shape_lookup st stb o n Hsh Hn) as (nb & Hnb & Hsn).
    apply same_node_fields in Hsn as (Hc1 & Hc2 & Hc3 & _).
    cbn [_get_params]. unfold node_of at 1. rewrite Hnb. simpl.
    rewrite Hc1, Hc2, Hc3, Hcls.
    destruct (Z.eqb_spec (size n) 0) as [E|E].
    + f_equal. symmetry. apply len_zero_nil. lia.
    + pose proof (child_sizes_nonneg d _ st szs Hch Hsz) as Hnn.
      destruct (gather_slices k y stb (_parameters_ n) szs 0) as (parts & Hp & Hcc & Hnil);
        auto; try lia.
      { rewrite (same_shape_child_sizes st stb _ Hsh). exact Hsz. }
      rewrite Hp. simpl. rewrite hstack_nonempty.
      * rewrite Hcc. f_equal. replace (0 + zsum szs) with (len y) by lia.
        apply slice_all.
      * intros Ep. apply Hnil in Ep. lia.
Qed.

End SetThenGetMain.


Section NotifyFacts.
Context {V : Type}.
Implicit Types (st : state V) (n : node V).

Lemma same_node_sym n n' : same_node n n' -> same_node n' n.
Proof.
  intros (E & L). split; [|congruence]. rewrite E. destruct n; reflexivity.
Qed.

Lemma same_shape_sym st st' : same_shape st st' -> same_shape st' st.
Proof.
  intros H x. specialize (H x).
  destruct (nodes st !! x), (nodes st' !! x); auto. apply same_node_sym. exact H.
Qed.

(** Loops whose steps answer alike on states of the same shape end alike
    on them. *)
Lemma for_each_same_outcome {A : Type} (l : list A) (body : A -> M V unit) :
  (forall x s s', In x l -> same_shape s s' -> fst (body x s') = fst (body x s)) ->
  (forall x s, In x l -> same_store s (snd (body x s))) ->
  forall st st', same_shape st st' ->
                 fst (for_each l body st') = fst (for_each l body st).
Proof.
  induction l as [|x l IH]; intros Hf Hs st st' Hsh; simpl; auto.
  rewrite !fst_bind. rewrite (Hf x st st') by (auto; left; reflexivity).
  destruct (fst (body x st)); auto.
  apply IH.
  - intros y s s' Hy. apply Hf. right. exact Hy.
  - intros y s Hy. apply Hs. right. exact Hy.
  - eapply same_shape_trans; [apply same_shape_sym, same_store_shape, Hs; left; reflexivity|].
    eapply same_shape_trans; [exact Hsh|].
    apply same_store_shape, Hs. left. reflexivity.
Qed.

(** How a notification ends depends on the registries, not on the
    buffers. *)
Lemma notify_observers_same_outcome k : forall x w m st st',
  same_shape st st' ->
  fst (_notify_observers k x w m st') = fst (_notify_observers k x w m st).
Proof.
  induction k as [|k IH]; intros x w m st st' Hsh; simpl; auto.
  rewrite !fst_bind. unfold get_node, read. cbn [fst snd]. unfold node_of.
  pose proof (Hsh x) as Hx.
  destruct (nodes st !! x) as [n|], (nodes st' !! x) as [n'|]; try contradiction; auto.
  apply same_node_fields in Hx as (_ & _ & _ & _ & ->).
  apply for_each_same_outcome; auto.
  - intros [c u] s s' _ Hs. cbn [fst snd]. destruct c; auto.
  - intros [c u] s _. cbn [fst snd]. destruct c.
    + apply notify_observers_same_store.
    + apply emit_same_store.
    + apply emit_same_store.
Qed.

Lemma scan_above m (l : list entry) :
  Forall (fun e => prio_ltb m (prio e) = true) (Observable.scan m l) /\
  (forall e, In e (Observable.scan m l) -> In e l).
Proof.
  induction l as [|e l (IH1 & IH2)]; simpl.
  - split; [constructor|auto].
  - unfold prio_leb. destruct (prio_ltb m (prio e)) eqn:E; simpl.
    + split; [constructor; auto|]. intros e' [->|H]; auto.
    + split; [constructor|]. intros e' [].
Qed.

(** A notification that calls no pass-through returns. *)
Lemma notify_calls_return k x w m st n :
  nodes st !! x = Some n ->
  Forall (fun cw => is_pass_through (fst cw) = false)
         (Observable._notify_observers x (_observer_callables_ n) w m) ->
  fst (_notify_observers (S k) x w m st) = Ok tt.
Proof.
  intros Hn Hp. simpl. rewrite fst_bind. unfold get_node, read. cbn [fst snd].
  unfold node_of. rewrite Hn. clear Hn. revert st.
  induction Hp as [|[c u] l Hc Hl IH]; intros st; simpl; auto.
  rewrite fst_bind. cbn [fst snd] in *.
  destruct c; [discriminate| |]; simpl; apply IH.
Qed.

(** A bulk notification of a node with a plain registry calls no
    pass-through and returns. *)
Lemma notify_plain_returns k x st n :
  nodes st !! x = Some n -> plain_registry (_observer_callables_ n) = true ->
  fst (_notify_observers (S k) x None (Some NegInf) st) = Ok tt.
Proof.
  intros Hn Hp. apply (notify_calls_return k x None (Some NegInf) st n Hn).
  unfold Observable._notify_observers. apply Forall_map. cbn [fst].
  destruct (scan_above NegInf (_observer_callables_ n)) as (Hab & Hin).
  unfold plain_registry in Hp. rewrite forallb_forall in Hp.
  rewrite List.Forall_forall in *. intros e He.
  specialize (Hp e (Hin e He)). rewrite (Hab e He) in Hp. simpl in Hp.
  destruct (is_pass_through (callble_of e)); [discriminate|reflexivity].
Qed.

(** Any notification of a node whose registry has no pass-through
    returns. *)
Lemma notify_root_returns k x w m st n :
  nodes st !! x = Some n -> no_pass_through (_observer_callables_ n) = true ->
  fst (_notify_observers (S k) x w m st) = Ok tt.
Proof.
  intros Hn Hp. apply (notify_calls_return k x w m st n Hn).
  unfold no_pass_through in Hp. rewrite forallb_forall in Hp.
  unfold Observable._notify_observers.
  destruct m as [m|]; apply Forall_map; cbn [fst]; rewrite List.Forall_forall; intros e He.
  - destruct (scan_above m (_observer_callables_ n)) as (_ & Hin).
    specialize (Hp e (Hin e He)). destruct (is_pass_through (callble_of e)); auto; discriminate.
  - specialize (Hp e He). destruct (is_pass_through (callble_of e)); auto; discriminate.
Qed.

Lemma same_shape_plain_below d : forall o st st',
  same_shape st st' -> plain_below d o st' = plain_below d o st.
Proof.
  induction d as [|d IH]; intros o st st' H; simpl; auto.
  pose proof (H o) as Ho.
  destruct (nodes st !! o) as [n|], (nodes st' !! o) as [n'|]; try contradiction; auto.
  apply same_node_fields in Ho as (_ & _ & -> & _).
  induction (_parameters_ n) as [|c ps IHps]; simpl; auto.
  rewrite IHps. f_equal. rewrite (IH c st st' H). f_equal.
  pose proof (H c) as Hc.
  destruct (nodes st !! c) as [cn|], (nodes st' !! c) as [cn'|]; try contradiction; auto.
  apply same_node_fields in Hc as (_ & _ & _ & _ & ->). reflexivity.
Qed.

End NotifyFacts.

Section SetReturns.
Context {V : Type}.
Implicit Types (st : state V) (n : node V) (y : list V).

(** The loop over the children returns when [_set_params] returns on each
    child. *)
Lemma set_children_returns d k y (cs : list nat) :
  (forall c st y n,
     wf_tree d c st -> nodes st !! c = Some n -> len y = size n ->
     plain_below d c st = true ->
     fst (_notify_observers k c None (Some NegInf) st) = Ok tt ->
     fst (_set_params k c y false st) = Ok tt) ->
  (d <= k)%nat ->
  forall szs s0 st,
    (forall c, In c cs -> wf_tree d c st) ->
    (forall c cn, In c cs -> nodes st !! c = Some cn ->
                  plain_registry (_observer_callables_ cn) = true) ->
    (forall c, In c cs -> plain_below d c st = true) ->
    child_sizes cs st = Ok szs ->
    0 <= s0 -> s0 + zsum szs <= len y ->
    fst (set_children k y (combine cs (slices_from s0 szs)) st) = Ok tt.
Proof.
  intros IHd Hk. induction cs as [|c cs IH]; intros szs s0 st Hw Hreg Hpl Hs H0 Hle.
  - reflexivity.
  - pose proof (child_sizes_nonneg d _ st szs Hw Hs) as Hnn.
    apply child_sizes_cons in Hs as (cn & szs' & Hcn & -> & Hs').
    inversion Hnn as [|? ? Hsz Hnn']; subst.
    pose proof (zsum_nonneg szs' Hnn') as Hz. simpl in Hle.
    cbn [slices_from combine]. unfold set_children in *. cbn [for_each].
    rewrite fst_bind. cbn [fst snd].
    assert (Hwc : wf_tree d c st) by (apply Hw; left; reflexivity).
    assert (Hc : fst (_set_params k c (slice y s0 (size cn + s0)) false st) = Ok tt).
    { apply (IHd c st _ cn); auto.
      - rewrite slice_len by lia. lia.
      - apply Hpl. left. reflexivity.
      - destruct k as [|k]; [destruct d; [contradiction|lia]|].
        apply (notify_plain_returns k c st cn Hcn). apply (Hreg c cn); auto.
        left. reflexivity. }
    rewrite Hc.
    pose proof (set_params_frame d c st k (slice y s0 (size cn + s0)) false Hwc Hk) as (Hsh & _).
    set (st1 := snd (_set_params k c (slice y s0 (size cn + s0)) false st)) in *.
    apply IH; auto; try lia.
    + intros c' Hc'. eapply same_shape_wf_tree; [exact Hsh|]. apply Hw. right. exact Hc'.
    + intros c' cn' Hc' Hcn'.
      destruct (same_shape_lookup st1 st c' cn' (same_shape_sym _ _ Hsh) Hcn') as (cn0 & Hcn0 & Hsn).
      apply same_node_fields in Hsn as (_ & _ & _ & _ & E). rewrite <- E.
      apply (Hreg c' cn0); auto. right. exact Hc'.
    + intros c' Hc'. rewrite (same_shape_plain_below d c' st st1 Hsh). apply Hpl. right. exact Hc'.
    + rewrite (same_shape_child_sizes st st1 cs Hsh). exact Hs'.
Qed.

(** On a consistent subtree whose nodes below the top have plain
    registries, [_set_params] with a vector of the node's size returns, as
    long as the observers of the node itself do. *)
Lemma set_params_returns d : forall k o st y (tp : bool) n,
  (d <= k)%nat -> wf_tree d o st -> nodes st !! o = Some n -> len y = size n ->
  plain_below d o st = true ->
  fst (_notify_observers k o None (if tp then None else Some NegInf) st) = Ok tt ->
  fst (_set_params k o y tp st) = Ok tt.
Proof.
  induction d as [|d IH]; intros k o st y tp n Hk Hw Hn Hlen Hpl Hnot; [contradiction|].
  destruct k as [|k]; [lia|].
  pose proof Hw as Hw0. cbn [wf_tree] in Hw. destruct Hw as (n' & Hn' & Hw).
  rewrite Hn in Hn'. injection Hn' as <-.
  cbn [_set_params]. rewrite fst_bind.
  unfold get_node at 1 2, read at 1 2. cbn [fst snd].
  unfold node_of at 1. rewrite Hn.
  rewrite fst_bind.
  match goal with
  | |- match fst (?branch st) with _ => _ end = _ => set (b := branch st)
  end.
  assert (Hb : fst b = Ok tt /\ same_shape st (snd b)).
  { subst b. destruct (cls n) eqn:Hcls.
    - assert (El : length y = length (values n)).
      { unfold len in *. lia. }
      rewrite El, Nat.eqb_refl. unfold modify_node. rewrite Hn. cbn [fst snd].
      split; [reflexivity|].
      intros x. simpl. destruct (Nat.eq_dec x o) as [->|Hx].
      + rewrite Hn, lookup_insert_eq. split; [|exact El]. destruct n; reflexivity.
      + rewrite lookup_insert_ne by auto. destruct (nodes st !! x); auto.
        apply same_node_refl.
    - destruct Hw as (Hch & szs & Hsz & Hz & Hsl). rewrite Hsl.
      fold (set_children k y (combine (_parameters_ n) (slices_from 0 szs))).
      cbn [plain_below] in Hpl. rewrite Hn in Hpl. rewrite forallb_forall in Hpl.
      split.
      + apply (set_children_returns d k y (_parameters_ n)); auto; try lia.
        * intros c s y' cn Hwc Hcn Hl Hp Hno.
          apply (IH k c s y' false cn); auto. lia.
        * intros c cn Hin Hcn. specialize (Hpl c Hin). rewrite Hcn in Hpl.
          apply andb_true_iff in Hpl as (Hpl & _). exact Hpl.
        * intros c Hin. specialize (Hpl c Hin).
          apply andb_true_iff in Hpl as (_ & Hpl). exact Hpl.
      + apply (set_children_frame d k y (_parameters_ n) (slices_from 0 szs) st); auto. lia. }
  destruct Hb as (Hb1 & Hb2). rewrite Hb1.
  rewrite (notify_observers_same_outcome (S k) o None _ st (snd b) Hb2). exact Hnot.
Qed.

End SetReturns.

(** ** The observer registry: removal *)

Module RegistryFacts.
Import Observable.

Lemma prio_eqb_eq a b : prio_eqb a b = true <-> a = b.
Proof.
  destruct a, b; simpl; split; intros H; try discriminate; auto.
  - apply Z.eqb_eq in H. congruence.
  - injection H as ->. apply Z.eqb_refl.
Qed.

Lemma callable_eqb_eq a b : callable_eqb a b = true <-> a = b.
Proof.
  destruct a, b; simpl; split; intros H; try discriminate;
    try (apply Nat.eqb_eq in H; congruence);
    injection H as ->; apply Nat.eqb_refl.
Qed.

Lemma entry_eqb_eq a b : entry_eqb a b = true <-> a = b.
Proof.
  destruct a as [[p o] c], b as [[p' o'] c']. unfold entry_eqb, prio, observer_of, callble_of.
  simpl. rewrite !andb_true_iff, prio_eqb_eq, callable_eqb_eq, Nat.eqb_eq.
  split; [intros ((-> & ->) & ->); reflexivity|intros [= -> -> ->]; auto].
Qed.

(** Removing entries that differ from the head leaves the head. *)
Lemma remove_all_skips_head (rs : list entry) : forall x l,
  Forall (fun r => entry_eqb x r = false) rs ->
  fold_left (fun acc r => list_remove r acc) rs (x :: l)
  = x :: fold_left (fun acc r => list_remove r acc) rs l.
Proof.
  induction rs as [|r rs IH]; intros x l H; simpl; auto.
  inversion H as [|? ? Hr Hrs]; subst. rewrite Hr. apply IH. exact Hrs.
Qed.

Lemma remove_selected (f : entry -> bool) (l : list entry) :
  fold_left (fun acc r => list_remove r acc) (List.filter f l) l
  = List.filter (fun e => negb (f e)) l.
Proof.
  induction l as [|x l IH]; simpl; auto.
  destruct (f x) eqn:E; simpl.
  - assert (Hx : entry_eqb x x = true) by (apply entry_eqb_eq; reflexivity).
    rewrite Hx. exact IH.
  - rewrite remove_all_skips_head; [rewrite IH; reflexivity|].
    apply List.Forall_forall. intros r Hr. apply filter_In in Hr as (_ & Hr).
    destruct (entry_eqb x r) eqn:Ex; auto.
    apply entry_eqb_eq in Ex. subst r. congruence.
Qed.

Lemma remove_observer_as_filter (l : list entry) observer callble :
  remove_observer l observer callble
  = List.filter (fun e => negb (selected observer callble e)) l.
Proof.
  unfold remove_observer.
  rewrite <- (remove_selected (selected observer callble) l).
  unfold selected. destruct callble; reflexivity.
Qed.

Lemma filter_all (f : entry -> bool) (l : list entry) :
  Forall (fun e => f e = true) l -> List.filter f l = l.
Proof.
  induction 1 as [|x l Hx Hl IH]; simpl; auto. rewrite Hx, IH. reflexivity.
Qed.

(** X1: [remove_observer] takes out every entry its test selects -- all
    entries of the observer, or those of the observer with the given
    callable -- and keeps the other entries in their order. *)
Theorem remove_observer_drops_selected :
  forall (l : list entry) (observer : nat) (callble : option callable),
    remove_observer l observer callble
    = List.filter (fun e => negb (selected observer callble e)) l.
Proof. intros. apply remove_observer_as_filter. Qed.

(** X2: registering a callable and removing it again leaves the registry as
    it was, when the observer had no entry that the removal selects: none
    with that callable for a removal by callable, none at all for a removal
    of the observer. *)
Theorem add_then_remove_observer :
  forall (l : list entry) (observer : nat) (c : callable) (p : priority)
         (callble : option callable),
    callble = None \/ callble = Some c ->
    Forall (fun e => selected observer callble e = false) l ->
    remove_observer (add_observer l observer c p) observer callble = l.
Proof.
  intros l observer c p callble Hc Hl.
  rewrite remove_observer_as_filter. unfold add_observer, _insert_sorted.
  rewrite List.filter_app. cbn [List.filter].
  assert (Hs : selected observer callble (p, observer, c) = true).
  { destruct Hc as [-> | ->]; unfold selected, observer_of, callble_of; simpl.
    - apply Nat.eqb_refl.
    - rewrite Nat.eqb_refl. apply callable_eqb_eq. reflexivity. }
  rewrite Hs. cbn [negb]. rewrite <- List.filter_app, firstn_skipn.
  apply filter_all. eapply List.Forall_impl; [|exact Hl].
  intros e He. simpl in He. rewrite He. reflexivity.
Qed.

Lemma add_then_remove_observer_example :
  Forall (fun e => selected 7%nat (Some (External 2)) e = false)
         (run [Add 1%nat (External 1) (Fin 5); Add 7%nat (External 3) (Fin 0)]) /\
  remove_observer
    (add_observer (run [Add 1%nat (External 1) (Fin 5); Add 7%nat (External 3) (Fin 0)])
                  7%nat (External 2) (Fin 3))
    7%nat (Some (External 2))
  = [(Fin 5, 1%nat, External 1); (Fin 0, 7%nat, External 3)].
Proof.
  assert (H : Forall (fun e => selected 7%nat (Some (External 2)) e = false)
                     (run [Add 1%nat (External 1) (Fin 5); Add 7%nat (External 3) (Fin 0)])).
  { repeat constructor. }
  split; [exact H|].
  exact (add_then_remove_observer _ 7%nat (External 2) (Fin 3) (Some (External 2))
           (or_intror eq_refl) H).
Defined.

End RegistryFacts.

(** ** The raw vector of a subtree *)

Module RawVectorFacts.
Import Scenario.

Ltac conjuncts := repeat match goal with |- _ /\ _ => split end.
Ltac evaluate := vm_compute; reflexivity.

(** The tree of [Scenario.mixed] is consistent. *)
Lemma mixed_wf_tree : wf_tree 2 0%nat (snd (mixed empty_state)).
Proof.
  cbn [wf_tree]. eexists. split; [evaluate|].
  cbv beta iota delta [cls _parameters_]. split.
  - intros c [<-|[<-|[<-|[]]]]; cbn [wf_tree]; eexists; (split; [evaluate|evaluate]).
  - eexists. conjuncts; evaluate.
Qed.

Lemma mixed_leaves : leaves 2 0%nat (snd (mixed empty_state)) = [3%nat; 6%nat; 9%nat].
Proof. evaluate. Qed.

(** X3: on a consistent subtree [_get_params] returns a vector, and its
    length is the [size] of the node. *)
Theorem get_params_length_is_size :
  forall (V : Type) (d k : nat) (st : state V) (o : nat),
    wf_tree d o st -> (d <= k)%nat ->
    exists n raw,
      nodes st !! o = Some n /\ _get_params k o st = Ok raw /\ len raw = size n.
Proof. intros V d k st o Hw Hk. apply (wf_tree_get_params d o st k Hw Hk). Qed.

Lemma get_params_length_is_size_example :
  exists n raw,
    nodes (snd (mixed empty_state)) !! 0%nat = Some n /\
    _get_params fuel 0%nat (snd (mixed empty_state)) = Ok raw /\ len raw = size n.
Proof.
  apply (get_params_length_is_size Z 2 fuel (snd (mixed empty_state)) 0%nat).
  - exact mixed_wf_tree.
  - unfold fuel. lia.
Defined.

(** X4: on a consistent subtree in which no leaf occurs twice and the
    registries below the node hold their pass-throughs at priority [-inf],
    [_set_params] with a vector of the node's size returns, and
    [_get_params] then gives that vector back.  With [trigger_parent] the
    node's own registry is to hold no pass-through (the node has not been
    made a child); without it a pass-through at [-inf] is not called. *)
Theorem set_params_then_get_params :
  forall (V : Type) (d k : nat) (st : state V) (o : nat) (n : node V) (y : list V)
         (trigger_parent : bool),
    nodes st !! o = Some n ->
    wf_tree d o st -> (d <= k)%nat -> NoDup (leaves d o st) ->
    plain_below d o st = true ->
    (if trigger_parent then no_pass_through (_observer_callables_ n)
     else plain_registry (_observer_callables_ n)) = true ->
    len y = size n ->
    fst (_set_params k o y trigger_parent st) = Ok tt /\
    _get_params k o (snd (_set_params k o y trigger_parent st)) = Ok y.
Proof.
  intros V d k st o n y tp Hn Hw Hk Hnd Hpl Hreg Hlen.
  assert (Hok : fst (_set_params k o y tp st) = Ok tt).
  { apply (set_params_returns d k o st y tp n); auto.
    destruct k as [|k]; [destruct d; [contradiction|lia]|].
    destruct tp.
    - apply (notify_root_returns k o None None st n Hn Hreg).
    - apply (notify_plain_returns k o st n Hn Hreg). }
  split; [exact Hok|].
  apply (set_then_get d k Hk o st y tp n); auto.
Qed.

Lemma set_params_then_get_params_example :
  fst (_set_params fuel 0%nat [1; 2; 3; 4] true (snd (mixed empty_state))) = Ok tt /\
  _get_params fuel 0%nat
    (snd (_set_params fuel 0%nat [1; 2; 3; 4] true (snd (mixed empty_state))))
  = Ok [1; 2; 3; 4].
Proof.
  eapply (set_params_then_get_params Z 2 fuel (snd (mixed empty_state)) 0%nat
            _ [1; 2; 3; 4] true).
  - evaluate.
  - exact mixed_wf_tree.
  - unfold fuel. lia.
  - rewrite mixed_leaves.
    repeat (apply NoDup_cons_2; [rewrite ?elem_of_cons, elem_of_nil; lia|]). apply NoDup_nil_2.
  - evaluate.
  - evaluate.
  - evaluate.
Defined.

(** X5: however a call of [_set_params] on a consistent subtree ends, every
    node is afterwards what it was but for its buffer, which keeps its
    length, and the nodes that are no leaf of the subtree are untouched. *)
Theorem set_params_touches_leaf_buffers_only :
  forall (V : Type) (d k : nat) (st : state V) (o : nat) (y : list V)
         (trigger_parent : bool),
    wf_tree d o st -> (d <= k)%nat ->
    touches_only (leaves d o st) st (snd (_set_params k o y trigger_parent st)).
Proof. intros V d k st o y tp Hw Hk. apply set_params_frame; assumption. Qed.

Lemma set_params_touches_leaf_buffers_only_example :
  touches_only [3%nat; 6%nat; 9%nat] (snd (mixed empty_state))
    (snd (_set_params fuel 0%nat [1; 2] true (snd (mixed empty_state)))).
Proof.
  rewrite <- mixed_leaves.
  apply (set_params_touches_leaf_buffers_only Z 2 fuel (snd (mixed empty_state)) 0%nat
           [1; 2] true).
  - exact mixed_wf_tree.
  - unfold fuel. lia.
Defined.

End RawVectorFacts.

(** ** The fix mask *)

Section MaskFacts.
Context {V : Type}.
Implicit Types (st : state V) (n : node V) (m : list bool) (ind : list Z).

Lemma repeat_lookup {A : Type} (x : A) (c j : nat) :
  (j < c)%nat -> repeat x c !! j = Some x.
Proof.
  revert j. induction c as [|c IH]; intros j H; [lia|].
  destruct j as [|j]; simpl; auto. apply IH. lia.
Qed.

(** A scalar write at indices that address the array. *)
Lemma fill_at_in_range {A : Type} (x : A) ind : forall (a : list A),
  Forall (fun i => 0 <= i < len a) ind ->
  fill_at a ind x = Ok (imap (fun j y => if mem_z (Z.of_nat j) ind then x else y) a).
Proof.
  induction ind as [|i ind IH]; intros a Hr; simpl.
  - f_equal. apply list_eq. intros j. rewrite list_lookup_imap.
    destruct (a !! j); reflexivity.
  - inversion Hr as [|? ? Hi Hr']; subst.
    unfold set_item. rewrite position_in_range by exact Hi. simpl.
    rewrite IH.
    2:{ eapply List.Forall_impl; [|exact Hr']. intros z Hz. simpl in Hz.
        unfold len in *. rewrite length_insert. exact Hz. }
    f_equal. apply list_eq. intros j. rewrite !list_lookup_imap.
    change (mem_z (Z.of_nat j) (i :: ind)) with ((Z.of_nat j =? i) || mem_z (Z.of_nat j) ind).
    destruct (Z.eqb_spec (Z.of_nat j) i) as [E|E].
    + subst i. rewrite Nat2Z.id. rewrite list_lookup_insert_eq by (unfold len in Hi; lia).
      simpl. destruct (a !! j) eqn:Ea.
      * simpl. destruct (mem_z (Z.of_nat j) ind); reflexivity.
      * apply lookup_ge_None in Ea. unfold len in Hi. lia.
    + rewrite list_lookup_insert_ne by lia. reflexivity.
Qed.

(** The mask [np.ones] with [FIXED] written at [ind]. *)
Lemma fill_ones ind (c : nat) :
  Forall (fun i => 0 <= i < Z.of_nat c) ind ->
  fill_at (repeat true c) ind FIXED
  = Ok (map (fun j => negb (mem_z (Z.of_nat j) ind)) (seq 0 c)).
Proof.
  intros Hr. rewrite fill_at_in_range.
  2:{ unfold len. rewrite repeat_length. exact Hr. }
  f_equal. apply list_eq. intros j. rewrite list_lookup_imap.
  change (map ?g ?l) with (g <$> l). rewrite list_lookup_fmap.
  destruct (Nat.lt_ge_cases j c) as [Hj|Hj].
  - rewrite repeat_lookup by exact Hj. rewrite lookup_seq_lt by exact Hj. simpl.
    unfold FIXED. destruct (mem_z (Z.of_nat j) ind); reflexivity.
  - rewrite (proj2 (lookup_ge_None _ _)) by (rewrite repeat_length; lia).
    rewrite lookup_seq_ge by exact Hj. reflexivity.
Qed.

Lemma with_fixes_twice x y n : with_fixes x (with_fixes y n) = with_fixes x n.
Proof. destruct n; reflexivity. Qed.

Lemma with_fixes_same n : with_fixes (_fixes_ n) n = n.
Proof. destruct n; reflexivity. Qed.

(** What a call of [_set_fixed] or [_set_unfixed] does, when the write into
    the mask goes through. *)
Lemma set_mask_run self ind (b : bool) st n m' :
  nodes st !! self = Some n ->
  (let* m := match _fixes_ n with Some m => Ok m | None => ones (size n) end in
   fill_at m ind b) = Ok m' ->
  set_mask self ind b st
  = (Ok tt, State (<[self := with_fixes (if all_true m' then None else Some m') n]> (nodes st))
                  (iops st) (next st) (log st)).
Proof.
  intros Hn Hm. unfold set_mask, bind, get_node, read, node_of, lift, ret, _has_fixes.
  rewrite Hn. destruct (_fixes_ n) as [m|] eqn:Ef.
  - simpl in Hm. rewrite Hn, Ef, Hm. unfold modify_node. rewrite Hn. cbn [nodes iops next log].
    destruct (all_true m'); [|reflexivity].
    cbn [nodes iops next log]. rewrite lookup_insert_eq, insert_insert_eq, with_fixes_twice.
    reflexivity.
  - destruct (ones (size n)) as [m|e] eqn:Eo; [|discriminate Hm]. simpl in Hm.
    unfold modify_node at 1. rewrite Hn. cbn [nodes iops next log].
    rewrite lookup_insert_eq.
    assert (Hf : _fixes_ (with_fixes (Some m) n) = Some m) by (destruct n; reflexivity).
    rewrite Hf, Hm. unfold modify_node. cbn [nodes iops next log].
    rewrite lookup_insert_eq. rewrite insert_insert_eq, with_fixes_twice.
    destruct (all_true m'); [|reflexivity].
    cbn [nodes iops next log]. rewrite lookup_insert_eq, insert_insert_eq, with_fixes_twice.
    reflexivity.
Qed.

Lemma set_mask_raises self ind (b : bool) st n e :
  nodes st !! self = Some n ->
  (let* m := match _fixes_ n with Some m => Ok m | None => ones (size n) end in
   fill_at m ind b) = Raise e ->
  fst (set_mask self ind b st) = Raise e.
Proof.
  intros Hn Hm. unfold set_mask, bind, get_node, read, node_of, lift, ret, _has_fixes.
  rewrite Hn. destruct (_fixes_ n) as [m|] eqn:Ef.
  - simpl in Hm. rewrite Hn, Ef, Hm. reflexivity.
  - destruct (ones (size n)) as [m|e'] eqn:Eo.
    + simpl in Hm. unfold modify_node at 1. rewrite Hn. cbn [nodes iops next log].
      rewrite lookup_insert_eq.
      assert (Hf : _fixes_ (with_fixes (Some m) n) = Some m) by (destruct n; reflexivity).
      rewrite Hf, Hm. reflexivity.
    + simpl in Hm. injection Hm as ->. reflexivity.
Qed.

Lemma fill_at_length {A : Type} (x : A) ind : forall (a a' : list A),
  fill_at a ind x = Ok a' -> length a' = length a.
Proof.
  induction ind as [|i ind IH]; intros a a' H; simpl in H.
  - injection H as <-. reflexivity.
  - unfold set_item in H. destruct (position (len a) i) as [k|]; [|discriminate H].
    simpl in H. rewrite (IH _ _ H). apply length_insert.
Qed.

Lemma all_true_lookup m :
  (forall (j : nat) (b : bool), m !! j = Some b -> b = true) -> all_true m = true.
Proof.
  induction m as [|b m IH]; intros H; simpl; auto.
  rewrite (H O b eq_refl). simpl. apply IH. intros j b' Hj. apply (H (S j) b'). exact Hj.
Qed.

Lemma all_true_ones (c : nat) : all_true (repeat true c) = true.
Proof. induction c; simpl; auto. Qed.

(** A mask that holds [FIXED] somewhere is not all true. *)
Lemma marked_not_all_true ind (c : nat) :
  ind <> [] -> Forall (fun i => 0 <= i < Z.of_nat c) ind ->
  all_true (map (fun j => negb (mem_z (Z.of_nat j) ind)) (seq 0 c)) = false.
Proof.
  intros Hne Hr. destruct ind as [|i ind]; [contradiction|].
  inversion Hr as [|? ? Hi _]; subst.
  destruct (all_true _) eqn:E; auto. exfalso.
  unfold all_true in E. rewrite forallb_forall in E.
  specialize (E (negb (mem_z (Z.of_nat (Z.to_nat i)) (i :: ind)))).
  rewrite Z2Nat.id in E by lia.
  change (mem_z i (i :: ind)) with ((i =? i) || mem_z i ind) in E.
  rewrite Z.eqb_refl in E. simpl in E. discriminate E.
  apply in_map_iff. exists (Z.to_nat i). rewrite Z2Nat.id by lia. simpl.
  rewrite Z.eqb_refl. split; [reflexivity|]. apply in_seq. lia.
Qed.

(** Writing [UNFIXED] where [FIXED] was written gives back [np.ones]. *)
Lemma unfix_marked ind (c : nat) :
  Forall (fun i => 0 <= i < Z.of_nat c) ind ->
  exists m', fill_at (map (fun j => negb (mem_z (Z.of_nat j) ind)) (seq 0 c)) ind UNFIXED
             = Ok m' /\ all_true m' = true.
Proof.
  intros Hr. eexists. split.
  - apply fill_at_in_range. unfold len. rewrite length_map, length_seq. exact Hr.
  - apply all_true_lookup. intros j b. rewrite list_lookup_imap.
    change (map ?g ?l) with (g <$> l). rewrite list_lookup_fmap.
    destruct (seq 0 c !! j) as [j'|] eqn:Es; simpl; [|discriminate].
    apply lookup_seq in Es as (-> & _). simpl.
    unfold UNFIXED. destruct (mem_z (Z.of_nat j) ind); simpl; congruence.
Qed.

Lemma unfix_ones ind (c : nat) :
  Forall (fun i => 0 <= i < Z.of_nat c) ind ->
  exists m', fill_at (repeat true c) ind UNFIXED = Ok m' /\ all_true m' = true.
Proof.
  intros Hr. eexists. split.
  - apply fill_at_in_range. unfold len. rewrite repeat_length. exact Hr.
  - apply all_true_lookup. intros j b. rewrite list_lookup_imap.
    destruct (repeat true c !! j) as [y|] eqn:Es; simpl; [|discriminate].
    assert (y = true).
    { destruct (Nat.lt_ge_cases j c) as [Hj|Hj].
      - rewrite repeat_lookup in Es by exact Hj. congruence.
      - rewrite (proj2 (lookup_ge_None _ _)) in Es; [discriminate|].
        rewrite repeat_length. exact Hj. }
    subst y. unfold UNFIXED. destruct (mem_z (Z.of_nat j) ind); congruence.
Qed.

End MaskFacts.

Module MaskTheorems.
Import Scenario.

Ltac evaluate := vm_compute; reflexivity.







End MaskTheorems.

Section CountFacts.

Lemma filter_length_split {A : Type} (h : A -> bool) (l : list A) :
  (length (List.filter (fun x => negb (h x)) l) + length (List.filter h l) = length l)%nat.
Proof. induction l as [|x l IH]; simpl; auto. destruct (h x); simpl; lia. Qed.

Lemma count_true_map {A : Type} (g : A -> bool) (l : list A) :
  count_true (map g l) = length (List.filter g l).
Proof.
  unfold count_true. induction l as [|x l IH]; simpl; auto.
  destruct (g x); simpl; auto.
Qed.

Lemma filter_same_length {A : Type} (g h : A -> bool) (l : list A) :
  (forall x, In x l -> g x = h x) ->
  length (List.filter g l) = length (List.filter h l).
Proof.
  induction l as [|x l IH]; intros H; simpl; auto.
  rewrite (H x) by (left; reflexivity).
  destruct (h x); simpl; rewrite IH; auto; intros y Hy; apply H; right; exact Hy.
Qed.

(** One more index selected, one more entry counted. *)
Lemma filter_one_more (g : nat -> bool) (i : Z) : forall (c s : nat),
  g (Z.to_nat i) = false -> Z.of_nat s <= i < Z.of_nat (s + c) ->
  length (List.filter (fun j => (Z.of_nat j =? i) || g j) (seq s c))
  = S (length (List.filter g (seq s c))).
Proof.
  induction c as [|c IH]; intros s Hg Hi; [lia|].
  cbn [seq List.filter]. destruct (Z.eqb_spec (Z.of_nat s) i) as [E|E].
  - subst i. rewrite Nat2Z.id in Hg. rewrite Hg. cbn [orb length]. f_equal.
    apply filter_same_length. intros x Hx. apply in_seq in Hx.
    destruct (Z.eqb_spec (Z.of_nat x) (Z.of_nat s)); [lia|reflexivity].
  - cbn [orb]. destruct (g s); cbn [length]; rewrite IH; auto; lia.
Qed.

(** The entries of [0 .. c) that distinct indices select are as many as the
    indices. *)
Lemma count_selected (ind : list Z) (c : nat) :
  NoDup ind -> Forall (fun i => 0 <= i < Z.of_nat c) ind ->
  length (List.filter (fun j => mem_z (Z.of_nat j) ind) (seq 0 c)) = length ind.
Proof.
  induction 1 as [|i ind Hi Hnd IH]; intros Hr.
  - simpl. induction (seq 0 c); simpl; auto.
  - inversion Hr as [|? ? Hri Hr']; subst. cbn [length]. rewrite <- IH by exact Hr'.
    apply (filter_one_more (fun j => mem_z (Z.of_nat j) ind) i c 0).
    + rewrite Z2Nat.id by lia. destruct (mem_z i ind) eqn:E; auto.
      apply mem_z_In in E. exfalso. apply Hi. apply list_elem_of_In. exact E.
    + simpl. lia.
Qed.

(** A mask that mirrors distinct fixed indices leaves as many entries free
    as are not fixed. *)
Lemma count_true_mirrors (m : list bool) (fixed : list Z) (c : nat) :
  mask_mirrors (Some m) fixed c = true ->
  NoDup fixed -> Forall (fun i => 0 <= i < Z.of_nat c) fixed ->
  (count_true m + length fixed = c)%nat.
Proof.
  intros Hm Hnd Hr. unfold mask_mirrors in Hm. apply andb_true_iff in Hm as (Hl & Hm).
  apply Nat.eqb_eq in Hl. rewrite forallb_forall in Hm.
  assert (E : m = map (fun j => negb (mem_z (Z.of_nat j) fixed)) (seq 0 c)).
  { apply list_eq. intros j. change (map ?g ?l) with (g <$> l). rewrite list_lookup_fmap.
    destruct (Nat.lt_ge_cases j c) as [Hj|Hj].
    - rewrite lookup_seq_lt by exact Hj. simpl.
      specialize (Hm j). rewrite in_seq in Hm. specialize (Hm ltac:(lia)).
      unfold fixed_at in Hm. destruct (m !! j) as [b|] eqn:Eb.
      + apply Bool.eqb_prop in Hm. rewrite <- Hm. destruct b; reflexivity.
      + apply lookup_ge_None in Eb. lia.
    - rewrite lookup_seq_ge by exact Hj. apply lookup_ge_None. lia. }
  rewrite E, count_true_map, <- (count_selected fixed c Hnd Hr).
  rewrite filter_length_split. apply length_seq.
Qed.

End CountFacts.

Module FixedEntries.
Import Scenario.

Ltac evaluate := vm_compute; reflexivity.



(** X10: on a node whose optimizer view is consistent and whose mask
    mirrors the distinct indices recorded as fixed, the vector
    [_get_params_transformed] returns has [_size_transformed] entries. *)
Theorem free_vector_has_size_transformed :
  forall (V : Type) (k : nat) (st : state V) (self : nat) (n : node V)
         (raw : list V) (items : props V),
    nodes st !! self = Some n ->
    _get_params k self st = Ok raw -> len raw = size n ->
    iteritems k (constraints n) (iops st) = Ok items ->
    consistent raw items (_fixes_ n) = true ->
    NoDup (store_getitem items __fixed__) ->
    Forall (fun i => 0 <= i < size n) (store_getitem items __fixed__) ->
    mask_mirrors (_fixes_ n) (store_getitem items __fixed__) (length raw) = true ->
    exists free,
      _get_params_transformed k self st = Ok free /\
      _size_transformed k self st = Ok (len free).
Proof.
  intros V k st self n raw items Hn Hraw Hlen Hit Hc Hnd Hr Hm.
  rewrite (get_params_transformed_value k st self n raw items Hn Hraw Hit Hc).
  eexists. split; [reflexivity|].
  unfold _size_transformed, node_of, getitem. rewrite Hn. simpl. rewrite Hit. simpl.
  f_equal. destruct (_fixes_ n) as [m|] eqn:Ef.
  - pose proof Hm as Hm'. unfold mask_mirrors in Hm'.
    apply andb_true_iff in Hm' as (Hl & _). apply Nat.eqb_eq in Hl.
    pose proof (count_true_mirrors m _ (length raw) Hm Hnd) as Hcnt.
    unfold len in *. rewrite select_length by (rewrite inverse_image_length; lia).
    rewrite <- Hlen in Hr. specialize (Hcnt Hr). lia.
  - unfold mask_mirrors in Hm. destruct (store_getitem items __fixed__); [|discriminate Hm].
    unfold len in *. rewrite inverse_image_length. simpl. lia.
Qed.

Lemma free_vector_has_size_transformed_example :
  exists free,
    _get_params_transformed fuel 0%nat (snd (mixed empty_state)) = Ok free /\
    _size_transformed fuel 0%nat (snd (mixed empty_state)) = Ok (len free).
Proof.
  apply (free_vector_has_size_transformed Z fuel (snd (mixed empty_state)) 0%nat
           (Node Parameterized 4 None None [3%nat; 6%nat; 9%nat]
                 [(0, 1); (1, 3); (3, 4)] 1%nat 2%nat
                 (Some [true; true; true; false])
                 [(Fin (-100), 0%nat, ParametersChanged 0%nat)] [] [] "Parameterized"%string)
           [10; 20; 30; 40] [(Constraint shift, [0]); (__fixed__, [3])]).
  - evaluate.
  - evaluate.
  - reflexivity.
  - evaluate.
  - evaluate.
  - apply NoDup_cons_2; [rewrite elem_of_nil; tauto|apply NoDup_nil_2].
  - repeat constructor; simpl; lia.
  - evaluate.
Defined.

End FixedEntries.

(** ** The tree: roots, connections, offsets *)

Section TreeFacts.
Context {V : Type}.
Implicit Types (st : state V) (n : node V).

Lemma highest_parent_step k self st :
  _highest_parent_ (S k) self st
  = let* n := node_of self st in
    match _direct_parent_ n with
    | None => Ok self
    | Some p => _highest_parent_ k p st
    end.
Proof. reflexivity. Qed.

(** More fuel does not change the answer. *)
Lemma highest_parent_fuel k : forall self st r,
  _highest_parent_ k self st = Ok r -> _highest_parent_ (S k) self st = Ok r.
Proof.
  induction k as [|k IH]; intros self st r H; [discriminate H|].
  rewrite highest_parent_step in *. destruct (node_of self st) as [n|e]; [|discriminate H].
  simpl in *. destruct (_direct_parent_ n) as [p|]; [|exact H].
  apply IH. exact H.
Qed.

Lemma highest_parent_root k : forall self st r,
  _highest_parent_ k self st = Ok r ->
  exists rn, nodes st !! r = Some rn /\ _direct_parent_ rn = None.
Proof.
  induction k as [|k IH]; intros self st r H; [discriminate H|].
  rewrite highest_parent_step in H. unfold node_of in H.
  destruct (nodes st !! self) as [n|] eqn:Hn; [|discriminate H]. simpl in H.
  destruct (_direct_parent_ n) as [p|] eqn:Hp.
  - eapply IH. exact H.
  - injection H as <-. eauto.
Qed.

Lemma with_param_slices_twice x y n :
  with_param_slices x (with_param_slices y n) = with_param_slices x n.
Proof. destruct n; reflexivity. Qed.

Lemma child_sizes_frame ps st st' :
  (forall c, In c ps -> nodes st' !! c = nodes st !! c) ->
  child_sizes ps st' = child_sizes ps st.
Proof.
  intros H. unfold child_sizes. apply omap_ext. intros c Hc. unfold node_of.
  rewrite (H c Hc). reflexivity.
Qed.

(** The loop of [_connect_parameters], run on children that are distinct
    nodes other than the container. *)
Lemma connect_loop_run self : forall ps i last st ns szs,
  nodes st !! self = Some ns -> ~ In self ps -> NoDup ps ->
  child_sizes ps st = Ok szs ->
  exists st',
    connect_loop self i ps last st = (Ok tt, st') /\
    iops st' = iops st /\ next st' = next st /\ log st' = log st /\
    nodes st' !! self
    = Some (with_param_slices (_param_slices_ ns ++ slices_from last szs) ns) /\
    (forall (j : nat) c, ps !! j = Some c ->
       exists cn, nodes st !! c = Some cn /\
                  nodes st' !! c
                  = Some (with_parent_index (Some (i + j)%nat)
                            (with_direct_parent (Some self) cn))) /\
    (forall x, x <> self -> ~ In x ps -> nodes st' !! x = nodes st !! x).
Proof.
  induction ps as [|p ps IH]; intros i last st ns szs Hs Hni Hnd Hsz.
  - injection Hsz as <-. exists st. simpl. rewrite app_nil_r.
    replace (with_param_slices (_param_slices_ ns) ns) with ns by (destruct ns; reflexivity).
    repeat split; auto. intros j c Hj. destruct j; discriminate Hj.
  - apply child_sizes_cons in Hsz as (cn & szs' & Hcn & -> & Hsz').
    apply NoDup_cons in Hnd as (Hp & Hnd').
    assert (Hps : p <> self) by (intros ->; apply Hni; left; reflexivity).
    assert (Hni' : ~ In self ps) by (intros H; apply Hni; right; exact H).
    assert (Hp' : ~ In p ps) by (intros H; apply Hp; apply list_elem_of_In; exact H).
    set (cn' := with_parent_index (Some i) (with_direct_parent (Some self) cn)).
    set (ns' := with_param_slices (_param_slices_ ns ++ [(last, size cn + last)]) ns).
    set (st2 := State (<[self := ns']> (<[p := cn']> (nodes st))) (iops st) (next st) (log st)).
    assert (Hstep : connect_loop self i (p :: ps) last st
                    = connect_loop self (S i) ps (size cn + last) st2).
    { cbn [connect_loop]. unfold bind, modify_node, get_node, read, node_of.
      rewrite Hcn. cbn [nodes iops next log]. rewrite lookup_insert_eq.
      rewrite lookup_insert_ne by exact Hps. rewrite Hs.
      replace (size (with_parent_index (Some i) (with_direct_parent (Some self) cn)))
        with (size cn) by (destruct cn; reflexivity).
      reflexivity. }
    destruct (IH (S i) (size cn + last) st2 ns' szs') as
      (st' & Hrun & Hio & Hnx & Hlg & Hself & Hch & Hfr); auto.
    { unfold st2. cbn [nodes]. apply lookup_insert_eq. }
    { rewrite <- Hsz'. apply child_sizes_frame. intros c Hc. unfold st2. cbn [nodes].
      rewrite !lookup_insert_ne; auto; intros ->; contradiction. }
    exists st'. rewrite Hstep. split; [exact Hrun|].
    split; [exact Hio|]. split; [exact Hnx|]. split; [exact Hlg|]. split; [|split].
    + rewrite Hself. f_equal. unfold ns'. rewrite with_param_slices_twice.
      replace (_param_slices_ (with_param_slices (_param_slices_ ns ++ [(last, size cn + last)]) ns))
        with (_param_slices_ ns ++ [(last, size cn + last)]) by (destruct ns; reflexivity).
      rewrite <- app_assoc. reflexivity.
    + intros [|j] c Hj.
      * injection Hj as <-. exists cn. split; [exact Hcn|].
        rewrite Hfr by auto. unfold st2. cbn [nodes].
        rewrite lookup_insert_ne by auto. rewrite lookup_insert_eq.
        rewrite Nat.add_0_r. reflexivity.
      * simpl in Hj. destruct (Hch j c Hj) as (cn0 & Hcn0 & Hc').
        assert (Hin : In c ps).
        { apply list_elem_of_In. eapply list_elem_of_lookup_2. exact Hj. }
        unfold st2 in Hcn0. cbn [nodes] in Hcn0.
        rewrite !lookup_insert_ne in Hcn0 by (intros ->; contradiction).
        exists cn0. split; [exact Hcn0|]. rewrite Hc'. do 2 f_equal. f_equal. lia.
    + intros x Hx Hxp. rewrite Hfr; auto.
      * unfold st2. cbn [nodes]. rewrite !lookup_insert_ne; auto.
        intros ->. apply Hxp. left. reflexivity.
      * intros H. apply Hxp. right. exact H.
Qed.

(** The slice of the child at position [i]. *)
Lemma slices_from_lookup szs : forall (start : Z) (i : nat) (s : Z),
  szs !! i = Some s ->
  slices_from start szs !! i
  = Some (start + zsum (take i szs), s + (start + zsum (take i szs))).
Proof.
  induction szs as [|s0 szs IH]; intros start i s H; [destruct i; discriminate H|].
  destruct i as [|i]; simpl in *.
  - injection H as <-. rewrite Z.add_0_r. reflexivity.
  - rewrite (IH _ i s H). do 2 f_equal; lia.
Qed.

Lemma child_sizes_lookup ps : forall st szs (i : nat) c cn,
  child_sizes ps st = Ok szs -> ps !! i = Some c -> nodes st !! c = Some cn ->
  szs !! i = Some (size cn).
Proof.
  induction ps as [|p ps IH]; intros st szs i c cn Hs Hi Hc; [destruct i; discriminate Hi|].
  apply child_sizes_cons in Hs as (pn & szs' & Hpn & -> & Hs').
  destruct i as [|i]; simpl in *.
  - injection Hi as ->. rewrite Hc in Hpn. injection Hpn as <-. reflexivity.
  - eapply IH; eauto.
Qed.

(** [_connect_parameters] on a container whose children are distinct nodes
    other than itself. *)
Lemma connect_parameters_run self st n szs :
  nodes st !! self = Some n ->
  _parameters_ n <> [] -> ~ In self (_parameters_ n) -> NoDup (_parameters_ n) ->
  child_sizes (_parameters_ n) st = Ok szs ->
  exists st',
    _connect_parameters self st = (Ok tt, st') /\
    iops st' = iops st /\ next st' = next st /\ log st' = log st /\
    nodes st' !! self = Some (with_param_slices (slices_from 0 szs) n) /\
    (forall (i : nat) c, _parameters_ n !! i = Some c ->
       exists cn, nodes st !! c = Some cn /\
                  nodes st' !! c
                  = Some (with_parent_index (Some i)
                            (with_direct_parent (Some self) cn))) /\
    (forall x, x <> self -> ~ In x (_parameters_ n) ->
               nodes st' !! x = nodes st !! x).
Proof.
  intros Hn Hne Hni Hnd Hsz.
  set (n0 := with_param_slices [] n).
  set (st0 := State (<[self := n0]> (nodes st)) (iops st) (next st) (log st)).
  assert (Hstep : _connect_parameters self st
                  = connect_loop self O (_parameters_ n) 0 st0).
  { unfold _connect_parameters, bind, get_node, read, node_of. rewrite Hn.
    destruct (_parameters_ n) as [|c cs]; [contradiction|]. cbn [length Nat.ltb Nat.leb].
    unfold modify_node. rewrite Hn. reflexivity. }
  assert (Hps : _parameters_ n0 = _parameters_ n) by (destruct n; reflexivity).
  destruct (connect_loop_run self (_parameters_ n) O 0 st0 n0 szs) as
    (st' & Hrun & Hio & Hnx & Hlg & Hself & Hch & Hfr); auto.
  { unfold st0. cbn [nodes]. apply lookup_insert_eq. }
  { rewrite <- Hsz. apply child_sizes_frame. intros c Hc. unfold st0. cbn [nodes].
    apply lookup_insert_ne. intros ->. contradiction. }
  exists st'. rewrite Hstep. split; [exact Hrun|].
  split; [exact Hio|]. split; [exact Hnx|]. split; [exact Hlg|]. split; [|split].
  + rewrite Hself. unfold n0. rewrite with_param_slices_twice.
    destruct n; reflexivity.
  + intros i c Hi. destruct (Hch i c Hi) as (cn & Hcn & Hc').
    assert (Hin : In c (_parameters_ n)).
    { apply list_elem_of_In. eapply list_elem_of_lookup_2. exact Hi. }
    unfold st0 in Hcn. cbn [nodes] in Hcn.
    rewrite lookup_insert_ne in Hcn by (intros ->; contradiction).
    exists cn. split; [exact Hcn|]. exact Hc'.
  + intros x Hx Hxp. rewrite Hfr by auto. unfold st0. cbn [nodes].
    apply lookup_insert_ne. auto.
Qed.

Lemma mem_nat_In x (l : list nat) : mem_nat x l = true <-> In x l.
Proof.
  unfold mem_nat. rewrite existsb_exists. split.
  - intros (y & Hy & E). apply Nat.eqb_eq in E. subst. exact Hy.
  - intros H. exists x. split; [exact H|apply Nat.eqb_refl].
Qed.

End TreeFacts.

Module TreeTheorems.
Import Scenario.

Ltac evaluate := vm_compute; reflexivity.

(** X11: what [_highest_parent_] returns is a node without a parent; it is
    its own highest parent, and the highest parent of a node is the highest
    parent of its direct parent. *)
Theorem highest_parent_is_the_root :
  forall (V : Type) (k : nat) (st : state V) (self r : nat),
    _highest_parent_ k self st = Ok r ->
    (exists rn, nodes st !! r = Some rn /\ _direct_parent_ rn = None) /\
    _highest_parent_ k r st = Ok r /\
    (forall n p, nodes st !! self = Some n -> _direct_parent_ n = Some p ->
                 _highest_parent_ k p st = Ok r).
Proof.
  intros V k st self r H.
  pose proof (highest_parent_root k self st r H) as (rn & Hrn & Hroot).
  split; [eauto|]. destruct k as [|k]; [discriminate H|]. split.
  - rewrite highest_parent_step. unfold node_of. rewrite Hrn. simpl. rewrite Hroot.
    reflexivity.
  - intros n p Hn Hp. apply highest_parent_fuel.
    rewrite highest_parent_step in H. unfold node_of in H. rewrite Hn in H. simpl in H.
    rewrite Hp in H. exact H.
Qed.

Lemma highest_parent_is_the_root_example :
  (exists rn, nodes (snd (nested_fixed empty_state)) !! 0%nat = Some rn /\
              _direct_parent_ rn = None) /\
  _highest_parent_ fuel 0%nat (snd (nested_fixed empty_state)) = Ok 0%nat /\
  (forall n p, nodes (snd (nested_fixed empty_state)) !! 6%nat = Some n ->
               _direct_parent_ n = Some p ->
               _highest_parent_ fuel p (snd (nested_fixed empty_state)) = Ok 0%nat).
Proof.
  apply (highest_parent_is_the_root Z fuel (snd (nested_fixed empty_state)) 6%nat 0%nat).
  evaluate.
Defined.



(** X13: in a container that holds the slices of its children's sizes, the
    offset of the child at position [i] is the sum of the sizes of the
    children before it, and its raveled index is the run of [size] indices
    that starts there. *)
Theorem offset_for_child_sums_earlier_sizes :
  forall (V : Type) (k : nat) (st : state V) (self : nat) (n : node V) (szs : list Z)
         (i : nat) (c : nat) (cn : node V),
    nodes st !! self = Some n -> cls n = Parameterized ->
    child_sizes (_parameters_ n) st = Ok szs ->
    _param_slices_ n = slices_from 0 szs ->
    _parameters_ n !! i = Some c -> nodes st !! c = Some cn ->
    _direct_parent_ cn = Some self -> _parent_index_ cn = Some i ->
    _offset_for (S k) self c st = Ok (zsum (take i szs)) /\
    _raveled_index_for (S k) self c st
    = Ok (map (fun j => j + zsum (take i szs)) (arange (size cn))).
Proof.
  intros V k st self n szs i c cn Hn Hcls Hsz Hsl Hi Hc Hdp Hpi.
  assert (Hoff : _offset_for (S k) self c st = Ok (zsum (take i szs))).
  { assert (Hm : mem_nat c (_parameters_ n) = true).
    { apply mem_nat_In. apply list_elem_of_In. eapply list_elem_of_lookup_2. exact Hi. }
    cbn [_offset_for]. unfold _get_original, node_of.
    rewrite Hn. cbn [obind]. rewrite Hcls, Hc. cbn [obind]. rewrite Hdp, Hn. cbn [obind].
    rewrite Hpi, Hi. cbn [obind]. rewrite Hm, Hc. cbn [obind]. rewrite Hpi, Hsl.
    rewrite (slices_from_lookup szs 0 i (size cn)).
    - reflexivity.
    - eapply child_sizes_lookup; eauto. }
  split; [exact Hoff|].
  unfold _raveled_index_for, _raveled_index, node_of. rewrite Hc. cbn [obind].
  rewrite Hoff. reflexivity.
Qed.

Lemma offset_for_child_sums_earlier_sizes_example :
  _offset_for fuel 0%nat 6%nat (snd (mixed empty_state)) = Ok 1 /\
  _raveled_index_for fuel 0%nat 6%nat (snd (mixed empty_state)) = Ok [1; 2].
Proof.
  apply (offset_for_child_sums_earlier_sizes Z 23 (snd (mixed empty_state)) 0%nat
           (Node Parameterized 4 None None [3%nat; 6%nat; 9%nat]
                 [(0, 1); (1, 3); (3, 4)] 1%nat 2%nat
                 (Some [true; true; true; false])
                 [(Fin (-100), 0%nat, ParametersChanged 0%nat)] [] [] "Parameterized"%string)
           [1; 2; 1] 1%nat 6%nat
           (Node Param 2 (Some 0%nat) (Some 1%nat) [] [] 20%nat 21%nat None
                 [(NegInf, 0%nat, PassThrough 0%nat)] [20; 30] [] "b"%string)).
  - evaluate.
  - reflexivity.
  - evaluate.
  - reflexivity.
  - reflexivity.
  - evaluate.
  - reflexivity.
  - reflexivity.
Defined.

End TreeTheorems.

(** ** What a method leaves alone *)

Section Keeps.
Context {V A : Type} (g : node V -> A).

Lemma keeps_ret {B : Type} (b : B) : keeps g (ret (V:=V) b).
Proof. intros st x. reflexivity. Qed.

Lemma keeps_raise {B : Type} (e : exn) : keeps g (raise (V:=V) (A:=B) e).
Proof. intros st x. reflexivity. Qed.

Lemma keeps_bind {B C : Type} (m : M V B) (k : B -> M V C) :
  keeps g m -> (forall b, keeps g (k b)) -> keeps g (bind m k).
Proof.
  intros Hm Hk st x. rewrite snd_bind. specialize (Hm st x).
  destruct (fst (m st)); [|exact Hm]. rewrite Hk. exact Hm.
Qed.

Lemma keeps_read {B : Type} (r : state V -> outcome B) : keeps g (read r).
Proof. intros st x. reflexivity. Qed.

Lemma keeps_lift {B : Type} (o : outcome B) : keeps g (lift (V:=V) o).
Proof. intros st x. reflexivity. Qed.

Lemma keeps_get_node o : keeps g (get_node (V:=V) o).
Proof. intros st x. reflexivity. Qed.

Lemma keeps_read_ops {B : Type} (r : iheap V -> outcome B) : keeps g (read_ops r).
Proof. intros st x. reflexivity. Qed.

Lemma keeps_write_ops (w : iheap V -> outcome (iheap V)) : keeps g (write_ops w).
Proof. intros st x. unfold write_ops. destruct (w (iops st)); reflexivity. Qed.

Lemma keeps_alloc (o : index_ops V) : keeps g (alloc o).
Proof. intros st x. reflexivity. Qed.

Lemma keeps_emit (e : event) : keeps g (emit (V:=V) e).
Proof. intros st x. reflexivity. Qed.

Lemma keeps_ops_remove k o (p : property V) ind : keeps g (ops_remove k o p ind).
Proof. intros st x. unfold ops_remove. destruct (remove k o p ind (iops st)); reflexivity. Qed.

Lemma keeps_modify_node o (h : node V -> node V) :
  (forall n, g (h n) = g n) -> keeps g (modify_node o h).
Proof.
  intros H st x. unfold modify_node. destruct (nodes st !! o) as [n|] eqn:Hn; [|reflexivity].
  cbn [snd nodes]. destruct (Nat.eq_dec x o) as [->|Hx].
  - rewrite lookup_insert_eq, Hn. simpl. rewrite H. reflexivity.
  - rewrite lookup_insert_ne by auto. reflexivity.
Qed.

Lemma keeps_for_each {B : Type} (l : list B) (body : B -> M V unit) :
  (forall b, keeps g (body b)) -> keeps g (for_each l body).
Proof.
  intros H. induction l as [|b l IH]; simpl.
  - apply keeps_ret.
  - apply keeps_bind; [apply H|]. intros _. exact IH.
Qed.

Lemma keeps_setitem_all child : keeps g (setitem_all (V:=V) child).
Proof.
  unfold setitem_all. apply keeps_bind; [apply keeps_get_node|].
  intros c. destruct (cls c); apply keeps_raise.
Qed.

Lemma keeps_setattr self name (plain : node V -> node V) :
  (forall n, g (plain n) = g n) -> keeps g (__setattr__ self name plain).
Proof.
  intros H. unfold __setattr__. apply keeps_bind; [apply keeps_get_node|].
  intros n. destruct (cls n); [apply keeps_modify_node; exact H|].
  apply keeps_bind; [apply keeps_read|]. intros pnames.
  destruct (index_of name pnames) as [i|]; [|apply keeps_modify_node; exact H].
  destruct (_parameters_ n !! i); [apply keeps_setitem_all|apply keeps_raise].
Qed.

End Keeps.

(** Takes a goal [keeps g _] apart along the structure of the computation. *)
Ltac keeps_step :=
  match goal with
  | |- keeps _ (ret _) => apply keeps_ret
  | |- keeps _ (raise _) => apply keeps_raise
  | |- keeps _ (bind _ _) => apply keeps_bind; [|intros ?]
  | |- keeps _ (get_node _) => apply keeps_get_node
  | |- keeps _ (read _) => apply keeps_read
  | |- keeps _ (lift _) => apply keeps_lift
  | |- keeps _ (read_ops _) => apply keeps_read_ops
  | |- keeps _ (write_ops _) => apply keeps_write_ops
  | |- keeps _ (alloc _) => apply keeps_alloc
  | |- keeps _ (emit _) => apply keeps_emit
  | |- keeps _ (modify_node _ _) => apply keeps_modify_node; solve [auto]
  | |- keeps _ (__setattr__ _ _ _) => apply keeps_setattr; solve [auto]
  | |- keeps _ (for_each _ _) => apply keeps_for_each; intros ?
  | |- keeps _ (match ?x with _ => _ end) => destruct x
  end.

Ltac keeps_all := repeat keeps_step.

(** Methods that write the registry, the index operations and the mask
    only. *)
Section KeepsLight.
Context {V A : Type} (g : node V -> A).
Hypothesis g_fixes : forall x n, g (with_fixes x n) = g n.
Hypothesis g_constraints : forall x n, g (with_constraints x n) = g n.
Hypothesis g_priors : forall x n, g (with_priors x n) = g n.
Hypothesis g_observers : forall x n, g (with_observer_callables x n) = g n.

Lemma keeps_add_observer self observer c p : keeps g (add_observer self observer c p).
Proof. unfold add_observer. keeps_all. Qed.

Lemma keeps_remove_observer self observer c : keeps g (remove_observer self observer c).
Proof. unfold remove_observer. keeps_all. Qed.

Lemma keeps_connect_fixes k self : keeps g (_connect_fixes k self).
Proof. unfold _connect_fixes. keeps_all. Qed.

Lemma keeps_parent_changed k : forall self parent, keeps g (_parent_changed k self parent).
Proof. induction k as [|k IH]; intros self parent; simpl; keeps_all. apply IH. Qed.

Lemma keeps_notify_parent_change k self : keeps g (_notify_parent_change k self).
Proof. unfold _notify_parent_change. keeps_all. apply keeps_parent_changed. Qed.

Lemma keeps_set_mask self index b : keeps g (set_mask self index b).
Proof. unfold set_mask. keeps_all. Qed.

End KeepsLight.

(** Methods that also rewire the tree: they write parents, parent indices
    and slices. *)
Section KeepsWiring.
Context {V A : Type} (g : node V -> A).
Hypothesis g_fixes : forall x n, g (with_fixes x n) = g n.
Hypothesis g_constraints : forall x n, g (with_constraints x n) = g n.
Hypothesis g_priors : forall x n, g (with_priors x n) = g n.
Hypothesis g_observers : forall x n, g (with_observer_callables x n) = g n.
Hypothesis g_parent : forall x n, g (with_direct_parent x n) = g n.
Hypothesis g_index : forall x n, g (with_parent_index x n) = g n.
Hypothesis g_slices : forall x n, g (with_param_slices x n) = g n.

Lemma keeps_connect_loop self : forall ps i last, keeps g (connect_loop self i ps last).
Proof.
  induction ps as [|p ps IH]; intros i last; simpl; keeps_all.
  - apply keeps_modify_node. intros n. rewrite g_index, g_parent. reflexivity.
  - apply IH.
Qed.

Lemma keeps_connect_parameters self : keeps g (_connect_parameters self).
Proof. unfold _connect_parameters. keeps_all. apply keeps_connect_loop. Qed.

Lemma keeps_disconnect_parent k self : keeps g (_disconnect_parent k self).
Proof.
  unfold _disconnect_parent. keeps_all.
  - apply keeps_connect_fixes; assumption.
  - apply keeps_notify_parent_change; assumption.
Qed.

Lemma keeps_reconnect_ancestors k : forall parent, keeps g (reconnect_ancestors k parent).
Proof.
  induction k as [|k IH]; intros [a|]; simpl; keeps_all.
  - apply keeps_connect_fixes; assumption.
  - apply keeps_connect_parameters.
  - apply keeps_notify_parent_change; assumption.
  - apply IH.
Qed.

End KeepsWiring.

(** ** Attaching a node *)

Section RunFacts.
Context {V : Type}.
Implicit Types (st : state V) (n : node V).

Lemma bind_assoc {B C D : Type} (m : M V B) (k1 : B -> M V C) (k2 : C -> M V D) st :
  bind (bind m k1) k2 st = bind m (fun b => bind (k1 b) k2) st.
Proof. unfold bind. destruct (m st) as [[b|e] st']; reflexivity. Qed.

Lemma bind_ret {B C : Type} (b : B) (k : B -> M V C) st : bind (ret b) k st = k b st.
Proof. reflexivity. Qed.

Lemma bind_get_node {B : Type} o (k : node V -> M V B) st n :
  nodes st !! o = Some n -> bind (get_node o) k st = k n st.
Proof. intros H. unfold bind, get_node, read, node_of. rewrite H. reflexivity. Qed.

Lemma bind_read {B C : Type} (r : state V -> outcome B) (k : B -> M V C) st :
  bind (read r) k st
  = match r st with
    | Ok b => k b st
    | Raise e => (Raise e, st)
    end.
Proof. unfold bind, read. destruct (r st); reflexivity. Qed.

Lemma bind_write_ops {B : Type} (w : iheap V -> outcome (iheap V)) (k : unit -> M V B) st :
  bind (write_ops w) k st
  = match w (iops st) with
    | Ok h => k tt (State (nodes st) h (next st) (log st))
    | Raise e => (Raise e, st)
    end.
Proof. unfold bind, write_ops. destruct (w (iops st)); reflexivity. Qed.

Lemma bind_modify_node {B : Type} o (h : node V -> node V) (k : unit -> M V B) st n :
  nodes st !! o = Some n ->
  bind (modify_node o h) k st
  = k tt (State (<[o := h n]> (nodes st)) (iops st) (next st) (log st)).
Proof. intros H. unfold bind, modify_node. rewrite H. reflexivity. Qed.

Lemma modify_node_run o (h : node V -> node V) st n :
  nodes st !! o = Some n ->
  modify_node o h st
  = (Ok tt, State (<[o := h n]> (nodes st)) (iops st) (next st) (log st)).
Proof. intros H. unfold modify_node. rewrite H. reflexivity. Qed.

End RunFacts.

(** Steps of a symbolic run of the computation in the equation [Hr]. *)
Ltac step_get Hr H :=
  rewrite ?bind_assoc in Hr;
  match type of Hr with
  | bind (get_node ?o) ?k ?s = _ => rewrite (bind_get_node o k s _ H) in Hr; cbv beta in Hr
  end.

Ltac step_modify Hr H :=
  rewrite ?bind_assoc in Hr;
  match type of Hr with
  | bind (modify_node ?o ?h) ?k ?s = _ =>
      rewrite (bind_modify_node o h k s _ H) in Hr; cbv beta in Hr;
      cbn [iops nodes next log] in Hr
  end.

Ltac step_write Hr Hok :=
  rewrite ?bind_assoc in Hr; rewrite bind_write_ops in Hr;
  cbn [iops nodes next log] in Hr;
  match type of Hr with
  | match ?w with _ => _ end = _ => destruct w; [|subst; discriminate Hok]
  end.

(** ** Assignments that no child's name diverts *)

Section NameFacts.
Context {V : Type}.
Implicit Types (st : state V) (n : node V).

Lemma index_of_absent x l :
  forallb (fun y => negb (String.eqb y x)) l = true -> index_of x l = None.
Proof.
  induction l as [|y l IH]; intros H; [reflexivity|].
  simpl in H. apply andb_true_iff in H as (Hy & Hl). simpl.
  destruct (String.eqb y x); [discriminate Hy|]. rewrite (IH Hl). reflexivity.
Qed.

Lemma printed_names_unnamed name ps st names :
  unnamed name ps st = true ->
  omap (fun x => let* c := node_of x st in Ok (adjust_name_for_printing (Some (_name c))))
       ps = Ok names ->
  forallb (fun y => negb (String.eqb y name)) names = true.
Proof.
  revert names. induction ps as [|p ps IH]; intros names Hu Hn.
  - injection Hn as <-. reflexivity.
  - simpl in Hu. apply andb_true_iff in Hu as (Hp & Hps).
    simpl in Hn. unfold node_of at 1 in Hn.
    destruct (nodes st !! p) as [c|]; [|discriminate Hn]. simpl in Hn.
    destruct (omap _ ps) as [names'|e] eqn:E; [|discriminate Hn].
    injection Hn as <-. simpl. rewrite Hp. apply (IH names' Hps eq_refl).
Qed.

(** An assignment that no child's name diverts is the plain one, if it
    returns at all. *)
Lemma setattr_plain self name (plain : node V -> node V) st n :
  nodes st !! self = Some n -> unnamed name (_parameters_ n) st = true ->
  __setattr__ self name plain st = modify_node self plain st \/
  exists e, __setattr__ self name plain st = (Raise e, st).
Proof.
  intros Hn Hu. unfold __setattr__. rewrite (bind_get_node self _ st n Hn).
  destruct (cls n); [left; reflexivity|]. rewrite bind_read.
  unfold parameter_names.
  replace (node_of self st) with (Ok n) by (unfold node_of; rewrite Hn; reflexivity).
  cbn [obind].
  destruct (omap _ (_parameters_ n)) as [names|e] eqn:E; cbn [obind].
  - rewrite (index_of_absent name names (printed_names_unnamed name _ st names Hu E)).
    left. reflexivity.
  - right. exists e. reflexivity.
Qed.

Lemma bind_setattr {B : Type} self name (plain : node V -> node V) (k : unit -> M V B)
      st n :
  nodes st !! self = Some n -> unnamed name (_parameters_ n) st = true ->
  bind (__setattr__ self name plain) k st
  = k tt (State (<[self := plain n]> (nodes st)) (iops st) (next st) (log st)) \/
  exists e, bind (__setattr__ self name plain) k st = (Raise e, st).
Proof.
  intros Hn Hu. destruct (setattr_plain self name plain st n Hn Hu) as [H|(e & H)].
  - left. unfold bind. rewrite H, (modify_node_run self plain st n Hn). reflexivity.
  - right. exists e. unfold bind. rewrite H. reflexivity.
Qed.

Lemma unnamed_kept name ps st st' :
  (forall c, In c ps -> _name <$> nodes st' !! c = _name <$> nodes st !! c) ->
  unnamed name ps st' = unnamed name ps st.
Proof.
  intros H. unfold unnamed. induction ps as [|p ps IH]; [reflexivity|].
  cbn [forallb]. rewrite IH by (intros c Hc; apply H; right; exact Hc).
  specialize (H p (or_introl eq_refl)).
  destruct (nodes st' !! p) as [a|], (nodes st !! p) as [b|]; try discriminate H;
    [|reflexivity].
  change (Some (_name a) = Some (_name b)) in H. injection H as ->. reflexivity.
Qed.

Lemma unnamed_incl name ps qs st :
  (forall c, In c qs -> In c ps) -> unnamed name ps st = true ->
  unnamed name qs st = true.
Proof.
  intros H Hu. unfold unnamed in *. rewrite forallb_forall in *.
  intros c Hc. apply Hu, H, Hc.
Qed.

End NameFacts.

(** The step of a symbolic run at an assignment that no name diverts. *)
Ltac step_setattr Hr H Hu Hok :=
  rewrite ?bind_assoc in Hr;
  match type of Hr with
  | bind (__setattr__ ?o ?name ?h) ?k ?s = _ =>
      let Hsa := fresh "Hsa" in
      destruct (bind_setattr o name h k s _ H Hu) as [Hsa|[? Hsa]];
      rewrite Hsa in Hr; clear Hsa;
      [cbv beta in Hr; cbn [iops nodes next log] in Hr|subst; discriminate Hok]
  end.

Section AttachFacts.
Context {V : Type}.
Implicit Types (st : state V) (n : node V).

(** What the end of [add_parameter] and of [remove_parameter] -- the calls
    of [_connect_parameters], [_notify_parent_change] and [_connect_fixes]
    -- leaves alone. *)
Lemma keeps_reconnect {A : Type} (g : node V -> A) k self :
  (forall x n, g (with_fixes x n) = g n) ->
  (forall x n, g (with_constraints x n) = g n) ->
  (forall x n, g (with_priors x n) = g n) ->
  (forall x n, g (with_observer_callables x n) = g n) ->
  (forall x n, g (with_direct_parent x n) = g n) ->
  (forall x n, g (with_parent_index x n) = g n) ->
  (forall x n, g (with_param_slices x n) = g n) ->
  keeps g (let! _ := _connect_parameters self in
           let! _ := _notify_parent_change k self in
           _connect_fixes k self).
Proof.
  intros. keeps_all.
  - apply keeps_connect_parameters; assumption.
  - apply keeps_notify_parent_change; assumption.
  - apply keeps_connect_fixes; assumption.
Qed.

(** What [add_parameter] makes of the container, when it attaches a node
    that has no parent. *)
Lemma add_parameter_run k self param (index : option Z) st n pn :
  nodes st !! self = Some n -> nodes st !! param = Some pn -> param <> self ->
  mem_nat param (_parameters_ n) = false -> _direct_parent_ pn = None ->
  unnamed "size" (param :: _parameters_ n) st = true ->
  forall r, add_parameter (S k) self param index st = r -> fst r = Ok tt ->
  forall (A : Type) (g : node V -> A),
    (forall x n, g (with_fixes x n) = g n) ->
    (forall x n, g (with_constraints x n) = g n) ->
    (forall x n, g (with_priors x n) = g n) ->
    (forall x n, g (with_observer_callables x n) = g n) ->
    (forall x n, g (with_direct_parent x n) = g n) ->
    (forall x n, g (with_parent_index x n) = g n) ->
    (forall x n, g (with_param_slices x n) = g n) ->
    g <$> nodes (snd r) !! self
    = Some (g (with_size (size n + size pn)
                 (with_parameters
                    match index with
                    | None => _parameters_ n ++ [param]
                    | Some i => list_insert (_parameters_ n) i param
                    end n))) /\
    forall x, x <> self ->
              g <$> nodes (snd r) !! x = g <$> nodes st !! x.
Proof.
  intros Hn Hp Hps Hm Hdp Hu r Hr Hok A g G1 G2 G3 G4 G5 G6 G7.
  cbn [add_parameter] in Hr. rewrite (bind_get_node self _ st n Hn) in Hr.
  rewrite Hm in Hr. cbn [andb negb] in Hr.
  rewrite (bind_get_node param _ st pn Hp) in Hr. rewrite Hdp in Hr.
  rewrite bind_ret in Hr.
  assert (Hend : forall h ps,
             (forall c, In c ps -> In c (param :: _parameters_ n)) ->
             let n1 := with_parameters ps n in
             let st1 := State (<[self := n1]> (nodes st)) h (next st) (log st) in
             forall r',
               (let! _ := add_observer param self (PassThrough self) NegInf in
                let! s5 := get_node self in
                let! p5 := get_node param in
                let! _ := __setattr__ self "size"%string (with_size (size s5 + size p5)) in
                let! _ := _connect_parameters self in
                let! _ := _notify_parent_change k self in
                _connect_fixes k self) st1 = r' ->
               fst r' = Ok tt ->
               g <$> nodes (snd r') !! self
               = Some (g (with_size (size n + size pn) (with_parameters ps n))) /\
               forall x, x <> self -> g <$> nodes (snd r') !! x = g <$> nodes st !! x).
  { intros h ps Hsub n1 st1 r' Hr' Hok'.
    assert (Hp1 : nodes st1 !! param = Some pn).
    { unfold st1. cbn [nodes]. rewrite lookup_insert_ne by auto. exact Hp. }
    unfold add_observer in Hr'. rewrite (bind_modify_node param _ _ st1 pn Hp1) in Hr'.
    set (pn1 := with_observer_callables
                  (Observable.add_observer (_observer_callables_ pn) self
                     (PassThrough self) NegInf) pn) in *.
    set (st2 := State (<[param := pn1]> (nodes st1)) (iops st1) (next st1) (log st1)) in *.
    assert (Hs2 : nodes st2 !! self = Some n1).
    { unfold st2, st1. cbn [nodes]. rewrite lookup_insert_ne by auto.
      apply lookup_insert_eq. }
    assert (Hp2 : nodes st2 !! param = Some pn1).
    { unfold st2. cbn [nodes]. apply lookup_insert_eq. }
    assert (Hu2 : unnamed "size" (_parameters_ n1) st2 = true).
    { apply (unnamed_incl _ (param :: _parameters_ n)); [exact Hsub|].
      rewrite (unnamed_kept _ _ st st2); [exact Hu|]. intros c _.
      unfold st2, st1. cbn [nodes].
      destruct (Nat.eq_dec c param) as [->|Hc];
        [rewrite lookup_insert_eq, Hp; reflexivity|].
      rewrite lookup_insert_ne by auto.
      destruct (Nat.eq_dec c self) as [->|Hc'];
        [rewrite lookup_insert_eq, Hn; reflexivity|].
      rewrite lookup_insert_ne by auto. reflexivity. }
    rewrite (bind_get_node self _ st2 n1 Hs2) in Hr'.
    rewrite (bind_get_node param _ st2 pn1 Hp2) in Hr'.
    step_setattr Hr' Hs2 Hu2 Hok'.
    set (st3 := State (<[self := with_size (size n1 + size pn1) n1]> (nodes st2))
                      (iops st2) (next st2) (log st2)) in *.
    subst r'.
    pose proof (keeps_reconnect g k self G1 G2 G3 G4 G5 G6 G7 st3) as Hk.
    split.
    - rewrite Hk. unfold st3. cbn [nodes]. rewrite lookup_insert_eq. reflexivity.
    - intros x Hx. rewrite Hk. unfold st3, st2, st1. cbn [nodes].
      rewrite lookup_insert_ne by auto.
      destruct (Nat.eq_dec x param) as [->|Hxp].
      + rewrite lookup_insert_eq, Hp. simpl. unfold pn1. rewrite G4. reflexivity.
      + rewrite !lookup_insert_ne by auto. reflexivity. }
  destruct index as [i|]; cbv beta iota in Hr.
  - step_get Hr Hn. unfold sizes_of in Hr. rewrite ?bind_assoc, bind_read in Hr.
    destruct (omap _ _) as [szs|e]; [|subst r; discriminate Hok].
    cbv zeta in Hr.
    step_get Hr Hp. step_write Hr Hok. step_get Hr Hn. step_get Hr Hp. step_write Hr Hok.
    step_get Hr Hn. step_get Hr Hp. step_write Hr Hok.
    step_get Hr Hn. step_get Hr Hp. step_write Hr Hok.
    step_get Hr Hn. step_modify Hr Hn.
    refine (Hend _ _ _ r Hr Hok). intros c Hc. unfold list_insert in Hc.
    apply in_app_or in Hc as [Hc|[Hc|Hc]].
    + right. rewrite <- (firstn_skipn (clamp (len (_parameters_ n)) i)).
      apply in_or_app. left. exact Hc.
    + left. exact Hc.
    + right. rewrite <- (firstn_skipn (clamp (len (_parameters_ n)) i)).
      apply in_or_app. right. exact Hc.
  - step_get Hr Hn. step_get Hr Hp. step_write Hr Hok.
    step_get Hr Hn. step_get Hr Hp. step_write Hr Hok.
    step_get Hr Hn. step_modify Hr Hn.
    refine (Hend _ _ _ r Hr Hok). intros c Hc.
    apply in_app_or in Hc as [Hc|[Hc|[]]]; [right; exact Hc|left; exact Hc].
Qed.

End AttachFacts.

Section SizeFacts.
Context {V : Type}.
Implicit Types (st : state V) (n : node V).

Lemma zsum_app (a b : list Z) : zsum (a ++ b) = zsum a + zsum b.
Proof. induction a as [|x a IH]; simpl; lia. Qed.

Lemma child_sizes_app ps qs st szs tzs :
  child_sizes ps st = Ok szs -> child_sizes qs st = Ok tzs ->
  child_sizes (ps ++ qs) st = Ok (szs ++ tzs).
Proof.
  revert szs. induction ps as [|p ps IH]; intros szs Hs Ht.
  - injection Hs as <-. exact Ht.
  - apply child_sizes_cons in Hs as (pn & szs' & Hpn & -> & Hs').
    unfold child_sizes in *. simpl. unfold node_of at 1. rewrite Hpn. simpl.
    rewrite (IH szs' Hs' Ht). reflexivity.
Qed.

Lemma child_sizes_take ps : forall st szs (c : nat),
  child_sizes ps st = Ok szs ->
  child_sizes (firstn c ps) st = Ok (firstn c szs) /\
  child_sizes (skipn c ps) st = Ok (skipn c szs).
Proof.
  induction ps as [|p ps IH]; intros st szs c Hs.
  - injection Hs as <-. destruct c; split; reflexivity.
  - pose proof Hs as Hs0.
    apply child_sizes_cons in Hs as (pn & szs' & Hpn & -> & Hs').
    destruct c as [|c]; [split; [reflexivity|exact Hs0]|].
    destruct (IH st szs' c Hs') as (H1 & H2). split; [|exact H2].
    unfold child_sizes in *. simpl. unfold node_of at 1. rewrite Hpn. simpl.
    rewrite H1. reflexivity.
Qed.

(** Sizes read off nodes that kept their sizes. *)
Lemma child_sizes_kept ps st st' :
  (forall c, In c ps -> size <$> nodes st' !! c = size <$> nodes st !! c) ->
  child_sizes ps st' = child_sizes ps st.
Proof.
  intros H. unfold child_sizes. apply omap_ext. intros c Hc. unfold node_of.
  specialize (H c Hc).
  destruct (nodes st' !! c) as [a|], (nodes st !! c) as [b|]; simpl in *;
    try discriminate; auto.
  injection H as ->. reflexivity.
Qed.

End SizeFacts.

Module AttachTheorems.
Import Scenario.

Ltac evaluate := vm_compute; reflexivity.



End AttachTheorems.

(** ** Detaching a node *)

Section DetachFacts.
Context {V : Type}.
Implicit Types (st : state V) (n : node V).

Lemma bind_run {B C : Type} (m : M V B) (k : B -> M V C) st (b : B) st' :
  m st = (Ok b, st') -> bind m k st = k b st'.
Proof. intros H. unfold bind. rewrite H. reflexivity. Qed.

Lemma list_del_ok {A : Type} (a : list A) (i : nat) (x : A) :
  a !! i = Some x -> list_del a i = Ok (firstn i a ++ skipn (S i) a).
Proof.
  intros H. unfold list_del. apply lookup_lt_Some in H.
  destruct (Nat.ltb_spec i (length a)); [reflexivity|lia].
Qed.

(** What the end of [remove_parameter] leaves alone. *)
Lemma keeps_detach_end {A : Type} (g : node V -> A) k self param (start : Z) :
  (forall x n, g (with_fixes x n) = g n) ->
  (forall x n, g (with_constraints x n) = g n) ->
  (forall x n, g (with_priors x n) = g n) ->
  (forall x n, g (with_observer_callables x n) = g n) ->
  (forall x n, g (with_direct_parent x n) = g n) ->
  (forall x n, g (with_parent_index x n) = g n) ->
  (forall x n, g (with_param_slices x n) = g n) ->
  keeps g (let! _ := _disconnect_parent k param in
           let! _ := remove_observer param self (Some (PassThrough self)) in
           let! n3 := get_node self in
           let! pn3 := get_node param in
           let! _ := write_ops (shift_left k (constraints n3) start (size pn3)) in
           let! _ := _connect_fixes k self in
           let! _ := _connect_parameters self in
           let! _ := _notify_parent_change k self in
           let! n4 := get_node self in
           reconnect_ancestors k (_direct_parent_ n4)).
Proof.
  intros. keeps_all.
  - apply keeps_disconnect_parent; assumption.
  - apply keeps_remove_observer; assumption.
  - apply keeps_connect_fixes; assumption.
  - apply keeps_connect_parameters; assumption.
  - apply keeps_notify_parent_change; assumption.
  - apply keeps_reconnect_ancestors; assumption.
Qed.

(** What [remove_parameter] makes of the container, when its children are
    distinct nodes other than itself. *)
Lemma remove_parameter_run k self param st n pn (i : nat) szs :
  nodes st !! self = Some n -> nodes st !! param = Some pn ->
  _parameters_ n !! i = Some param ->
  NoDup (_parameters_ n) -> ~ In self (_parameters_ n) ->
  child_sizes (_parameters_ n) st = Ok szs ->
  unnamed "size" (_parameters_ n) st = true ->
  forall r, remove_parameter k self param st = r -> fst r = Ok tt ->
  forall (A : Type) (g : node V -> A),
    (forall x n, g (with_fixes x n) = g n) ->
    (forall x n, g (with_constraints x n) = g n) ->
    (forall x n, g (with_priors x n) = g n) ->
    (forall x n, g (with_observer_callables x n) = g n) ->
    (forall x n, g (with_direct_parent x n) = g n) ->
    (forall x n, g (with_parent_index x n) = g n) ->
    (forall x n, g (with_param_slices x n) = g n) ->
    g <$> nodes (snd r) !! self
    = Some (g (with_parameters (firstn i (_parameters_ n) ++ skipn (S i) (_parameters_ n))
                 (with_size (size n - size pn) n))) /\
    forall x, x <> self -> g <$> nodes (snd r) !! x = g <$> nodes st !! x.
Proof.
  intros Hn Hp Hi Hnd Hself Hsz Hu r Hr Hok A g G1 G2 G3 G4 G5 G6 G7.
  assert (Hin : In param (_parameters_ n)).
  { apply list_elem_of_In. eapply list_elem_of_lookup_2. exact Hi. }
  assert (Hps : param <> self) by (intros ->; contradiction).
  assert (Hm : mem_nat param (_parameters_ n) = true) by (apply mem_nat_In; exact Hin).
  assert (Hne : _parameters_ n <> []) by (intros E; rewrite E in Hin; contradiction).
  destruct (connect_parameters_run self st n szs Hn Hne Hself Hnd Hsz) as
    (st1 & Hrun & _ & _ & _ & Hs1 & Hch & Hfr).
  destruct (Hch i param Hi) as (pn' & Hpn' & Hp1).
  rewrite Hp in Hpn'. injection Hpn' as <-.
  unfold remove_parameter in Hr. step_get Hr Hn. rewrite Hm in Hr. cbn [negb] in Hr.
  step_get Hr Hp. unfold sizes_of in Hr. rewrite ?bind_assoc, bind_read in Hr.
  destruct (omap _ _) as [pre|e]; [|subst r; discriminate Hok].
  cbv zeta in Hr. unfold _remove_parameter_name in Hr.
  rewrite ?bind_assoc in Hr. rewrite (bind_run _ _ st tt st1 Hrun) in Hr.
  set (n1 := with_param_slices (slices_from 0 szs) n) in *.
  set (pn1 := with_parent_index (Some i) (with_direct_parent (Some self) pn)) in *.
  assert (Hu1 : unnamed "size" (_parameters_ n1) st1 = true).
  { change (_parameters_ n1) with (_parameters_ n).
    rewrite (unnamed_kept _ _ st st1); [exact Hu|]. intros c _.
    pose proof (keeps_connect_parameters (V:=V) _name (fun _ _ => eq_refl)
                  (fun _ _ => eq_refl) (fun _ _ => eq_refl) self st c) as Hk.
    rewrite Hrun in Hk. exact Hk. }
  step_get Hr Hs1. step_get Hr Hp1.
  step_setattr Hr Hs1 Hu1 Hok.
  set (n2 := with_size (size n1 - size pn1) n1) in *.
  assert (Hs2 : forall ns h x l,
             nodes (State (<[self := ns]> (nodes st1)) h x l) !! self = Some ns).
  { intros. cbn [nodes]. apply lookup_insert_eq. }
  assert (Hp2 : forall ns h x l,
             nodes (State (<[self := ns]> (nodes st1)) h x l) !! param = Some pn1).
  { intros. cbn [nodes]. rewrite lookup_insert_ne by auto. exact Hp1. }
  step_get Hr (Hs2 n2 (iops st1) (next st1) (log st1)).
  step_get Hr (Hp2 n2 (iops st1) (next st1) (log st1)).
  change (_parent_index_ pn1) with (Some i) in Hr. cbv iota in Hr.
  change (_parameters_ n2) with (_parameters_ n) in Hr.
  rewrite (list_del_ok (_parameters_ n) i param Hi) in Hr.
  rewrite ?bind_assoc in Hr.
  change (lift (Ok ?x)) with (ret (V:=V) x) in Hr. rewrite bind_ret in Hr.
  step_modify Hr (Hs2 n2 (iops st1) (next st1) (log st1)).
  rewrite insert_insert_eq in Hr.
  set (n3 := with_parameters (firstn i (_parameters_ n) ++ skipn (S i) (_parameters_ n)) n2) in *.
  subst r.
  match goal with
  | |- context [snd (?m (State ?ns ?h ?x ?l))] =>
      pose proof (keeps_detach_end g k self param (zsum pre) G1 G2 G3 G4 G5 G6 G7
                    (State ns h x l)) as Hk
  end.
  split.
  - rewrite Hk. cbn [nodes]. rewrite lookup_insert_eq. simpl.
    unfold n3, n2, n1. f_equal.
    change (size (with_param_slices (slices_from 0 szs) n)) with (size n).
    change (size pn1) with (size pn).
    destruct n; simpl. 
    match goal with
    | |- g ?a = g ?b =>
        change a with (with_param_slices (slices_from 0 szs) b)
    end.
    apply G7.
  - intros x Hx. rewrite Hk. cbn [nodes]. rewrite lookup_insert_ne by auto.
    destruct (in_dec Nat.eq_dec x (_parameters_ n)) as [Hxin|Hxin].
    + apply list_elem_of_In, list_elem_of_lookup_1 in Hxin as (j & Hj).
      destruct (Hch j x Hj) as (cn & Hcn & Hc1). rewrite Hc1, Hcn. simpl.
      rewrite G6, G5. reflexivity.
    + rewrite Hfr by auto. reflexivity.
Qed.

End DetachFacts.

Module DetachTheorems.
Import Scenario.

Ltac evaluate := vm_compute; reflexivity.



End DetachTheorems.

(** ** The optimizer's view: what is set is read back *)

Section ReadBackFacts.
Context {V : Type}.
Implicit Types (items : props V) (raw p v : list V) (st : state V).

Lemma iops_bind {B C : Type} (m : M V B) (k : B -> M V C) :
  (forall st, iops (snd (m st)) = iops st) ->
  (forall b st, iops (snd (k b st)) = iops st) ->
  forall st, iops (snd (bind m k st)) = iops st.
Proof.
  intros Hm Hk st. rewrite snd_bind. destruct (fst (m st)); [rewrite Hk|]; apply Hm.
Qed.

Lemma iops_for_each {B : Type} (l : list B) (body : B -> M V unit) :
  (forall b st, iops (snd (body b st)) = iops st) ->
  forall st, iops (snd (for_each l body st)) = iops st.
Proof.
  intros H. induction l as [|b l IH]; intros st; simpl; auto.
  apply iops_bind; auto.
Qed.

(** [_set_params] writes no index operations. *)
Lemma set_params_iops k : forall o y tp st,
  iops (snd (_set_params k o y tp st)) = iops st.
Proof.
  induction k as [|k IH]; intros o y tp st; [reflexivity|].
  cbn [_set_params]. apply iops_bind; [reflexivity|]. intros n st1.
  apply iops_bind.
  - intros st2. destruct (cls n).
    + destruct (Nat.eqb _ _); [|reflexivity].
      unfold modify_node. destruct (nodes st2 !! o); reflexivity.
    + apply iops_for_each. intros [c sl] st3. apply IH.
  - intros _ st2. apply notify_observers_same_store.
Qed.

Lemma consistent_length raw raw' items mask :
  length raw' = length raw ->
  consistent raw' items mask = consistent raw items mask.
Proof. intros H. unfold consistent, len. rewrite H. reflexivity. Qed.

(** Transforms that undo one another cancel position by position. *)
Lemma transform_at_cancel (g1 g2 : Transformation.t V -> V -> V) items (i : Z) (x : V) :
  disjoint_transforms items = true ->
  (forall c ind, In (Constraint c, ind) items -> forall x, g1 c (g2 c x) = x) ->
  transform_at g1 items i (transform_at g2 items i x) = x.
Proof.
  revert x. induction items as [|[c ind] items IH]; intros x Hd Hinv; simpl in *; auto.
  assert (Hinv' : forall c ind, In (Constraint c, ind) items -> forall x, g1 c (g2 c x) = x).
  { intros c' ind' Hin. apply (Hinv c' ind'). right. exact Hin. }
  destruct c as [|t|q]; auto.
  apply andb_true_iff in Hd as [Hd1 Hd2].
  destruct (mem_z i ind) eqn:Em.
  - pose proof (disjoint_uncovered ind items i Hd1 Em) as Hu.
    rewrite !(transform_at_uncovered _ items i _ Hu).
    apply (Hinv t ind). left. reflexivity.
  - rewrite IH; auto.
Qed.

(** What a masked write put in, the mask selects again. *)
Lemma select_scatter (a : list V) : forall (m : list bool) v,
  length a = length m -> length v = count_true m -> select (scatter a m v) m = v.
Proof.
  induction a as [|x a IH]; intros [|b m] v Ha Hv; try discriminate Ha.
  - destruct v; [reflexivity|discriminate Hv].
  - injection Ha as Ha. destruct b.
    + destruct v as [|y v]; [discriminate Hv|].
      change (count_true (true :: m)) with (S (count_true m)) in Hv.
      injection Hv as Hv. simpl. f_equal. apply IH; assumption.
    + change (count_true (false :: m)) with (count_true m) in Hv.
      simpl. apply IH; assumption.
Qed.

End ReadBackFacts.

Module ReadBack.
Import Scenario.

Ltac conjuncts := repeat match goal with |- _ /\ _ => split end.
Ltac evaluate := vm_compute; reflexivity.

(** X16: on a node that has not been made a child, whose subtree and
    optimizer view are consistent and whose transforms satisfy
    [finv (f x) = x], [_set_params_transformed] with a vector of the
    free-parameter length returns, and [_get_params_transformed] then gives
    that vector back. *)
Theorem set_then_get_params_transformed :
  forall (V : Type) (k d : nat) (st : state V) (self : nat) (n : node V)
         (raw : list V) (items : props V) (v : list V),
    nodes st !! self = Some n ->
    wf_tree d self st -> (d <= k)%nat -> NoDup (leaves d self st) ->
    plain_below d self st = true ->
    no_pass_through (_observer_callables_ n) = true ->
    _get_params k self st = Ok raw ->
    iteritems k (constraints n) (iops st) = Ok items ->
    consistent raw items (_fixes_ n) = true ->
    (forall c ind, In (Constraint c, ind) items ->
                   forall x, Transformation.finv c (Transformation.f c x) = x) ->
    length v = match _fixes_ n with Some m => count_true m | None => length raw end ->
    fst (_set_params_transformed k self v st) = Ok tt /\
    _get_params_transformed k self (snd (_set_params_transformed k self v st)) = Ok v.
Proof.
  intros V k d st self n raw items v Hn Hw Hk Hnd Hpl Hreg Hraw Hit Hc Hinv Hv.
  pose proof (untransform_params_value k st self n raw items v Hn Hraw Hit Hc Hv) as Hu.
  set (w := match _fixes_ n with Some m => scatter raw m v | None => v end) in *.
  set (y := imap (fun j x => transform_at Transformation.f items (Z.of_nat j) x) w) in *.
  assert (Hset : _set_params_transformed k self v st = _set_params k self y true st).
  { unfold _set_params_transformed, bind, read. rewrite Hu. reflexivity. }
  rewrite Hset.
  pose proof Hc as Hc0. apply consistent_parts in Hc0 as (_ & _ & Hd & Hm & _).
  assert (Hwl : length w = length raw).
  { unfold w. destruct (_fixes_ n); [apply scatter_length|exact Hv]. }
  assert (Hyl : length y = length raw) by (unfold y; rewrite length_imap; exact Hwl).
  destruct (wf_tree_get_params d self st k Hw Hk) as (n0 & raw0 & Hn0 & Hraw0 & Hlen).
  rewrite Hn in Hn0. injection Hn0 as <-. rewrite Hraw in Hraw0. injection Hraw0 as <-.
  assert (Hylen : len y = size n) by (unfold len in *; lia).
  assert (Hok : fst (_set_params k self y true st) = Ok tt).
  { apply (set_params_returns d k self st y true n); auto.
    destruct k as [|k]; [destruct d; [contradiction|lia]|].
    apply (notify_root_returns k self None None st n Hn Hreg). }
  split; [exact Hok|].
  set (st' := snd (_set_params k self y true st)).
  assert (Hget : _get_params k self st' = Ok y).
  { apply (set_then_get d k Hk self st y true n); auto. }
  pose proof (set_params_frame d self st k y true Hw Hk) as (Hsh & _).
  fold st' in Hsh.
  destruct (same_shape_lookup st st' self n Hsh Hn) as (n' & Hn' & Hsn).
  assert (Hfx : _fixes_ n' = _fixes_ n /\ constraints n' = constraints n).
  { destruct Hsn as (-> & _). destruct n; split; reflexivity. }
  destruct Hfx as (Hfx & Hcs).
  assert (Hit' : iteritems k (constraints n') (iops st') = Ok items).
  { rewrite Hcs. unfold st'. rewrite set_params_iops. exact Hit. }
  assert (Hc' : consistent y items (_fixes_ n') = true).
  { rewrite Hfx, (consistent_length raw y items _ Hyl). exact Hc. }
  rewrite (get_params_transformed_value k st' self n' y items Hn' Hget Hit' Hc').
  rewrite Hfx. f_equal.
  assert (Hinvw : inverse_image items y = w).
  { apply list_eq. intros j. unfold inverse_image, y. rewrite !list_lookup_imap.
    destruct (w !! j) as [x|]; simpl; auto.
    rewrite transform_at_cancel; auto. }
  rewrite Hinvw. unfold w. destruct (_fixes_ n) as [m|]; [|reflexivity].
  apply select_scatter; auto.
  simpl in Hm. apply Nat.eqb_eq in Hm. auto.
Qed.

Lemma set_then_get_params_transformed_example :
  fst (_set_params_transformed fuel 0%nat [1; 2; 3] (snd (mixed empty_state))) = Ok tt /\
  _get_params_transformed fuel 0%nat
    (snd (_set_params_transformed fuel 0%nat [1; 2; 3] (snd (mixed empty_state))))
  = Ok [1; 2; 3].
Proof.
  apply (set_then_get_params_transformed Z fuel 2%nat (snd (mixed empty_state)) 0%nat
           (Node Parameterized 4 None None [3%nat; 6%nat; 9%nat]
                 [(0, 1); (1, 3); (3, 4)] 1%nat 2%nat
                 (Some [true; true; true; false])
                 [(Fin (-100), 0%nat, ParametersChanged 0%nat)] [] [] "Parameterized"%string)
           [10; 20; 30; 40] [(Constraint shift, [0]); (__fixed__, [3])] [1; 2; 3]).
  - evaluate.
  - cbn [wf_tree]. eexists. split; [evaluate|].
    cbv beta iota delta [cls _parameters_]. split.
    + intros c [<-|[<-|[<-|[]]]]; cbn [wf_tree]; eexists; (split; [evaluate|evaluate]).
    + eexists. conjuncts; evaluate.
  - unfold fuel. lia.
  - assert (E : leaves 2 0%nat (snd (mixed empty_state)) = [3%nat; 6%nat; 9%nat])
      by evaluate.
    rewrite E.
    repeat (apply NoDup_cons_2; [rewrite ?elem_of_cons, elem_of_nil; lia|]).
    apply NoDup_nil_2.
  - evaluate.
  - evaluate.
  - evaluate.
  - evaluate.
  - evaluate.
  - intros c ind [E|[E|[]]]; [|discriminate].
    injection E as <- <-. intros x. cbv [shift Transformation.f Transformation.finv]. lia.
  - reflexivity.
Defined.

(** X27: on a node that has not been made a child, whose subtree and
    optimizer view are consistent and whose mask mirrors the indices the
    store records as fixed, [_set_params_transformed] with a vector of the
    free-parameter length returns, and the raw vector [_get_params] gives
    afterwards has the length of the one before and, at every index recorded
    as fixed, the value that was there. *)
Theorem set_params_transformed_leaves_fixed_entries :
  forall (V : Type) (k d : nat) (st : state V) (self : nat) (n : node V)
         (raw : list V) (items : props V) (v : list V),
    nodes st !! self = Some n ->
    wf_tree d self st -> (d <= k)%nat -> NoDup (leaves d self st) ->
    plain_below d self st = true ->
    no_pass_through (_observer_callables_ n) = true ->
    _get_params k self st = Ok raw ->
    iteritems k (constraints n) (iops st) = Ok items ->
    consistent raw items (_fixes_ n) = true ->
    mask_mirrors (_fixes_ n) (store_getitem items __fixed__) (length raw) = true ->
    length v = match _fixes_ n with Some m => count_true m | None => length raw end ->
    fst (_set_params_transformed k self v st) = Ok tt /\
    exists raw',
      _get_params k self (snd (_set_params_transformed k self v st)) = Ok raw' /\
      length raw' = length raw /\
      forall i, In i (store_getitem items __fixed__) -> 0 <= i < len raw ->
                raw' !! Z.to_nat i = raw !! Z.to_nat i.
Proof.
  intros V k d st self n raw items v Hn Hw Hk Hnd Hpl Hreg Hraw Hit Hc Hmm Hv.
  pose proof (untransform_params_value k st self n raw items v Hn Hraw Hit Hc Hv) as Hu.
  set (w := match _fixes_ n with Some m => scatter raw m v | None => v end) in *.
  set (y := imap (fun j x => transform_at Transformation.f items (Z.of_nat j) x) w) in *.
  assert (Hset : _set_params_transformed k self v st = _set_params k self y true st).
  { unfold _set_params_transformed, bind, read. rewrite Hu. reflexivity. }
  rewrite Hset.
  assert (Hwl : length w = length raw).
  { unfold w. destruct (_fixes_ n); [apply scatter_length|exact Hv]. }
  assert (Hyl : length y = length raw) by (unfold y; rewrite length_imap; exact Hwl).
  destruct (wf_tree_get_params d self st k Hw Hk) as (n0 & raw0 & Hn0 & Hraw0 & Hlen).
  rewrite Hn in Hn0. injection Hn0 as <-. rewrite Hraw in Hraw0. injection Hraw0 as <-.
  assert (Hylen : len y = size n) by (unfold len in *; lia).
  assert (Hok : fst (_set_params k self y true st) = Ok tt).
  { apply (set_params_returns d k self st y true n); auto.
    destruct k as [|k]; [destruct d; [contradiction|lia]|].
    apply (notify_root_returns k self None None st n Hn Hreg). }
  split; [exact Hok|]. exists y. split; [|split; [exact Hyl|]].
  { apply (set_then_get d k Hk self st y true n); auto. }
  intros i Hi Hr. unfold y, w. apply untransform_keeps_fixed; [exact Hc|].
  unfold mask_mirrors in Hmm. destruct (_fixes_ n) as [m|].
  - apply andb_true_iff in Hmm as (_ & Hall). rewrite forallb_forall in Hall.
    assert (Hin : In (Z.to_nat i) (seq 0 (length raw))).
    { apply in_seq. unfold len in Hr. lia. }
    apply Hall in Hin. rewrite Z2Nat.id in Hin by lia.
    apply Bool.eqb_prop in Hin. rewrite Hin. apply mem_z_In. exact Hi.
  - destruct (store_getitem items __fixed__); [contradiction|discriminate Hmm].
Qed.

Lemma set_params_transformed_leaves_fixed_entries_example :
  let call := _set_params_transformed fuel 0%nat [1; 2; 3] (snd (mixed empty_state)) in
  _get_params fuel 0%nat (snd call) = Ok [2; 2; 3; 40] /\
  fst call = Ok tt /\
  exists raw',
    _get_params fuel 0%nat (snd call) = Ok raw' /\
    length raw' = length [10; 20; 30; 40] /\
    forall i, In i (store_getitem [(Constraint shift, [0]); (__fixed__, [3])] __fixed__) ->
              0 <= i < len [10; 20; 30; 40] ->
              raw' !! Z.to_nat i = [10; 20; 30; 40] !! Z.to_nat i.
Proof.
  cbv zeta. split; [evaluate|].
  apply (set_params_transformed_leaves_fixed_entries Z fuel 2%nat (snd (mixed empty_state))
           0%nat
           (Node Parameterized 4 None None [3%nat; 6%nat; 9%nat]
                 [(0, 1); (1, 3); (3, 4)] 1%nat 2%nat
                 (Some [true; true; true; false])
                 [(Fin (-100), 0%nat, ParametersChanged 0%nat)] [] []
                 "Parameterized"%string)
           [10; 20; 30; 40] [(Constraint shift, [0]); (__fixed__, [3])] [1; 2; 3]).
  - evaluate.
  - cbn [wf_tree]. eexists. split; [evaluate|].
    cbv beta iota delta [cls _parameters_]. split.
    + intros c [<-|[<-|[<-|[]]]]; cbn [wf_tree]; eexists; (split; [evaluate|evaluate]).
    + eexists. conjuncts; evaluate.
  - unfold fuel. lia.
  - assert (E : leaves 2 0%nat (snd (mixed empty_state)) = [3%nat; 6%nat; 9%nat])
      by evaluate.
    rewrite E.
    repeat (apply NoDup_cons_2; [rewrite ?elem_of_cons, elem_of_nil; lia|]).
    apply NoDup_nil_2.
  - evaluate.
  - evaluate.
  - evaluate.
  - evaluate.
  - evaluate.
  - evaluate.
  - reflexivity.
Defined.

End ReadBack.

(** ** Leaves and gradients *)

Section GradientFacts.
Context {V : Type} {num : Numeric V}.
Implicit Types (items : props V) (x g : list V) (st : state V).

Lemma omap_map {A B : Type} (h : A -> outcome B) (f : A -> B) (l : list A) :
  (forall a, In a l -> h a = Ok (f a)) -> omap h l = Ok (map f l).
Proof.
  induction l as [|a l IH]; intros H; simpl; auto.
  rewrite (H a) by (left; reflexivity). simpl.
  rewrite IH by (intros b Hb; apply H; right; exact Hb). reflexivity.
Qed.

(** On a consistent subtree [flattened_parameters] lists the leaves, in the
    order of the raw vector. *)
Lemma flattened_parameters_leaves d : forall k o st,
  wf_tree d o st -> (d <= k)%nat -> flattened_parameters k o st = Ok (leaves d o st).
Proof.
  induction d as [|d IH]; intros k o st Hw Hk; [contradiction|].
  destruct k as [|k]; [lia|]. cbn [wf_tree] in Hw. destruct Hw as (n & Hn & Hw).
  cbn [flattened_parameters leaves]. unfold node_of. rewrite Hn. cbn [obind].
  destruct (cls n); [reflexivity|]. destruct Hw as (Hch & _).
  rewrite (omap_map _ (fun c => leaves d c st)); [reflexivity|].
  intros c Hc. apply IH; [apply Hch; exact Hc|lia].
Qed.

(** On a consistent subtree the raw vector is made of the buffers of the
    nodes [flattened_parameters] lists, one after the other in that
    order. *)
Lemma get_params_flattened d : forall k o st,
  wf_tree d o st -> (d <= k)%nat ->
  exists ps bufs,
    flattened_parameters k o st = Ok ps /\
    Forall2 (fun p b => exists pn, nodes st !! p = Some pn /\ cls pn = Param /\
                                   values pn = b) ps bufs /\
    _get_params k o st = Ok (concat bufs).
Proof.
  induction d as [|d IH]; intros k o st Hw Hk; [contradiction|].
  destruct k as [|k]; [lia|].
  pose proof Hw as Hw0. cbn [wf_tree] in Hw. destruct Hw as (n & Hn & Hw).
  destruct (cls n) eqn:Hcls.
  - exists [o], [values n]. split; [|split].
    + cbn [flattened_parameters]. unfold node_of. rewrite Hn. cbn [obind].
      rewrite Hcls. reflexivity.
    + constructor; [eauto|constructor].
    + cbn [_get_params]. unfold node_of. rewrite Hn. cbn [obind]. rewrite Hcls.
      simpl. rewrite app_nil_r. reflexivity.
  - destruct Hw as (Hch & _).
    destruct (wf_container_raw d o st k n Hw0 Hn Hcls) as (rs & Hf & _ & Hg); [lia|].
    rewrite Hg. cbn [flattened_parameters]. unfold node_of. rewrite Hn. cbn [obind].
    rewrite Hcls.
    assert (H : forall cs rs0,
               (forall c, In c cs -> wf_tree d c st) ->
               Forall2 (fun c r => _get_params k c st = Ok r) cs rs0 ->
               exists parts bufs,
                 omap (fun c => flattened_parameters k c st) cs = Ok parts /\
                 Forall2 (fun p b => exists pn, nodes st !! p = Some pn /\
                                                cls pn = Param /\ values pn = b)
                         (concat parts) bufs /\
                 concat rs0 = concat bufs).
    { intros cs rs0 Hch0 Hf0. induction Hf0 as [|c r cs rs0 Hc Hf0 IHf].
      - exists [], []. split; [reflexivity|]. split; [constructor|reflexivity].
      - destruct (IH k c st) as (psc & bufc & Hfc & Hbc & Hgc);
          [apply Hch0; left; reflexivity|lia|].
        rewrite Hc in Hgc. injection Hgc as ->.
        destruct IHf as (parts & bufs & Hp & Hb & Hcc).
        { intros c' Hc'. apply Hch0. right. exact Hc'. }
        exists (psc :: parts), (bufc ++ bufs). split; [|split].
        + cbn [omap]. rewrite Hfc. cbn [obind]. rewrite Hp. reflexivity.
        + cbn [concat]. apply Forall2_app; assumption.
        + cbn [concat]. rewrite Hcc, concat_app. reflexivity. }
    destruct (H (_parameters_ n) rs Hch Hf) as (parts & bufs & Hp & Hb & Hcc).
    exists (concat parts), bufs. rewrite Hp. cbn [obind]. rewrite Hcc. auto.
Qed.

Lemma put_in_range {A : Type} (ind : list Z) : forall (p vals : list A),
  Forall (fun i => 0 <= i < len p) ind ->
  exists q, put p ind vals = Ok q /\ length q = length p.
Proof.
  induction ind as [|i ind IH]; intros p vals Hr.
  - exists p. split; reflexivity.
  - destruct vals as [|v vals]; [exists p; split; reflexivity|].
    inversion Hr as [|? ? Hi Hr']; subst. simpl.
    unfold set_item. rewrite position_in_range by exact Hi. simpl.
    destruct (IH (<[Z.to_nat i := v]> p) vals) as (q & Hq & Hl).
    { eapply List.Forall_impl; [|exact Hr']. intros z Hz. simpl in Hz.
      unfold len in *. rewrite length_insert. exact Hz. }
    exists q. split; [exact Hq|]. rewrite Hl. apply length_insert.
Qed.

(** Scaling by the transforms' factors keeps the length of the gradient. *)
Lemma scale_gradients_length items x : forall g,
  no_priors items = true -> in_range (len g) items = true -> length x = length g ->
  exists g1, scale_gradients items x g = Ok g1 /\ length g1 = length g.
Proof.
  induction items as [|[c ind] items IH]; intros g Hp Hr Hx.
  - exists g. split; reflexivity.
  - destruct c as [|t|q]; simpl in *.
    + apply IH; assumption.
    + apply andb_true_iff in Hr as [Hr1 Hr2].
      pose proof (forallb_in_range _ _ Hr1) as Hin.
      destruct (take_at_in_range g ind Hin) as (gi & -> & _).
      assert (Hinx : Forall (fun i => 0 <= i < len x) ind).
      { unfold len in *. rewrite Hx. exact Hin. }
      destruct (take_at_in_range x ind Hinx) as (xi & -> & _). simpl.
      destruct (put_in_range ind g
                  (map (fun ab => vmul (fst ab) (Transformation.gradfactor t (snd ab)))
                       (combine gi xi)) Hin) as (g' & -> & Hl).
      simpl. destruct (IH g') as (g1 & Hg1 & Hl1); auto.
      * unfold len in *. rewrite Hl. exact Hr2.
      * lia.
      * exists g1. split; [exact Hg1|]. lia.
    + discriminate Hp.
Qed.

(** Leaves that nothing is tied to add nothing to the gradient. *)
Lemma add_all_tied_none k self st : forall (ps : list nat) g,
  (forall p, In p ps -> exists pn, nodes st !! p = Some pn /\ _tied_to_me_ pn = []) ->
  add_all_tied k self ps g st = Ok g.
Proof.
  induction ps as [|p ps IH]; intros g H; simpl; auto.
  destruct (H p) as (pn & Hpn & Ht); [left; reflexivity|].
  unfold node_of. rewrite Hpn. simpl. rewrite Ht. simpl.
  apply IH. intros q Hq. apply H. right. exact Hq.
Qed.

End GradientFacts.

Module GradientTheorems.
Import Scenario.

Ltac conjuncts := repeat match goal with |- _ /\ _ => split end.
Ltac evaluate := vm_compute; reflexivity.

(** X17: on a consistent subtree [flattened_parameters] returns a list of
    leaves, and the vector [_get_params] returns is made of their buffers,
    one after the other in the order of that list. *)
Theorem get_params_follows_flattened_parameters :
  forall (V : Type) (d k : nat) (st : state V) (o : nat),
    wf_tree d o st -> (d <= k)%nat ->
    exists ps bufs,
      flattened_parameters k o st = Ok ps /\
      Forall2 (fun p b => exists pn, nodes st !! p = Some pn /\ cls pn = Param /\
                                     values pn = b) ps bufs /\
      _get_params k o st = Ok (concat bufs).
Proof. intros V d k st o Hw Hk. apply (get_params_flattened d k o st Hw Hk). Qed.

Lemma get_params_follows_flattened_parameters_example :
  flattened_parameters fuel 0%nat (snd (mixed empty_state)) = Ok [3%nat; 6%nat; 9%nat] /\
  _get_params fuel 0%nat (snd (mixed empty_state)) = Ok (concat [[10]; [20; 30]; [40]]) /\
  exists ps bufs,
    flattened_parameters fuel 0%nat (snd (mixed empty_state)) = Ok ps /\
    Forall2 (fun p b => exists pn, nodes (snd (mixed empty_state)) !! p = Some pn /\
                                   cls pn = Param /\ values pn = b) ps bufs /\
    _get_params fuel 0%nat (snd (mixed empty_state)) = Ok (concat bufs).
Proof.
  split; [evaluate|]. split; [evaluate|].
  apply (get_params_follows_flattened_parameters Z 2 fuel (snd (mixed empty_state)) 0%nat).
  - cbn [wf_tree]. eexists. split; [evaluate|].
    cbv beta iota delta [cls _parameters_]. split.
    + intros c [<-|[<-|[<-|[]]]]; cbn [wf_tree]; eexists; (split; [evaluate|evaluate]).
    + eexists. conjuncts; evaluate.
  - unfold fuel. lia.
Defined.

(** X18: on a node without a parent whose subtree and optimizer view are
    consistent and to whose leaves nothing is tied, [_transform_gradients]
    of a gradient of the raw length returns a vector with one entry per
    entry of the vector [_get_params_transformed] returns. *)
Theorem transform_gradients_matches_free_vector :
  forall (V : Type) (num : Numeric V) (k d : nat) (st : state V) (self : nat)
         (n : node V) (raw : list V) (items : props V) (g : list V),
    nodes st !! self = Some n -> has_parent n = false ->
    wf_tree d self st -> (d <= k)%nat ->
    _get_params k self st = Ok raw ->
    iteritems k (constraints n) (iops st) = Ok items ->
    consistent raw items (_fixes_ n) = true ->
    (forall p, In p (leaves d self st) ->
               exists pn, nodes st !! p = Some pn /\ _tied_to_me_ pn = []) ->
    length g = length raw ->
    exists r g' free,
      _transform_gradients k self g st = Ok (r, g') /\
      _get_params_transformed k self st = Ok free /\
      length r = length free.
Proof.
  intros V num k d st self n raw items g Hn Hroot Hw Hk Hraw Hit Hc Hties Hg.
  pose proof (get_params_transformed_value k st self n raw items Hn Hraw Hit Hc) as Hfree.
  apply consistent_parts in Hc as (Hp & Hr & _ & Hm & _).
  destruct (scale_gradients_length items raw g Hp) as (g1 & Hg1 & Hl1).
  { unfold len in *. rewrite Hg. exact Hr. }
  { symmetry. exact Hg. }
  unfold _transform_gradients, node_of. rewrite Hn. cbn [obind]. rewrite Hroot, Hraw.
  cbn [obind]. rewrite Hit. cbn [obind]. rewrite Hg1. cbn [obind].
  rewrite (flattened_parameters_leaves d k self st Hw Hk). cbn [obind].
  rewrite (add_all_tied_none k self st _ g1 Hties). cbn [obind].
  rewrite Hfree. destruct (_fixes_ n) as [m|].
  - simpl in Hm. apply Nat.eqb_eq in Hm. unfold mask_get.
    assert (El : length g1 = length m) by lia. rewrite El, Nat.eqb_refl. cbn [obind].
    eexists _, _, _. split; [reflexivity|]. split; [reflexivity|].
    rewrite !select_length; auto. rewrite inverse_image_length. lia.
  - eexists _, _, _. split; [reflexivity|]. split; [reflexivity|].
    rewrite inverse_image_length. lia.
Qed.

Lemma transform_gradients_matches_free_vector_example :
  exists r g' free,
    _transform_gradients fuel 0%nat [1; 2; 3; 4] (snd (mixed empty_state)) = Ok (r, g') /\
    _get_params_transformed fuel 0%nat (snd (mixed empty_state)) = Ok free /\
    length r = length free.
Proof.
  apply (transform_gradients_matches_free_vector Z numeric_Z fuel 2%nat
           (snd (mixed empty_state)) 0%nat
           (Node Parameterized 4 None None [3%nat; 6%nat; 9%nat]
                 [(0, 1); (1, 3); (3, 4)] 1%nat 2%nat
                 (Some [true; true; true; false])
                 [(Fin (-100), 0%nat, ParametersChanged 0%nat)] [] [] "Parameterized"%string)
           [10; 20; 30; 40] [(Constraint shift, [0]); (__fixed__, [3])] [1; 2; 3; 4]).
  - evaluate.
  - reflexivity.
  - cbn [wf_tree]. eexists. split; [evaluate|].
    cbv beta iota delta [cls _parameters_]. split.
    + intros c [<-|[<-|[<-|[]]]]; cbn [wf_tree]; eexists; (split; [evaluate|evaluate]).
    + eexists. conjuncts; evaluate.
  - unfold fuel. lia.
  - evaluate.
  - evaluate.
  - evaluate.
  - assert (E : leaves 2 0%nat (snd (mixed empty_state)) = [3%nat; 6%nat; 9%nat])
      by evaluate.
    rewrite E. intros p [<-|[<-|[<-|[]]]]; eexists; (split; [evaluate|reflexivity]).
  - reflexivity.
Defined.

End GradientTheorems.

(** ** Consistency of the tree under attachment *)

Section LayoutFacts.
Context {V : Type}.
Implicit Types (st : state V) (n : node V).

Lemma layout_fields n n' :
  layout n' = layout n ->
  cls n' = cls n /\ size n' = size n /\ values n' = values n /\
  _parameters_ n' = _parameters_ n /\ _param_slices_ n' = _param_slices_ n.
Proof. unfold layout. intros [= -> -> -> -> ->]. auto. Qed.

Lemma layout_lookup st st' x n :
  layout <$> nodes st' !! x = layout <$> nodes st !! x -> nodes st !! x = Some n ->
  exists n', nodes st' !! x = Some n' /\ layout n' = layout n.
Proof.
  intros H Hn. rewrite Hn in H. destruct (nodes st' !! x) as [n'|]; [|discriminate H].
  exists n'. split; [reflexivity|].
  change (Some (layout n') = Some (layout n)) in H. congruence.
Qed.

Lemma members_self d o st : In o (members (S d) o st).
Proof. left. reflexivity. Qed.

Lemma members_child d o st n c x :
  nodes st !! o = Some n -> In c (_parameters_ n) -> In x (members d c st) ->
  In x (members (S d) o st).
Proof.
  intros Hn Hc Hx. cbn [members]. right. rewrite Hn.
  apply in_concat. exists (members d c st). split; [|exact Hx].
  apply in_map_iff. exists c. auto.
Qed.

Lemma wf_tree_positive d o st : wf_tree d o st -> exists d', d = S d'.
Proof. destruct d; [contradiction|eauto]. Qed.

(** A consistent subtree stays consistent when its nodes keep their
    layout. *)
Lemma wf_tree_layout d : forall o st st',
  (forall x, In x (members d o st) ->
             layout <$> nodes st' !! x = layout <$> nodes st !! x) ->
  wf_tree d o st -> wf_tree d o st'.
Proof.
  induction d as [|d IH]; intros o st st' H Hw; [contradiction|].
  cbn [wf_tree] in *. destruct Hw as (n & Hn & Hw).
  destruct (layout_lookup st st' o n (H o (members_self d o st)) Hn) as (n' & Hn' & Hl).
  apply layout_fields in Hl as (Hc & Hs & Hv & Hp & Hsl).
  exists n'. split; [exact Hn'|]. rewrite Hc. destruct (cls n).
  - rewrite Hs, Hv. exact Hw.
  - rewrite Hp, Hs, Hsl. destruct Hw as (Hch & szs & Hsz & Hz & Hslices). split.
    + intros c Hin. apply (IH c st st'); [|apply Hch; exact Hin].
      intros x Hx. apply H. eapply members_child; eauto.
    + exists szs. split; [|auto].
      rewrite <- Hsz. apply child_sizes_kept. intros c Hin.
      destruct (wf_tree_positive d c st (Hch c Hin)) as (d' & ->).
      assert (Hcm : In c (members (S (S d')) o st)).
      { eapply members_child; eauto. apply members_self. }
      specialize (H c Hcm).
      destruct (nodes st' !! c) as [a|], (nodes st !! c) as [b|]; try discriminate H; auto.
      assert (Hab : layout a = layout b).
      { change (Some (layout a) = Some (layout b)) in H. congruence. }
      apply layout_fields in Hab as (_ & Hab & _). simpl. rewrite Hab. reflexivity.
Qed.

(** The raw vector of a consistent subtree is read off the layout of its
    nodes. *)
Lemma get_params_layout d : forall o st st' k,
  (forall x, In x (members d o st) ->
             layout <$> nodes st' !! x = layout <$> nodes st !! x) ->
  wf_tree d o st -> (d <= k)%nat ->
  _get_params k o st' = _get_params k o st.
Proof.
  induction d as [|d IH]; intros o st st' k H Hw Hk; [contradiction|].
  destruct k as [|k]; [lia|].
  cbn [wf_tree] in Hw. destruct Hw as (n & Hn & Hw).
  destruct (layout_lookup st st' o n (H o (members_self d o st)) Hn) as (n' & Hn' & Hl).
  apply layout_fields in Hl as (Hc & Hs & Hv & Hp & Hsl).
  cbn [_get_params]. unfold node_of at 1 3. rewrite Hn, Hn'. cbn [obind].
  rewrite Hc, Hs, Hv, Hp. destruct (cls n); [reflexivity|].
  destruct (size n =? 0); [reflexivity|]. destruct Hw as (Hch & _).
  f_equal. apply omap_ext. intros c Hin.
  destruct (wf_tree_positive d c st (Hch c Hin)) as (d' & ->).
  assert (Hcm : In c (members (S (S d')) o st)).
  { eapply members_child; eauto. apply members_self. }
  pose proof (H c Hcm) as Hcl. unfold node_of.
  destruct (nodes st' !! c) as [a|], (nodes st !! c) as [b|]; try discriminate Hcl; auto.
  assert (Hab : layout a = layout b).
  { change (Some (layout a) = Some (layout b)) in Hcl. congruence. }
  apply layout_fields in Hab as (_ & Hab & _). cbn [obind]. rewrite Hab.
  destruct (0 <? size b); [|reflexivity].
  rewrite (IH c st st' k); auto; [|lia].
  intros x Hx. apply H. eapply members_child; eauto.
Qed.

End LayoutFacts.

Section AttachLayout.
Context {V : Type}.
Implicit Types (st : state V) (n : node V).

(** What [_notify_parent_change] and [_connect_fixes] leave alone. *)
Lemma keeps_light_end {A : Type} (g : node V -> A) k self :
  (forall x n, g (with_fixes x n) = g n) ->
  (forall x n, g (with_constraints x n) = g n) ->
  (forall x n, g (with_priors x n) = g n) ->
  (forall x n, g (with_observer_callables x n) = g n) ->
  keeps g (let! _ := _notify_parent_change k self in _connect_fixes k self).
Proof.
  intros. keeps_all.
  - apply keeps_notify_parent_change; assumption.
  - apply keeps_connect_fixes; assumption.
Qed.

(** The layout [add_parameter] leaves, when it attaches a node that has no
    parent. *)
Lemma add_parameter_layout k self param (index : option Z) st n pn szs :
  nodes st !! self = Some n -> nodes st !! param = Some pn -> param <> self ->
  mem_nat param (_parameters_ n) = false -> _direct_parent_ pn = None ->
  forall children,
    children = match index with
               | None => _parameters_ n ++ [param]
               | Some i => list_insert (_parameters_ n) i param
               end ->
    NoDup children -> ~ In self children -> child_sizes children st = Ok szs ->
    unnamed "size" children st = true ->
    forall r, add_parameter (S k) self param index st = r -> fst r = Ok tt ->
    (exists n', nodes (snd r) !! self = Some n' /\
                layout n' = (cls n, size n + size pn, values n, children, slices_from 0 szs)) /\
    forall x, x <> self -> layout <$> nodes (snd r) !! x = layout <$> nodes st !! x.
Proof.
  intros Hn Hp Hps Hm Hdp children Hch Hnd Hself Hsz Hu r Hr Hok.
  assert (Hpin : In param children).
  { rewrite Hch. destruct index as [i|].
    - unfold list_insert. apply in_or_app. right. left. reflexivity.
    - apply in_or_app. right. left. reflexivity. }
  cbn [add_parameter] in Hr. rewrite (bind_get_node self _ st n Hn) in Hr.
  rewrite Hm in Hr. cbn [andb negb] in Hr.
  rewrite (bind_get_node param _ st pn Hp) in Hr. rewrite Hdp in Hr.
  rewrite bind_ret in Hr.
  assert (Hend : forall h,
             let n1 := with_parameters children n in
             let st1 := State (<[self := n1]> (nodes st)) h (next st) (log st) in
             forall r',
               (let! _ := add_observer param self (PassThrough self) NegInf in
                let! s5 := get_node self in
                let! p5 := get_node param in
                let! _ := __setattr__ self "size"%string (with_size (size s5 + size p5)) in
                let! _ := _connect_parameters self in
                let! _ := _notify_parent_change k self in
                _connect_fixes k self) st1 = r' ->
               fst r' = Ok tt ->
               (exists n', nodes (snd r') !! self = Some n' /\
                           layout n'
                           = (cls n, size n + size pn, values n, children,
                              slices_from 0 szs)) /\
               forall x, x <> self ->
                         layout <$> nodes (snd r') !! x = layout <$> nodes st !! x).
  { intros h n1 st1 r' Hr' Hok'.
    assert (Hp1 : nodes st1 !! param = Some pn).
    { unfold st1. cbn [nodes]. rewrite lookup_insert_ne by auto. exact Hp. }
    unfold add_observer in Hr'. rewrite (bind_modify_node param _ _ st1 pn Hp1) in Hr'.
    set (pn1 := with_observer_callables
                  (Observable.add_observer (_observer_callables_ pn) self
                     (PassThrough self) NegInf) pn) in *.
    set (st2 := State (<[param := pn1]> (nodes st1)) (iops st1) (next st1) (log st1)) in *.
    assert (Hs2 : nodes st2 !! self = Some n1).
    { unfold st2, st1. cbn [nodes]. rewrite lookup_insert_ne by auto.
      apply lookup_insert_eq. }
    assert (Hp2 : nodes st2 !! param = Some pn1).
    { unfold st2. cbn [nodes]. apply lookup_insert_eq. }
    assert (Hu2 : unnamed "size" (_parameters_ n1) st2 = true).
    { change (_parameters_ n1) with children.
      rewrite (unnamed_kept _ _ st st2); [exact Hu|]. intros c _.
      unfold st2, st1. cbn [nodes].
      destruct (Nat.eq_dec c param) as [->|Hc];
        [rewrite lookup_insert_eq, Hp; reflexivity|].
      rewrite lookup_insert_ne by auto.
      destruct (Nat.eq_dec c self) as [->|Hc'];
        [rewrite lookup_insert_eq, Hn; reflexivity|].
      rewrite lookup_insert_ne by auto. reflexivity. }
    rewrite (bind_get_node self _ st2 n1 Hs2) in Hr'.
    rewrite (bind_get_node param _ st2 pn1 Hp2) in Hr'.
    step_setattr Hr' Hs2 Hu2 Hok'.
    set (n3 := with_size (size n1 + size pn1) n1) in *.
    set (st3 := State (<[self := n3]> (nodes st2)) (iops st2) (next st2) (log st2)) in *.
    assert (Hs3 : nodes st3 !! self = Some n3).
    { unfold st3. cbn [nodes]. apply lookup_insert_eq. }
    assert (Hx3 : forall x, x <> self ->
                            layout <$> nodes st3 !! x = layout <$> nodes st !! x).
    { intros x Hx. unfold st3, st2, st1. cbn [nodes]. rewrite lookup_insert_ne by auto.
      destruct (Nat.eq_dec x param) as [->|Hxp].
      - rewrite lookup_insert_eq, Hp. reflexivity.
      - rewrite !lookup_insert_ne by auto. reflexivity. }
    assert (Hsz3 : child_sizes (_parameters_ n3) st3 = Ok szs).
    { change (_parameters_ n3) with children. rewrite <- Hsz. apply child_sizes_kept.
      intros c Hc. assert (Hcs : c <> self) by (intros ->; contradiction).
      specialize (Hx3 c Hcs).
      destruct (nodes st3 !! c) as [a|], (nodes st !! c) as [b|]; try discriminate Hx3; auto.
      assert (Hab : layout a = layout b).
      { change (Some (layout a) = Some (layout b)) in Hx3. congruence. }
      apply layout_fields in Hab as (_ & Hab & _). simpl. rewrite Hab. reflexivity. }
    destruct (connect_parameters_run self st3 n3 szs Hs3) as
      (st4 & Hrun & _ & _ & _ & Hs4 & Hc4 & Hfr4); auto.
    { change (_parameters_ n3) with children. intros E. rewrite E in Hpin. contradiction. }
    rewrite (bind_run _ _ st3 tt st4 Hrun) in Hr'. subst r'.
    pose proof (keeps_light_end layout k self
                  (fun _ _ => eq_refl) (fun _ _ => eq_refl) (fun _ _ => eq_refl)
                  (fun _ _ => eq_refl) st4) as Hk.
    split.
    - specialize (Hk self). rewrite Hs4 in Hk. unfold n3, n1, pn1 in Hk.
      match type of Hk with
      | layout <$> ?l = _ => destruct l as [n'|]
      end; simpl in Hk; [|discriminate Hk].
      exists n'. split; [reflexivity|]. injection Hk. intros. unfold layout. congruence.
    - intros x Hx. rewrite Hk, <- (Hx3 x Hx).
      destruct (in_dec Nat.eq_dec x children) as [Hxin|Hxin].
      + apply list_elem_of_In, list_elem_of_lookup_1 in Hxin as (j & Hj).
        destruct (Hc4 j x Hj) as (cn & Hcn & Hc1). rewrite Hc1, Hcn. reflexivity.
      + rewrite Hfr4 by auto. reflexivity. }
  destruct index as [i|]; cbv beta iota in Hr, Hch.
  - step_get Hr Hn. unfold sizes_of in Hr. rewrite ?bind_assoc, bind_read in Hr.
    destruct (omap _ _) as [pre|e]; [|subst r; discriminate Hok].
    cbv zeta in Hr.
    step_get Hr Hp. step_write Hr Hok. step_get Hr Hn. step_get Hr Hp. step_write Hr Hok.
    step_get Hr Hn. step_get Hr Hp. step_write Hr Hok.
    step_get Hr Hn. step_get Hr Hp. step_write Hr Hok.
    step_get Hr Hn. rewrite <- Hch in Hr. step_modify Hr Hn.
    exact (Hend _ r Hr Hok).
  - step_get Hr Hn. step_get Hr Hp. step_write Hr Hok.
    step_get Hr Hn. step_get Hr Hp. step_write Hr Hok.
    step_get Hr Hn. rewrite <- Hch in Hr. step_modify Hr Hn.
    exact (Hend _ r Hr Hok).
Qed.

End AttachLayout.

Section AttachConsistent.
Context {V : Type}.
Implicit Types (st : state V) (n : node V).

Lemma NoDup_insert_middle (l1 l2 : list nat) (x : nat) :
  NoDup (l1 ++ l2) -> ~ In x (l1 ++ l2) -> NoDup (l1 ++ x :: l2).
Proof.
  intros Hnd Hx. rewrite <- Permutation_middle. apply NoDup_cons_2; [|exact Hnd].
  intros H. apply Hx. apply list_elem_of_In. exact H.
Qed.

(** The children after [add_parameter], and their sizes. *)
Lemma attached_children (index : option Z) (ps : list nat) (param : nat) st pn szs :
  nodes st !! param = Some pn -> child_sizes ps st = Ok szs ->
  NoDup ps -> ~ In param ps ->
  forall children,
    children = match index with
               | None => ps ++ [param]
               | Some i => list_insert ps i param
               end ->
    NoDup children /\
    (forall c, In c children -> c = param \/ In c ps) /\
    exists szs', child_sizes children st = Ok szs' /\ zsum szs' = zsum szs + size pn.
Proof.
  intros Hp Hsz Hnd Hnp children ->.
  assert (Hone : child_sizes [param] st = Ok [size pn]).
  { unfold child_sizes. simpl. unfold node_of. rewrite Hp. reflexivity. }
  destruct index as [i|].
  - unfold list_insert. set (c := clamp (len ps) i).
    destruct (child_sizes_take ps st szs c Hsz) as (H1 & H2).
    split; [|split].
    + apply NoDup_insert_middle; rewrite firstn_skipn; assumption.
    + intros x Hx. apply in_app_or in Hx as [Hx|[Hx|Hx]]; auto; right;
        rewrite <- (firstn_skipn c ps); apply in_or_app; auto.
    + exists (firstn c szs ++ [size pn] ++ skipn c szs). split.
      * apply child_sizes_app; [exact H1|].
        apply (child_sizes_app [param] _ st [size pn] _ Hone H2).
      * rewrite !zsum_app. rewrite <- (firstn_skipn c szs) at 3.
        rewrite zsum_app. simpl. lia.
  - split; [|split].
    + rewrite <- (app_nil_r (ps ++ [param])), <- app_assoc. simpl.
      apply NoDup_insert_middle; rewrite app_nil_r; assumption.
    + intros x Hx. apply in_app_or in Hx as [Hx|[Hx|[]]]; auto.
    + exists (szs ++ [size pn]). split.
      * apply child_sizes_app; assumption.
      * rewrite zsum_app. simpl. lia.
Qed.

(** [add_parameter] of a consistent subtree to a consistent container. *)
Lemma add_parameter_consistent k d self param (index : option Z) st n pn :
  nodes st !! self = Some n -> nodes st !! param = Some pn -> param <> self ->
  cls n = Parameterized ->
  mem_nat param (_parameters_ n) = false -> _direct_parent_ pn = None ->
  wf_tree (S d) self st -> wf_tree d param st ->
  NoDup (_parameters_ n) ->
  ~ In self (members d param st) ->
  (forall c, In c (_parameters_ n) -> ~ In self (members d c st)) ->
  unnamed "size" (param :: _parameters_ n) st = true ->
  fst (add_parameter (S k) self param index st) = Ok tt ->
  let st' := snd (add_parameter (S k) self param index st) in
  let children := match index with
                  | None => _parameters_ n ++ [param]
                  | Some i => list_insert (_parameters_ n) i param
                  end in
  wf_tree (S d) self st' /\
  (exists n', nodes st' !! self = Some n' /\ cls n' = Parameterized /\
              _parameters_ n' = children) /\
  (forall x, x <> self -> layout <$> nodes st' !! x = layout <$> nodes st !! x).
Proof.
  intros Hn Hp Hps Hcls Hm Hdp Hw Hwp Hnd Hsp Hsc Hu Hok st' children.
  pose proof Hw as Hw0. cbn [wf_tree] in Hw. destruct Hw as (n0 & Hn0 & Hw).
  rewrite Hn in Hn0. injection Hn0 as <-. rewrite Hcls in Hw.
  destruct Hw as (Hch & szs & Hsz & Hz & Hsl).
  destruct (wf_tree_positive d param st Hwp) as (d' & ->).
  assert (Hnp : ~ In param (_parameters_ n)).
  { intros H. apply mem_nat_In in H. congruence. }
  assert (Hself : ~ In self (_parameters_ n)).
  { intros H. apply (Hsc self H). apply members_self. }
  destruct (attached_children index (_parameters_ n) param st pn szs Hp Hsz Hnd Hnp
              children eq_refl) as (Hndc & Hin & szs' & Hsz' & Hz').
  assert (Hselfc : ~ In self children).
  { intros H. apply Hin in H as [H|H]; [congruence|contradiction]. }
  assert (Huc : unnamed "size" children st = true).
  { apply (unnamed_incl _ (param :: _parameters_ n)); [|exact Hu].
    intros c Hc. apply Hin in Hc as [->|Hc]; [left; reflexivity|right; exact Hc]. }
  destruct (add_parameter_layout k self param index st n pn szs' Hn Hp Hps Hm Hdp
              children eq_refl Hndc Hselfc Hsz' Huc _ eq_refl Hok)
    as ((n' & Hn' & Hl) & Hx).
  fold st' in Hn', Hx.
  assert (Hl' : cls n' = Parameterized /\ size n' = size n + size pn /\
                _parameters_ n' = children /\ _param_slices_ n' = slices_from 0 szs').
  { unfold layout in Hl. injection Hl. intros. rewrite Hcls in *. auto. }
  destruct Hl' as (Hc' & Hs' & Hp' & Hsl').
  split; [|split; [eauto|exact Hx]].
  cbn [wf_tree]. exists n'. split; [exact Hn'|]. rewrite Hc', Hp', Hs', Hsl'. split.
  - intros c Hc.
    assert (Hwc : wf_tree (S d') c st /\ ~ In self (members (S d') c st)).
    { apply Hin in Hc as [->|Hc]; auto. }
    destruct Hwc as (Hwc & Hsm).
    apply (wf_tree_layout (S d') c st st'); [|exact Hwc].
    intros x Hxm. apply Hx. intros ->. contradiction.
  - exists szs'. split; [|split; [lia|reflexivity]].
    rewrite <- Hsz'. apply child_sizes_kept. intros c Hc.
    assert (Hcs : c <> self) by (intros ->; contradiction).
    specialize (Hx c Hcs).
    destruct (nodes st' !! c) as [a|], (nodes st !! c) as [b|]; try discriminate Hx; auto.
    assert (Hab : layout a = layout b).
    { change (Some (layout a) = Some (layout b)) in Hx. congruence. }
    apply layout_fields in Hab as (_ & Hab & _). simpl. rewrite Hab. reflexivity.
Qed.

Lemma Forall2_get_params_same k st (cs : list nat) : forall rs rs',
  Forall2 (fun c r => _get_params k c st = Ok r) cs rs ->
  Forall2 (fun c r => _get_params k c st = Ok r) cs rs' -> rs' = rs.
Proof.
  induction cs as [|c cs IH]; intros rs rs' H H'.
  - inversion H; inversion H'; reflexivity.
  - inversion H as [|? r ? rs0 Hr Hrs]; inversion H' as [|? r' ? rs0' Hr' Hrs']; subst.
    rewrite Hr in Hr'. injection Hr' as <-. f_equal. apply IH; assumption.
Qed.

End AttachConsistent.

Section AttachVector.
Context {V : Type}.
Implicit Types (st : state V) (n : node V).

Lemma Forall2_get_params_moved k st st' (cs : list nat) (rs : list (list V)) :
  (forall c, In c cs -> _get_params k c st' = _get_params k c st) ->
  Forall2 (fun c r => _get_params k c st' = Ok r) cs rs ->
  Forall2 (fun c r => _get_params k c st = Ok r) cs rs.
Proof.
  intros H Hf. induction Hf as [|c r cs rs Hc Hf IH]; constructor.
  - rewrite <- (H c) by (left; reflexivity). exact Hc.
  - apply IH. intros c' Hc'. apply H. right. exact Hc'.
Qed.

End AttachVector.

Module AttachConsistency.
Import Scenario.

Ltac evaluate := vm_compute; reflexivity.





End AttachConsistency.

(** ** Attaching and detaching, reconnecting twice *)

Module RoundTrips.
Import Scenario.

Ltac evaluate := vm_compute; reflexivity.





End RoundTrips.

Section ConnectFixesFacts.
Context {V : Type}.
Implicit Types (st : state V) (n : node V).

(** What [_connect_fixes] does, when the fixed indices address the node's
    vector. *)
Lemma connect_fixes_run k self st n (fixed : list Z) :
  nodes st !! self = Some n ->
  getitem k (constraints n) __fixed__ (iops st) = Ok fixed ->
  0 <= size n -> Forall (fun i => 0 <= i < size n) fixed ->
  _connect_fixes k self st
  = (Ok tt,
     State (<[self := with_fixes
                        (if 0 <? len fixed
                         then Some (map (fun j => negb (mem_z (Z.of_nat j) fixed))
                                        (seq 0 (Z.to_nat (size n))))
                         else None) n]> (nodes st))
           (iops st) (next st) (log st)).
Proof.
  intros Hn Hg Hsz Hr.
  assert (Hr' : Forall (fun i => 0 <= i < Z.of_nat (Z.to_nat (size n))) fixed).
  { rewrite Z2Nat.id by exact Hsz. exact Hr. }
  unfold _connect_fixes, bind, get_node, read, read_ops, node_of, lift.
  rewrite Hn, Hg. destruct (0 <? len fixed).
  - rewrite Hn. unfold ones. destruct (Z.ltb_spec (size n) 0); [lia|].
    unfold modify_node at 1. rewrite Hn. cbn [nodes iops next log].
    rewrite (fill_ones fixed _ Hr'). unfold modify_node. cbn [nodes iops next log].
    rewrite lookup_insert_eq, insert_insert_eq, with_fixes_twice. reflexivity.
  - unfold modify_node. rewrite Hn. reflexivity.
Qed.

End ConnectFixesFacts.

Module Reconnecting.
Import Scenario.

Ltac evaluate := vm_compute; reflexivity.



End Reconnecting.

(** ** Consistency of the tree under detachment *)

Section Triples.
Context {V : Type}.
Implicit Types (st : state V) (n : node V).

Lemma bind_ok {B C : Type} (m : M V B) (k : B -> M V C) st (c : C) :
  fst (bind m k st) = Ok c ->
  exists b, fst (m st) = Ok b /\ fst (k b (snd (m st))) = Ok c /\
            snd (bind m k st) = snd (k b (snd (m st))).
Proof.
  rewrite fst_bind, snd_bind. destruct (fst (m st)) as [b|e]; [|discriminate].
  intros H. exists b. auto.
Qed.

Lemma triple_bind {B C : Type} (P : state V -> Prop) (R : B -> state V -> Prop)
      (Q : C -> state V -> Prop) (m : M V B) (k : B -> M V C) :
  triple P m R -> (forall b, triple (R b) (k b) Q) -> triple P (bind m k) Q.
Proof.
  intros Hm Hk st HP c Hc.
  destruct (bind_ok m k st c Hc) as (b & Hb & Hkb & ->).
  apply (Hk b); [apply Hm; assumption|exact Hkb].
Qed.

Lemma triple_post {B : Type} (P : state V -> Prop) (Q Q' : B -> state V -> Prop)
      (m : M V B) :
  triple P m Q -> (forall b st, Q b st -> Q' b st) -> triple P m Q'.
Proof. intros H HQ st HP b Hb. apply HQ. apply H; assumption. Qed.

Lemma triple_get_node (P : state V -> Prop) o :
  triple P (get_node o) (fun b st => P st /\ nodes st !! o = Some b).
Proof.
  intros st HP b Hb. unfold get_node, read, node_of in *. cbn [fst snd] in *.
  destruct (nodes st !! o) as [n|]; [|discriminate Hb]. injection Hb as <-. auto.
Qed.

Lemma triple_ret {B : Type} (P : state V -> Prop) (b : B) :
  triple P (ret b) (fun _ st => P st).
Proof. intros st HP b' _. exact HP. Qed.

(** An assertion about what [g] reads off the nodes passes through a
    computation that keeps it. *)
Lemma triple_keeps {A B : Type} (g : node V -> A) (m : M V B) (G : nat -> option A) :
  keeps g m ->
  triple (fun st => forall x, g <$> nodes st !! x = G x) m
         (fun _ st => forall x, g <$> nodes st !! x = G x).
Proof. intros Hk st HP b _ x. rewrite Hk. apply HP. Qed.

Lemma triple_keeps_at {A B : Type} (x : nat) (g : node V -> A) (m : M V B) (a : option A) :
  keeps_at x g m ->
  triple (fun st => g <$> nodes st !! x = a) m (fun _ st => g <$> nodes st !! x = a).
Proof. intros Hk st HP b _. rewrite Hk. exact HP. Qed.

Lemma triple_and {B : Type} (P1 P2 : state V -> Prop) (Q1 Q2 : B -> state V -> Prop)
      (m : M V B) :
  triple P1 m Q1 -> triple P2 m Q2 ->
  triple (fun st => P1 st /\ P2 st) m (fun b st => Q1 b st /\ Q2 b st).
Proof. intros H1 H2 st (HP1 & HP2) b Hb. split; [apply H1|apply H2]; assumption. Qed.

Lemma keeps_keeps_at {A B : Type} (x : nat) (g : node V -> A) (m : M V B) :
  keeps g m -> keeps_at x g m.
Proof. intros H st. apply H. Qed.

Lemma keeps_at_bind {A B C : Type} (x : nat) (g : node V -> A) (m : M V B)
      (k : B -> M V C) :
  keeps_at x g m -> (forall b, keeps_at x g (k b)) -> keeps_at x g (bind m k).
Proof.
  intros Hm Hk st. rewrite snd_bind. specialize (Hm st).
  destruct (fst (m st)); [|exact Hm]. rewrite Hk. exact Hm.
Qed.

Lemma keeps_at_modify_other {A : Type} (x o : nat) (g : node V -> A)
      (h : node V -> node V) :
  o <> x -> keeps_at x g (modify_node o h).
Proof.
  intros Hox st. unfold modify_node. destruct (nodes st !! o); [|reflexivity].
  cbn [snd nodes]. rewrite lookup_insert_ne by auto. reflexivity.
Qed.

(** [_disconnect_parent] rewires the node it is called on, and no other. *)
Lemma keeps_at_disconnect_parent {A : Type} (x : nat) (g : node V -> A) k param :
  param <> x ->
  (forall y n, g (with_fixes y n) = g n) ->
  (forall y n, g (with_constraints y n) = g n) ->
  (forall y n, g (with_priors y n) = g n) ->
  (forall y n, g (with_observer_callables y n) = g n) ->
  keeps_at x g (_disconnect_parent k param).
Proof.
  intros Hx G1 G2 G3 G4. unfold _disconnect_parent.
  repeat match goal with
         | |- keeps_at _ _ (bind _ _) => apply keeps_at_bind; [|intros ?]
         | |- keeps_at _ _ (modify_node _ _) => apply keeps_at_modify_other; exact Hx
         | |- keeps_at _ _ (_connect_fixes _ _) =>
             apply keeps_keeps_at, keeps_connect_fixes; assumption
         | |- keeps_at _ _ (_notify_parent_change _ _) =>
             apply keeps_keeps_at, keeps_notify_parent_change; assumption
         | |- keeps_at _ _ _ => apply keeps_keeps_at; keeps_step
         end.
Qed.

End Triples.

Section DetachLayout.
Context {V : Type}.
Implicit Types (st : state V) (n : node V).

Lemma triple_pre {B : Type} (P P' : state V -> Prop) (Q : B -> state V -> Prop)
      (m : M V B) :
  triple P m Q -> (forall st, P' st -> P st) -> triple P' m Q.
Proof. intros H HP st HP' b Hb. apply H; auto. Qed.

(** The assertion of a tail of [remove_parameter]: the layout of every
    node, and that the container has no parent. *)
Lemma triple_layout_root {B : Type} (self : nat) (G : nat -> option _) (m : M V B) :
  keeps (layout (V:=V)) m -> keeps_at self (_direct_parent_ (V:=V)) m ->
  triple (fun st => (forall x, layout <$> nodes st !! x = G x) /\
                    _direct_parent_ <$> nodes st !! self = Some None) m
         (fun _ st => (forall x, layout <$> nodes st !! x = G x) /\
                      _direct_parent_ <$> nodes st !! self = Some None).
Proof.
  intros HL HP.
  apply (triple_and _ _ (fun _ st => forall x, layout <$> nodes st !! x = G x)
                    (fun _ st => _direct_parent_ <$> nodes st !! self = Some None)).
  - apply triple_keeps. exact HL.
  - apply triple_keeps_at. exact HP.
Qed.

Lemma reconnect_ancestors_none k st : reconnect_ancestors (V:=V) k None st = (Ok tt, st).
Proof. destruct k; reflexivity. Qed.

(** The layout [remove_parameter] leaves at a container without a parent
    that keeps a child. *)
Lemma remove_parameter_layout k self param st n pn (i : nat) szs :
  nodes st !! self = Some n -> nodes st !! param = Some pn ->
  _direct_parent_ n = None ->
  _parameters_ n !! i = Some param ->
  NoDup (_parameters_ n) -> ~ In self (_parameters_ n) ->
  child_sizes (_parameters_ n) st = Ok szs ->
  unnamed "size" (_parameters_ n) st = true ->
  forall children,
    children = firstn i (_parameters_ n) ++ skipn (S i) (_parameters_ n) ->
    children <> [] ->
    forall r, remove_parameter k self param st = r -> fst r = Ok tt ->
    (exists n', nodes (snd r) !! self = Some n' /\
                layout n' = (cls n, size n - size pn, values n, children,
                             slices_from 0 (firstn i szs ++ skipn (S i) szs))) /\
    forall x, x <> self -> layout <$> nodes (snd r) !! x = layout <$> nodes st !! x.
Proof.
  intros Hn Hp Hroot Hi Hnd Hself Hsz Hu children Hchd Hne r Hr Hok.
  assert (Hin : In param (_parameters_ n)).
  { apply list_elem_of_In. eapply list_elem_of_lookup_2. exact Hi. }
  assert (Hps : param <> self) by (intros ->; contradiction).
  assert (Hm : mem_nat param (_parameters_ n) = true) by (apply mem_nat_In; exact Hin).
  assert (Hne0 : _parameters_ n <> []) by (intros E; rewrite E in Hin; contradiction).
  destruct (connect_parameters_run self st n szs Hn Hne0 Hself Hnd Hsz) as
    (st1 & Hrun & _ & _ & _ & Hs1 & Hch & Hfr).
  destruct (Hch i param Hi) as (pn' & Hpn' & Hp1).
  rewrite Hp in Hpn'. injection Hpn' as <-.
  unfold remove_parameter in Hr. step_get Hr Hn. rewrite Hm in Hr. cbn [negb] in Hr.
  step_get Hr Hp. unfold sizes_of in Hr. rewrite ?bind_assoc, bind_read in Hr.
  destruct (omap _ _) as [pre|e]; [|subst r; discriminate Hok].
  cbv zeta in Hr. unfold _remove_parameter_name in Hr.
  rewrite ?bind_assoc in Hr. rewrite (bind_run _ _ st tt st1 Hrun) in Hr.
  set (n1 := with_param_slices (slices_from 0 szs) n) in *.
  set (pn1 := with_parent_index (Some i) (with_direct_parent (Some self) pn)) in *.
  assert (Hu1 : unnamed "size" (_parameters_ n1) st1 = true).
  { change (_parameters_ n1) with (_parameters_ n).
    rewrite (unnamed_kept _ _ st st1); [exact Hu|]. intros c _.
    pose proof (keeps_connect_parameters (V:=V) _name (fun _ _ => eq_refl)
                  (fun _ _ => eq_refl) (fun _ _ => eq_refl) self st c) as Hk.
    rewrite Hrun in Hk. exact Hk. }
  step_get Hr Hs1. step_get Hr Hp1.
  step_setattr Hr Hs1 Hu1 Hok.
  set (n2 := with_size (size n1 - size pn1) n1) in *.
  assert (Hs2 : forall ns h x l,
             nodes (State (<[self := ns]> (nodes st1)) h x l) !! self = Some ns).
  { intros. cbn [nodes]. apply lookup_insert_eq. }
  assert (Hp2 : forall ns h x l,
             nodes (State (<[self := ns]> (nodes st1)) h x l) !! param = Some pn1).
  { intros. cbn [nodes]. rewrite lookup_insert_ne by auto. exact Hp1. }
  step_get Hr (Hs2 n2 (iops st1) (next st1) (log st1)).
  step_get Hr (Hp2 n2 (iops st1) (next st1) (log st1)).
  change (_parent_index_ pn1) with (Some i) in Hr. cbv iota in Hr.
  change (_parameters_ n2) with (_parameters_ n) in Hr.
  rewrite (list_del_ok (_parameters_ n) i param Hi) in Hr.
  rewrite ?bind_assoc in Hr.
  change (lift (Ok ?x)) with (ret (V:=V) x) in Hr. rewrite bind_ret in Hr.
  step_modify Hr (Hs2 n2 (iops st1) (next st1) (log st1)).
  rewrite insert_insert_eq, <- Hchd in Hr.
  set (n3 := with_parameters children n2) in *.
  set (st3 := State (<[self := n3]> (nodes st1)) (iops st1) (next st1) (log st1)) in *.
  (* the layout before the tail, node by node *)
  assert (Hx3 : forall x, x <> self ->
                          layout <$> nodes st3 !! x = layout <$> nodes st !! x).
  { intros x Hx. unfold st3. cbn [nodes]. rewrite lookup_insert_ne by auto.
    destruct (in_dec Nat.eq_dec x (_parameters_ n)) as [Hxin|Hxin].
    - apply list_elem_of_In, list_elem_of_lookup_1 in Hxin as (j & Hj).
      destruct (Hch j x Hj) as (cn & Hcn & Hc1). rewrite Hc1, Hcn. reflexivity.
    - rewrite Hfr by auto. reflexivity. }
  assert (Hinc : forall c, In c children -> In c (_parameters_ n)).
  { intros c Hc. rewrite Hchd in Hc. apply in_app_or in Hc as [Hc|Hc].
    - rewrite <- (firstn_skipn i). apply in_or_app. left. exact Hc.
    - rewrite <- (firstn_skipn (S i)). apply in_or_app. right. exact Hc. }
  assert (Hselfc : ~ In self children) by (intros H; apply Hself, Hinc, H).
  assert (Hndc : NoDup children).
  { rewrite Hchd. rewrite <- (take_drop_middle (_parameters_ n) i param Hi) in Hnd.
    apply NoDup_app in Hnd as (Hn1 & Hdis & Hn2). apply NoDup_cons in Hn2 as (_ & Hn2).
    apply NoDup_app. split; [exact Hn1|]. split; [|exact Hn2].
    intros x Hx1 Hx2. apply (Hdis x Hx1). right. exact Hx2. }
  destruct (child_sizes_take (_parameters_ n) st szs i Hsz) as (Ht1 & _).
  destruct (child_sizes_take (_parameters_ n) st szs (S i) Hsz) as (_ & Ht2).
  pose proof (child_sizes_app _ _ st _ _ Ht1 Ht2) as Hszc. rewrite <- Hchd in Hszc.
  set (szs' := firstn i szs ++ skipn (S i) szs) in *.
  set (G := fun x => layout <$> nodes st3 !! x).
  set (target := (cls n, size n - size pn, values n, children, slices_from 0 szs')).
  set (G2 := fun x => if Nat.eq_dec x self then Some target else G x).
  set (Inv := fun s : state V => (forall x, layout <$> nodes s !! x = G x) /\
                                 _direct_parent_ <$> nodes s !! self = Some None).
  set (Inv2 := fun s : state V => (forall x, layout <$> nodes s !! x = G2 x) /\
                                  _direct_parent_ <$> nodes s !! self = Some None).
  assert (Hfinal : Inv2 (snd r)).
  { subst r.
    match goal with
    | |- Inv2 (snd (?m st3)) =>
        cut (triple Inv m (fun _ s => Inv2 s))
    end.
    { intros HT. apply (HT st3) with (b := tt); [|exact Hok].
      split; [intros x; reflexivity|].
      unfold st3. cbn [nodes]. rewrite lookup_insert_eq. simpl. rewrite Hroot.
      reflexivity. }
    (* _disconnect_parent *)
    apply (triple_bind Inv (fun _ => Inv)).
    { apply triple_layout_root.
      - apply keeps_disconnect_parent; intros; reflexivity.
      - apply keeps_at_disconnect_parent; [exact Hps|..]; intros; reflexivity. }
    intros _.
    (* remove_observer *)
    apply (triple_bind Inv (fun _ => Inv)).
    { apply triple_layout_root; [|apply keeps_keeps_at];
        apply keeps_remove_observer; intros; reflexivity. }
    intros _.
    apply (triple_bind Inv (fun _ => Inv)).
    { apply triple_layout_root; [|apply keeps_keeps_at]; apply keeps_get_node. }
    intros n3'.
    apply (triple_bind Inv (fun _ => Inv)).
    { apply triple_layout_root; [|apply keeps_keeps_at]; apply keeps_get_node. }
    intros pn3'.
    apply (triple_bind Inv (fun _ => Inv)).
    { apply triple_layout_root; [|apply keeps_keeps_at]; apply keeps_write_ops. }
    intros _.
    apply (triple_bind Inv (fun _ => Inv)).
    { apply triple_layout_root; [|apply keeps_keeps_at];
        apply keeps_connect_fixes; intros; reflexivity. }
    intros _.
    (* _connect_parameters *)
    apply (triple_bind Inv (fun _ => Inv2)).
    { intros s (HL & HP) b Hb.
      pose proof (HL self) as HLs. unfold G, st3 in HLs. cbn [nodes] in HLs.
      rewrite lookup_insert_eq in HLs.
      destruct (nodes s !! self) as [ns|] eqn:Hns; [|discriminate HLs].
      assert (Hlns : layout ns = layout n3).
      { change (Some (layout ns) = Some (layout n3)) in HLs. congruence. }
      apply layout_fields in Hlns as (Hc & Hsn & Hv & Hpn & Hsl).
      change (_parameters_ n3) with children in Hpn.
      assert (Hszs : child_sizes (_parameters_ ns) s = Ok szs').
      { rewrite Hpn, <- Hszc. apply child_sizes_kept. intros c Hc'.
        assert (Hcs : c <> self) by (intros ->; contradiction).
        pose proof (HL c) as HLc. unfold G in HLc. rewrite (Hx3 c Hcs) in HLc.
        destruct (nodes s !! c) as [a|], (nodes st !! c) as [a'|];
          try discriminate HLc; auto.
        assert (Hab : layout a = layout a').
        { change (Some (layout a) = Some (layout a')) in HLc. congruence. }
        apply layout_fields in Hab as (_ & Hab & _). simpl. rewrite Hab. reflexivity. }
      assert (Hne' : _parameters_ ns <> []) by (rewrite Hpn; exact Hne).
      assert (Hself' : ~ In self (_parameters_ ns)) by (rewrite Hpn; exact Hselfc).
      assert (Hnd' : NoDup (_parameters_ ns)) by (rewrite Hpn; exact Hndc).
      destruct (connect_parameters_run self s ns szs' Hns Hne' Hself' Hnd' Hszs) as
        (s' & Hrun' & _ & _ & _ & Hs' & Hch' & Hfr').
      rewrite Hrun'. cbn [snd]. split.
      - intros x. unfold G2. destruct (Nat.eq_dec x self) as [->|Hx].
        + rewrite Hs'. simpl. f_equal. unfold target, layout. simpl.
          rewrite Hc, Hsn, Hv, Hpn. reflexivity.
        + rewrite <- (HL x).
          destruct (in_dec Nat.eq_dec x children) as [Hxin|Hxin].
          * rewrite <- Hpn in Hxin.
            apply list_elem_of_In, list_elem_of_lookup_1 in Hxin as (j & Hj).
            destruct (Hch' j x Hj) as (cn & Hcn & Hc1). rewrite Hc1, Hcn. reflexivity.
          * rewrite Hfr'; auto. rewrite Hpn. exact Hxin.
      - rewrite Hs'. simpl. simpl in HP. exact HP. }
    intros _.
    (* _notify_parent_change *)
    apply (triple_bind Inv2 (fun _ => Inv2)).
    { apply triple_layout_root; [|apply keeps_keeps_at];
        apply keeps_notify_parent_change; intros; reflexivity. }
    intros _.
    apply (triple_bind Inv2 (fun b s => Inv2 s /\ nodes s !! self = Some b)).
    { apply triple_get_node. }
    intros n4 s ((HL & HP) & Hn4) b Hb. rewrite Hn4 in HP. simpl in HP.
    injection HP as HP. rewrite HP, reconnect_ancestors_none. cbn [snd].
    split; [exact HL|]. rewrite Hn4. simpl. rewrite HP. reflexivity. }
  destruct Hfinal as (HL & _). split.
  - specialize (HL self). unfold G2 in HL.
    destruct (Nat.eq_dec self self) as [_|Hc]; [|contradiction].
    destruct (nodes (snd r) !! self) as [n'|]; [|discriminate HL].
    exists n'. split; [reflexivity|].
    change (Some (layout n') = Some target) in HL. congruence.
  - intros x Hx. rewrite (HL x). unfold G2.
    destruct (Nat.eq_dec x self) as [->|_]; [contradiction|]. apply Hx3. exact Hx.
Qed.

End DetachLayout.

Section DetachConsistent.
Context {V : Type}.
Implicit Types (st : state V) (n : node V).

(** [remove_parameter] at a consistent container without a parent that
    keeps a child. *)
Lemma remove_parameter_consistent k d self param st n pn (i : nat) :
  nodes st !! self = Some n -> nodes st !! param = Some pn ->
  cls n = Parameterized -> _direct_parent_ n = None ->
  _parameters_ n !! i = Some param ->
  firstn i (_parameters_ n) ++ skipn (S i) (_parameters_ n) <> [] ->
  wf_tree (S d) self st -> NoDup (_parameters_ n) ->
  (forall c, In c (_parameters_ n) -> ~ In self (members d c st)) ->
  unnamed "size" (_parameters_ n) st = true ->
  fst (remove_parameter k self param st) = Ok tt ->
  let st' := snd (remove_parameter k self param st) in
  wf_tree (S d) self st' /\
  (exists n', nodes st' !! self = Some n' /\ cls n' = Parameterized /\
              _parameters_ n'
              = firstn i (_parameters_ n) ++ skipn (S i) (_parameters_ n)) /\
  (forall x, x <> self -> layout <$> nodes st' !! x = layout <$> nodes st !! x).
Proof.
  intros Hn Hp Hcls Hroot Hi Hne Hw Hnd Hsc Hu Hok st'.
  pose proof Hw as Hw0. cbn [wf_tree] in Hw. destruct Hw as (n0 & Hn0 & Hw).
  rewrite Hn in Hn0. injection Hn0 as <-. rewrite Hcls in Hw.
  destruct Hw as (Hch & szs & Hsz & Hz & Hsl).
  assert (Hin : In param (_parameters_ n)).
  { apply list_elem_of_In. eapply list_elem_of_lookup_2. exact Hi. }
  destruct (wf_tree_positive d param st (Hch param Hin)) as (d' & ->).
  assert (Hself : ~ In self (_parameters_ n)).
  { intros H. apply (Hsc self H). apply members_self. }
  set (children := firstn i (_parameters_ n) ++ skipn (S i) (_parameters_ n)) in *.
  destruct (remove_parameter_layout k self param st n pn i szs Hn Hp Hroot Hi Hnd Hself
              Hsz Hu children eq_refl Hne _ eq_refl Hok) as ((n' & Hn' & Hl) & Hx).
  fold st' in Hn', Hx.
  set (szs' := firstn i szs ++ skipn (S i) szs) in *.
  assert (Hl' : cls n' = Parameterized /\ size n' = size n - size pn /\
                _parameters_ n' = children /\ _param_slices_ n' = slices_from 0 szs').
  { unfold layout in Hl. injection Hl. intros. rewrite Hcls in *. auto. }
  destruct Hl' as (Hc' & Hs' & Hp' & Hsl').
  assert (Hinc : forall c, In c children -> In c (_parameters_ n)).
  { intros c Hc. unfold children in Hc. apply in_app_or in Hc as [Hc|Hc].
    - rewrite <- (firstn_skipn i). apply in_or_app. left. exact Hc.
    - rewrite <- (firstn_skipn (S i)). apply in_or_app. right. exact Hc. }
  destruct (child_sizes_take (_parameters_ n) st szs i Hsz) as (Ht1 & _).
  destruct (child_sizes_take (_parameters_ n) st szs (S i) Hsz) as (_ & Ht2).
  pose proof (child_sizes_app _ _ st _ _ Ht1 Ht2) as Hszc.
  fold children szs' in Hszc.
  split; [|split; [eauto|exact Hx]].
  cbn [wf_tree]. exists n'. split; [exact Hn'|]. rewrite Hc', Hp', Hs', Hsl'. split.
  - intros c Hc. apply (wf_tree_layout (S d') c st st').
    + intros x Hxm. apply Hx. intros ->. apply (Hsc c (Hinc c Hc)). exact Hxm.
    + apply Hch, Hinc, Hc.
  - exists szs'. split; [|split; [|reflexivity]].
    + rewrite <- Hszc. apply child_sizes_kept. intros c Hc.
      assert (Hcs : c <> self) by (intros ->; apply Hself, Hinc, Hc).
      specialize (Hx c Hcs).
      destruct (nodes st' !! c) as [a|], (nodes st !! c) as [b|];
        try discriminate Hx; auto.
      assert (Hab : layout a = layout b).
      { change (Some (layout a) = Some (layout b)) in Hx. congruence. }
      apply layout_fields in Hab as (_ & Hab & _). simpl. rewrite Hab. reflexivity.
    + pose proof (child_sizes_lookup (_parameters_ n) st szs i param pn Hsz Hi Hp) as Hlk.
      rewrite Hz. rewrite <- (take_drop_middle szs i (size pn) Hlk) at 1.
      unfold szs'. rewrite !zsum_app. simpl. lia.
Qed.

End DetachConsistent.

Module DetachConsistency.
Import Scenario.

Ltac evaluate := vm_compute; reflexivity.





End DetachConsistency.
